(** * draft-pad: the document state model of [src/utils/hooks.tsx]

    A shallow embedding of the [DrawState] class: the item registry (an
    insertion-ordered map of strokes, tombstones and supersede records), the
    operation algebra, the undo/redo stacks, the flat (persisted) form and its
    replay, and the k-way merge of several snapshots.

    Conventions.
    - Timestamps are the integers returned by [Date.now()], modelled in [Z];
      page dimensions are rationals ([Qc]).
    - Immutable.js' [OrderedMap] is an association list without duplicate
      keys, in insertion order; [Map] is a [gmap]; [List] is a [list].
    - [v4()] and [Date.now()] read from an explicit [World]; [v5] and
      [validate] of the uuid package are section variables.
    - The priority queue is the npm package [heap] (a port of Python's
      [heapq]); its four routines are transcribed in [Module Heap]. *)

From Stdlib Require Import ZArith QArith Qcanon Lia.
From stdpp Require Import base tactics option numbers list strings gmap pretty.

#[local] Set Warnings "-register-all,-clear-no-such-hyp".

(* ================================================================== *)
(** * Part I: the model                                                *)
(* ================================================================== *)

(** ** Items *)

(** [interface Stroke { type: "STROKE"; uid; pathData; timestamp }] *)
Record Stroke := mkStroke {
  uid : string;
  pathData : string;
  timestamp : Z;
}.

(** [type StrokeData]: a tagged union over the discriminator [type]. *)
Inductive StrokeData :=
| STROKE (stroke : Stroke)
| HIDE (uid originUid : string) (timestamp : Z)
| MUTATE (uid originUid pathData : string) (timestamp : Z).

Definition sd_uid (s : StrokeData) : string :=
  match s with
  | STROKE s => uid s
  | HIDE u _ _ => u
  | MUTATE u _ _ _ => u
  end.

Definition sd_timestamp (s : StrokeData) : Z :=
  match s with
  | STROKE s => timestamp s
  | HIDE _ _ t => t
  | MUTATE _ _ _ t => t
  end.

Definition is_MUTATE (s : StrokeData) : bool :=
  match s with MUTATE _ _ _ _ => true | _ => false end.

Definition Mutation : Type := string * string.
Definition Splitter : Type := string * list string.

(** [type Operation]; [op_other] stands for a tag outside the union, which
    [pushOperation] sends to its [default] branch. *)
Inductive Operation :=
| op_add (stroke : Stroke)
| op_add_list (strokeList : list Stroke)
| op_erase (erased : list string)
| op_mutate (mutations : list Mutation) (timestamp : Z)
| op_split (splitters : list Splitter)
| op_undo
| op_redo
| op_other (tag : string).

(** ** Immutable.js [OrderedMap<string, V>] *)

Module OrderedMap.
Section ordered_map.
Context {V : Type}.

Definition keys (m : list (string * V)) : list string := m.*1.
Definition values (m : list (string * V)) : list V := m.*2.

(** [get(key)]: [None] stands for [undefined]. *)
Fixpoint get (k : string) (m : list (string * V)) : option V :=
  match m with
  | [] => None
  | (k', v) :: m' => if decide (k' = k) then Some v else get k m'
  end.

Definition has (k : string) (m : list (string * V)) : bool :=
  bool_decide (is_Some (get k m)).

(** [set]: an existing key keeps its position, a new key goes last. *)
Fixpoint set (k : string) (v : V) (m : list (string * V)) : list (string * V) :=
  match m with
  | [] => [(k, v)]
  | (k', v') :: m' =>
      if decide (k' = k) then (k, v) :: m' else (k', v') :: set k v m'
  end.

(** [delete(key)], also exported as [remove(key)]. *)
Definition remove (k : string) (m : list (string * V)) : list (string * V) :=
  filter (λ e, e.1 ≠ k) m.

(** [deleteAll(keys)] *)
Definition deleteAll (ks : list string) (m : list (string * V)) : list (string * V) :=
  foldl (λ m k, remove k m) m ks.

(** [merge] of a sequence of [[key, value]] pairs: [set] each in turn. *)
Definition merge (entries : list (string * V)) (m : list (string * V)) : list (string * V) :=
  foldl (λ m e, set e.1 e.2 m) m entries.

(** [update(key, updater)] for an updater that maps [undefined] to
    [undefined]: Immutable.js leaves the map as it is when the updater
    returns the value it was given, so an absent key changes nothing; a
    present key gets the new value at its old position. *)
Definition update (k : string) (updater : V → V) (m : list (string * V)) : list (string * V) :=
  match get k m with
  | Some s => set k (updater s) m
  | None => m
  end.

(** [OrderedMap(obj)] from the entries of a JavaScript object. *)
Definition of_entries (entries : list (string * V)) : list (string * V) :=
  merge entries [].
End ordered_map.
End OrderedMap.

(** ** The immutable record behind a snapshot *)

(** [interface DrawStateRecordType]; [historyStack] grows at its end
    ([push]) and is read at its end ([last]); [undoStack] grows at its front
    ([unshift]) and is read at its front ([first]). *)
Inductive DrawStateRecord := mkRecord {
  strokes : list (string * StrokeData);
  mutationPairs : gmap string string;
  undoStack : list DrawStateRecord;
  historyStack : list DrawStateRecord;
}.

(** [defaultFactory()] *)
Definition defaultRecord : DrawStateRecord :=
  mkRecord [] ∅ [] [].

Definition set_strokes (s : list (string * StrokeData)) (r : DrawStateRecord) :=
  mkRecord s (mutationPairs r) (undoStack r) (historyStack r).
Definition set_mutationPairs (p : gmap string string) (r : DrawStateRecord) :=
  mkRecord (strokes r) p (undoStack r) (historyStack r).
Definition set_undoStack (u : list DrawStateRecord) (r : DrawStateRecord) :=
  mkRecord (strokes r) (mutationPairs r) u (historyStack r).
Definition set_historyStack (h : list DrawStateRecord) (r : DrawStateRecord) :=
  mkRecord (strokes r) (mutationPairs r) (undoStack r) h.
(** [record.delete("undoStack")] resets the field to its default, [List()]. *)
Definition delete_undoStack (r : DrawStateRecord) := set_undoStack [] r.

(** [class DrawState] *)
Record DrawState := mkDrawState {
  immutable : DrawStateRecord;
  width : Qc;
  height : Qc;
  lastOp : option Operation;
}.

Definition getImmutable (ds : DrawState) := immutable ds.
Definition getUndoStack (ds : DrawState) := undoStack (getImmutable ds).
Definition getHistoryStack (ds : DrawState) := historyStack (getImmutable ds).
Definition getStrokeMap (ds : DrawState) := strokes (getImmutable ds).
Definition getMutationPairs (ds : DrawState) := mutationPairs (getImmutable ds).
Definition hasStroke (ds : DrawState) (uid : string) : bool :=
  OrderedMap.has uid (getStrokeMap ds).

(** ** The outside world: [v4()] and [Date.now()] *)

(** The [n]-th call of [v4()] returns [uuids n], the [n]-th call of
    [Date.now()] returns [clock n]. *)
Record World := mkWorld {
  uuids : nat → string;
  uuid_calls : nat;
  clock : nat → Z;
  clock_calls : nat;
}.

Definition M (A : Type) : Type := World → A * World.
Definition ret {A} (a : A) : M A := λ w, (a, w).
Definition bind {A B} (m : M A) (f : A → M B) : M B :=
  λ w, let '(a, w') := m w in f a w'.

Notation "'let!' x ':=' m 'in' k" := (bind m (λ x, k))
  (at level 10, x name, m at level 100, k at level 200).
Notation "'let!' ' p ':=' m 'in' k" := (bind m (λ x, match x with p => k end))
  (at level 10, p strict pattern, m at level 100, k at level 200).

Definition v4 : M string :=
  λ w, (uuids w (uuid_calls w),
        mkWorld (uuids w) (S (uuid_calls w)) (clock w) (clock_calls w)).

Definition Date_now : M Z :=
  λ w, (clock w (clock_calls w),
        mkWorld (uuids w) (uuid_calls w) (clock w) (S (clock_calls w))).

(** [xs.forEach(x => { acc = body(acc, x) })] with an effectful body. *)
Fixpoint forEachM {A S} (body : S → A → M S) (xs : list A) (acc : S) : M S :=
  match xs with
  | [] => ret acc
  | x :: xs' => let! acc' := body acc x in forEachM body xs' acc'
  end.

(** [xs.map(f)] with an effectful [f]. *)
Fixpoint mapM {A B} (f : A → M B) (xs : list A) : M (list B) :=
  match xs with
  | [] => ret []
  | x :: xs' => let! y := f x in let! ys := mapM f xs' in ret (y :: ys)
  end.

(** ** The priority queue: npm [heap] *)

(** [heappush], [heappop], [_siftdown] and [_siftup] of the [heap] package,
    over the array [nodes] and the comparison [cmp] given to [new Heap(cmp)].
    An array cell is read with [!!] and written with [<[i := x]>]. The two
    loops move [pos] strictly towards the root, resp. strictly towards the
    leaves, so [pos], resp. the array length, bounds their iterations. *)
Module Heap.
Section heap.
Context {A : Type} (cmp : A → A → Z).

(** The [while (pos > startpos)] loop of [_siftdown], ending with
    [array[pos] = newitem]. *)
Fixpoint siftdown_loop (fuel : nat) (array : list A) (startpos pos : nat)
    (newitem : A) : list A :=
  match fuel with
  | 0 => <[pos := newitem]> array
  | S fuel' =>
      if decide (startpos < pos) then
        let parentpos := (pos - 1) / 2 in
        match array !! parentpos with
        | Some parent =>
            if decide (cmp newitem parent < 0)%Z
            then siftdown_loop fuel' (<[pos := parent]> array) startpos parentpos newitem
            else <[pos := newitem]> array
        | None => <[pos := newitem]> array
        end
      else <[pos := newitem]> array
  end.

Definition siftdown (array : list A) (startpos pos : nat) : list A :=
  match array !! pos with
  | Some newitem => siftdown_loop pos array startpos pos newitem
  | None => array
  end.

(** The [while (childpos < endpos)] loop of [_siftup]; it returns the
    array and the leaf position reached. *)
Fixpoint siftup_loop (fuel : nat) (array : list A) (endpos pos : nat)
    : list A * nat :=
  match fuel with
  | 0 => (array, pos)
  | S fuel' =>
      let childpos := 2 * pos + 1 in
      if decide (childpos < endpos) then
        let rightpos := childpos + 1 in
        let childpos :=
          match array !! childpos, array !! rightpos with
          | Some l, Some r =>
              if decide (rightpos < endpos ∧ ¬ (cmp l r < 0)%Z)
              then rightpos else childpos
          | _, _ => childpos
          end in
        match array !! childpos with
        | Some child => siftup_loop fuel' (<[pos := child]> array) endpos childpos
        | None => (array, pos)
        end
      else (array, pos)
  end.

Definition siftup (array : list A) (pos : nat) : list A :=
  match array !! pos with
  | Some newitem =>
      let endpos := length array in
      let '(array, leaf) := siftup_loop endpos array endpos pos in
      siftdown (<[leaf := newitem]> array) pos leaf
  | None => array
  end.

(** [heap.push(item)] *)
Definition push (nodes : list A) (item : A) : list A :=
  let array := nodes ++ [item] in
  siftdown array 0 (length array - 1).

(** [heap.pop()]: the returned item ([None] for [undefined]) and the
    array left behind. *)
Definition pop (nodes : list A) : option A * list A :=
  match last nodes with
  | None => (None, nodes)
  | Some lastelt =>
      let array := removelast nodes in
      match array with
      | [] => (Some lastelt, array)
      | returnitem :: _ => (Some returnitem, siftup (<[0 := lastelt]> array) 0)
      end
  end.

Definition size (nodes : list A) : nat := length nodes.
End heap.

(** The order of the array, for a key [key] that [cmp] compares. *)
Section order.
Context {A : Type} (key : A → Z).

(** Cell [i] is not below its parent cell. *)
Definition ordered_at (array : list A) (i : nat) : Prop :=
  ∀ x p, array !! i = Some x → array !! ((i - 1) / 2) = Some p →
         (key p ≤ key x)%Z.

(** The heap invariant of the array. *)
Definition is_heap (array : list A) : Prop := ∀ i, 0 < i → ordered_at array i.

(** The state of [_siftdown] with the hole at [pos]: every cell but the
    hole is in order with its parent, the children of the hole are not
    below the item held aside, nor below the parent of the hole. *)
Definition siftdown_inv (array : list A) (pos : nat) (newitem : A) : Prop :=
  (∀ i, 0 < i → i ≠ pos → ordered_at array i)
  ∧ (∀ c y, 0 < c → (c - 1) / 2 = pos → array !! c = Some y →
            (key newitem ≤ key y)%Z)
  ∧ (∀ c y g, 0 < pos → 0 < c → (c - 1) / 2 = pos → array !! c = Some y →
              array !! ((pos - 1) / 2) = Some g → (key g ≤ key y)%Z).

(** The state of [_siftup] with the hole at [pos]: every cell whose
    parent is not the hole is in order with it, and the children of the
    hole are not below the parent of the hole. *)
Definition siftup_inv (array : list A) (pos : nat) : Prop :=
  (∀ i, 0 < i → (i - 1) / 2 ≠ pos → ordered_at array i)
  ∧ (∀ c y g, 0 < pos → 0 < c → (c - 1) / 2 = pos → array !! c = Some y →
              array !! ((pos - 1) / 2) = Some g → (key g ≤ key y)%Z).
End order.
End Heap.

(** ** The operation algebra *)

(** [uuid.NIL] *)
Definition NIL : string := "00000000-0000-0000-0000-000000000000".

(** [DrawState.createEmpty(ratio, width)] *)
Definition createEmpty (ratio width : Qc) : DrawState :=
  mkDrawState defaultRecord width (width * ratio)%Qc None.

(** [DrawState.undo] *)
Definition undo (drawState : DrawState) : DrawState :=
  match last (getHistoryStack drawState) with
  | None => drawState
  | Some lastRecord =>
      let undoStack := getImmutable drawState :: getUndoStack drawState in
      mkDrawState (set_undoStack undoStack lastRecord)
        (width drawState) (height drawState) (Some op_undo)
  end.

(** [DrawState.redo] *)
Definition redo (drawState : DrawState) : DrawState :=
  match head (getUndoStack drawState) with
  | None => drawState
  | Some nextRecord =>
      mkDrawState nextRecord (width drawState) (height drawState) (Some op_redo)
  end.

(** [DrawState.pushStroke] *)
Definition pushStroke (drawState : DrawState) (stroke : Stroke) : DrawState :=
  let prevRecord := getImmutable drawState in
  let currRecord :=
    delete_undoStack
      (set_historyStack (historyStack prevRecord ++ [prevRecord])
         (set_strokes (OrderedMap.set (uid stroke) (STROKE stroke) (strokes prevRecord))
            prevRecord)) in
  mkDrawState currRecord (width drawState) (height drawState) (Some (op_add stroke)).

(** [DrawState.addStroke] *)
Definition addStroke (drawState : DrawState) (pathData : string) : M DrawState :=
  let! uid := v4 in
  let! timestamp := Date_now in
  ret (pushStroke drawState (mkStroke uid pathData timestamp)).

(** [DrawState.pushStrokeList] *)
Definition pushStrokeList (drawState : DrawState) (strokeList : list Stroke) : DrawState :=
  let prevRecord := getImmutable drawState in
  let currRecord :=
    set_strokes
      (OrderedMap.merge (map (λ stroke, (uid stroke, STROKE stroke)) strokeList)
         (strokes prevRecord))
      prevRecord in
  mkDrawState currRecord (width drawState) (height drawState)
    (Some (op_add_list strokeList)).

(** [DrawState.addStrokeList]; the optional callback only observes the new
    UIDs and is left out. *)
Definition addStrokeList (drawState : DrawState) (pathDataList : list string)
    : M DrawState :=
  let! timestamp := Date_now in
  let! strokeList :=
    mapM (λ pathData, let! uid := v4 in ret (mkStroke uid pathData timestamp))
      pathDataList in
  ret (pushStrokeList drawState strokeList).

(** One round of the [hidden.forEach] of [eraseStrokes], on [strokes]. *)
Definition hideOne (strokes : list (string * StrokeData)) (hideID : string)
    : M (list (string * StrokeData)) :=
  let! uid := v4 in
  let! now := Date_now in
  ret (OrderedMap.set uid (HIDE uid hideID now) strokes).

(** [DrawState.eraseStrokes] *)
Definition eraseStrokes (drawState : DrawState) (erased : list string) : M DrawState :=
  if decide (length erased = 0) then ret drawState else
  let prevRecord := getImmutable drawState in
  let strokes := getStrokeMap drawState in
  let hidden := filter (λ uid, ¬ OrderedMap.has uid strokes) erased in
  let strokes := OrderedMap.deleteAll erased strokes in
  let! strokes := forEachM hideOne hidden strokes in
  let currRecord :=
    delete_undoStack
      (set_historyStack (historyStack prevRecord ++ [prevRecord])
         (set_strokes strokes prevRecord)) in
  ret (mkDrawState currRecord (width drawState) (height drawState)
         (Some (op_erase erased))).

(** One round of the [mutations.forEach] of [mutateStrokes], on the pair
    [(strokes, mutationPairs)]. [prevMutationUid ?? ""] turns a missing
    previous record into the key [""]. *)
Definition mutateOne (timestamp : Z)
    (acc : list (string * StrokeData) * gmap string string) (mutation : Mutation)
    : M (list (string * StrokeData) * gmap string string) :=
  let '(strokes, mutationPairs) := acc in
  let '(uid, pathData) := mutation in
  let! newUid := v4 in
  let strokes := OrderedMap.set newUid (MUTATE newUid uid pathData timestamp) strokes in
  let prevMutationUid := mutationPairs !! uid in
  let mutationPairs := <[uid := newUid]> mutationPairs in
  let strokes := OrderedMap.remove (default "" prevMutationUid) strokes in
  ret (strokes, mutationPairs).

(** [DrawState.mutateStrokes]; [timestamp] is [None] when the caller leaves
    the argument out, and the default [Date.now()] is then read on entry. *)
Definition mutateStrokes (drawState : DrawState) (mutations : list Mutation)
    (timestamp : option Z) : M DrawState :=
  let! timestamp :=
    match timestamp with Some t => ret t | None => Date_now end in
  if decide (length mutations = 0) then ret drawState else
  let prevRecord := getImmutable drawState in
  let! '(strokes, mutationPairs) :=
    forEachM (mutateOne timestamp) mutations
      (getStrokeMap drawState, getMutationPairs drawState) in
  let currRecord :=
    delete_undoStack
      (set_historyStack (historyStack prevRecord ++ [prevRecord])
         (set_mutationPairs mutationPairs (set_strokes strokes prevRecord))) in
  ret (mkDrawState currRecord (width drawState) (height drawState)
         (Some (op_mutate mutations timestamp))).

(** [FlatState]: [strokes] lists the entries of the JavaScript object in the
    order of [Object.entries]. *)
Record FlatState := mkFlatState {
  flat_strokes : list (string * StrokeData);
  flat_operations : option (list Operation);
}.

Definition getDefaultFlatState : FlatState := mkFlatState [] None.

(** [DrawState.flaten] *)
Definition flaten (drawState : DrawState) : FlatState :=
  mkFlatState (strokes (getImmutable drawState)) None.

Section Operations.
(** [v5(name, namespace)] and [validate(uid)] of the uuid package. *)
Variable v5 : string → string → string.
Variable validate : string → bool.

(** The [splitStrokes.map((pathData, index) => ...)] of one origin; the
    callback overwrites [prevUid] when it is not a valid UUID, and later
    rounds see the new value. *)
Fixpoint splitEntries (stroke : StrokeData) (prevUid : string) (index : nat)
    (splitStrokes : list string) : list (string * StrokeData) :=
  match splitStrokes with
  | [] => []
  | pathData :: rest =>
      let prevUid := if validate prevUid then prevUid else v5 prevUid NIL in
      let uid := v5 (pretty index) prevUid in
      (uid, STROKE (mkStroke uid pathData (sd_timestamp stroke)))
        :: splitEntries stroke prevUid (S index) rest
  end.

(** One round of the [prevStrokes.forEach] of [splitStrokes], on
    [strokes]. *)
Definition splitOne (splitMap : gmap string (list string))
    (strokes : list (string * StrokeData)) (entry : string * StrokeData)
    : list (string * StrokeData) :=
  let '(prevUid, stroke) := entry in
  match splitMap !! prevUid with
  | Some splitStrokes =>
      OrderedMap.merge (splitEntries stroke prevUid 0 splitStrokes) strokes
  | None => OrderedMap.set prevUid stroke strokes
  end.

(** [DrawState.splitStrokes]; [Map(splitters)] keeps the last list given
    for a UID. *)
Definition splitStrokes (drawState : DrawState) (splitters : list Splitter)
    : DrawState :=
  if decide (length splitters = 0) then drawState else
  let splitMap : gmap string (list string) :=
    foldl (λ m s, <[s.1 := s.2]> m) ∅ splitters in
  let prevStrokes := getStrokeMap drawState in
  let strokes := foldl (splitOne splitMap) [] prevStrokes in
  let prevRecord := getImmutable drawState in
  let currRecord :=
    set_historyStack (historyStack prevRecord ++ [prevRecord])
      (set_strokes strokes prevRecord) in
  mkDrawState currRecord (width drawState) (height drawState)
    (Some (op_split splitters)).

(** [DrawState.pushOperation] *)
Definition pushOperation (drawState : DrawState) (op : Operation) : M DrawState :=
  match op with
  | op_add stroke => ret (pushStroke drawState stroke)
  | op_add_list strokeList => ret (pushStrokeList drawState strokeList)
  | op_erase erased => eraseStrokes drawState erased
  | op_mutate mutations timestamp =>
      mutateStrokes drawState mutations (Some timestamp)
  | op_undo => ret (undo drawState)
  | op_redo => ret (redo drawState)
  | op_split splitters => ret (splitStrokes drawState splitters)
  | op_other _ => ret drawState
  end.

(** One round of the [Object.entries(strokes).forEach] of [loadFromFlat],
    on the pair [(strokeMap, mutationPairs)]. The truthiness test
    [if (prevMutationUid)] is false for [undefined] and for [""]. *)
Definition loadOne
    (acc : list (string * StrokeData) * gmap string string)
    (entry : string * StrokeData)
    : list (string * StrokeData) * gmap string string :=
  let '(strokeMap, mutationPairs) := acc in
  let '(uid, strokeData) := entry in
  match strokeData with
  | MUTATE _ originUid _ _ =>
      let prevMutationUid := mutationPairs !! originUid in
      let mutationPairs := <[originUid := uid]> mutationPairs in
      match prevMutationUid with
      | Some prev =>
          if decide (prev = "") then (strokeMap, mutationPairs)
          else (OrderedMap.remove prev strokeMap, mutationPairs)
      | None => (strokeMap, mutationPairs)
      end
  | _ => acc
  end.

(** [DrawState.loadFromFlat] *)
Definition loadFromFlat (flatState : FlatState) (ratio width : Qc) : M DrawState :=
  let strokes := flat_strokes flatState in
  let strokeMap := OrderedMap.of_entries strokes in
  let '(strokeMap, mutationPairs) := foldl loadOne (strokeMap, ∅) strokes in
  let ds :=
    mkDrawState
      (set_mutationPairs mutationPairs (set_strokes strokeMap defaultRecord))
      width (width * ratio)%Qc None in
  match flat_operations flatState with
  | Some operations => forEachM pushOperation operations ds
  | None => ret ds
  end.
End Operations.

(** ** The merge engine *)

(** An entry of the heap: [[StrokeData, number]], an item and the index of
    the snapshot it comes from. *)
Abbreviation HeapEntry := (StrokeData * nat)%type.

(** The comparison given to [new Heap]:
    [([s0], [s1]) => s0.timestamp - s1.timestamp]. *)
Definition cmp (e0 e1 : HeapEntry) : Z :=
  (sd_timestamp e0.1 - sd_timestamp e1.1)%Z.

(** [iter.next()] on the values of a stroke map: [value] ([None] when
    [done]) and the iterator left. *)
Definition next (iter : list StrokeData) : option StrokeData * list StrokeData :=
  match iter with
  | [] => (None, [])
  | value :: iter' => (Some value, iter')
  end.

(** The three branches on [stroke.type] in the loop of [mergeStates]. *)
Definition mergeItem (mergedStrokes : list (string * Stroke)) (stroke : StrokeData)
    : list (string * Stroke) :=
  match stroke with
  | HIDE _ originUid _ => OrderedMap.remove originUid mergedStrokes
  | MUTATE _ originUid pathData _ =>
      OrderedMap.update originUid
        (λ s, mkStroke (uid s) pathData (timestamp s)) mergedStrokes
  | STROKE stroke => OrderedMap.set (uid stroke) stroke mergedStrokes
  end.

(** The variables of [mergeStates] that live across loop iterations. *)
Record MergeState := mkMergeState {
  mergedStrokes : list (string * Stroke);
  heap : list HeapEntry;
  iterators : list (list StrokeData);
}.

(** [iterators.forEach((iter, index) => { ... heap.push([value, index]) })]:
    the first item of every non-empty snapshot enters the heap. *)
Fixpoint pushHeads (iters : list (list StrokeData)) (index : nat)
    (heap : list HeapEntry) : list HeapEntry * list (list StrokeData) :=
  match iters with
  | [] => (heap, [])
  | iter :: iters' =>
      let '(value, iter') := next iter in
      let heap :=
        match value with
        | Some value => Heap.push cmp heap (value, index)
        | None => heap
        end in
      let '(heap, iters'') := pushHeads iters' (S index) heap in
      (heap, iter' :: iters'')
  end.

Definition mergeInit (states : list DrawState) : MergeState :=
  let iterators := map (λ ds, OrderedMap.values (getStrokeMap ds)) states in
  let '(heap, iterators) := pushHeads iterators 0 [] in
  mkMergeState [] heap iterators.

(** One pass through [while (heap.size() > 0) { ... }]: [inl] is the state
    at the start of the next pass, [inr] the map the function returns when
    the loop ends or breaks. *)
Definition mergeBody (st : MergeState) : MergeState + list (string * Stroke) :=
  if decide (0 < Heap.size (heap st)) then
    match Heap.pop cmp (heap st) with
    | (None, _) => inr (mergedStrokes st)
    | (Some (stroke, index), heap) =>
        let mergedStrokes := mergeItem (mergedStrokes st) stroke in
        match iterators st !! index with
        | None => inr mergedStrokes
        | Some iterator =>
            let '(value, iterator) := next iterator in
            let heap :=
              match value with
              | Some value => Heap.push cmp heap (value, index)
              | None => heap
              end in
            inl (mkMergeState mergedStrokes heap (<[index := iterator]> (iterators st)))
        end
    end
  else inr (mergedStrokes st).

(** The loop; [None] only if [fuel] passes did not finish it. *)
Fixpoint mergeLoop (fuel : nat) (st : MergeState) : option (list (string * Stroke)) :=
  match fuel with
  | 0 => None
  | S fuel' =>
      match mergeBody st with
      | inr result => Some result
      | inl st' => mergeLoop fuel' st'
      end
  end.

(** Every pass pops one item and every item is pushed once, so one pass
    more than there are items ends the loop (see [mergeStates_returns]). *)
Definition mergeFuel (states : list DrawState) : nat :=
  S (sum_list (map (λ ds, length (getStrokeMap ds)) states)).

(** [DrawState.mergeStates(...states)] *)
Definition mergeStates (states : list DrawState) : option (list (string * Stroke)) :=
  mergeLoop (mergeFuel states) (mergeInit states).

(** The state after [n] passes of the loop, if it is still running. *)
Fixpoint mergeAfter (n : nat) (st : MergeState) : option MergeState :=
  match n with
  | 0 => Some st
  | S n' =>
      match mergeBody st with
      | inl st' => mergeAfter n' st'
      | inr _ => None
      end
  end.

(** A snapshot holding just the given items, each under its own UID. *)
Definition snapshot (items : list StrokeData) : DrawState :=
  mkDrawState
    (set_strokes (OrderedMap.of_entries (map (λ s, (sd_uid s, s)) items)) defaultRecord)
    1%Qc 1%Qc None.

(* ================================================================== *)
(** * Part II: vocabulary of the properties                            *)
(* ================================================================== *)

(** The page dimensions of a snapshot. *)
Definition dimensions (ds : DrawState) : Qc * Qc := (width ds, height ds).

(** The UIDs returned by the next [n] calls of [v4()] in world [w]. *)
Definition v4_results (w : World) (n : nat) : list string :=
  map (λ i, uuids w (uuid_calls w + i)) (seq 0 n).

(** The UIDs listed for erasure that the stroke map does not hold: the
    [hidden] of [eraseStrokes]. *)
Definition hiddenOf (ds : DrawState) (erased : list string) : list string :=
  filter (λ uid, ¬ OrderedMap.has uid (getStrokeMap ds)) erased.

(** ** The supersede invariant *)

(** Every MUTATE record of the item map is the one the supersede index
    names for its origin. *)
Definition supersede_ok (strokes : list (string * StrokeData))
    (mutationPairs : gmap string string) : Prop :=
  ∀ k u o p t, (k, MUTATE u o p t) ∈ strokes → mutationPairs !! o = Some k.

(** At most one MUTATE record per origin. *)
Definition one_supersede_per_origin (strokes : list (string * StrokeData)) : Prop :=
  ∀ k1 u1 p1 t1 k2 u2 p2 t2 o,
    (k1, MUTATE u1 o p1 t1) ∈ strokes → (k2, MUTATE u2 o p2 t2) ∈ strokes →
    (k1, MUTATE u1 o p1 t1) = (k2, MUTATE u2 o p2 t2).

(** The invariant of a record: unique keys, the supersede invariant, and
    the same for every record kept on the two stacks. *)
Fixpoint record_ok (r : DrawStateRecord) : Prop :=
  match r with
  | mkRecord strokes mutationPairs undoStack historyStack =>
      NoDup (OrderedMap.keys strokes)
      ∧ supersede_ok strokes mutationPairs
      ∧ (fix all (l : list DrawStateRecord) : Prop :=
           match l with [] => True | r' :: l' => record_ok r' ∧ all l' end) undoStack
      ∧ (fix all (l : list DrawStateRecord) : Prop :=
           match l with [] => True | r' :: l' => record_ok r' ∧ all l' end) historyStack
  end.

(** The key of the last MUTATE record for origin [o] in [entries], in
    insertion order. *)
Fixpoint lastSupersede (entries : list (string * StrokeData)) (o : string)
    : option string :=
  match entries with
  | [] => None
  | (k, s) :: rest =>
      match lastSupersede rest o with
      | Some k' => Some k'
      | None =>
          match s with
          | MUTATE _ o' _ _ => if decide (o' = o) then Some k else None
          | _ => None
          end
      end
  end.

(** An entry that is not a MUTATE record, or is the last MUTATE record of
    its origin in [entries]. *)
Definition survivesLoad (entries : list (string * StrokeData))
    (e : string * StrokeData) : Prop :=
  match e.2 with
  | MUTATE _ o _ _ => lastSupersede entries o = Some e.1
  | _ => True
  end.

Global Instance survivesLoad_dec entries e : Decision (survivesLoad entries e).
Proof. unfold survivesLoad. destruct (e.2); apply _. Defined.

(** A flat state as the code expects it: the keys of a JavaScript object are
    distinct, and no supersede record sits under the empty string, which
    the code takes for "no previous record". *)
Definition wf_flat (flat : FlatState) : Prop :=
  NoDup (OrderedMap.keys (flat_strokes flat))
  ∧ ∀ k s, (k, s) ∈ flat_strokes flat → is_MUTATE s = true → k ≠ "".

Section Reachability.
Variable v5 : string → string → string.
Variable validate : string → bool.

(** The snapshots that [createEmpty] or [loadFromFlat] and any sequence
    of operations can produce, in any world. *)
Inductive reachable : DrawState → Prop :=
| reach_createEmpty ratio width :
    reachable (createEmpty ratio width)
| reach_loadFromFlat flat ratio width w :
    wf_flat flat → reachable (loadFromFlat v5 validate flat ratio width w).1
| reach_addStroke ds pathData w :
    reachable ds → reachable (addStroke ds pathData w).1
| reach_addStrokeList ds pathDataList w :
    reachable ds → reachable (addStrokeList ds pathDataList w).1
| reach_pushStroke ds stroke :
    reachable ds → reachable (pushStroke ds stroke)
| reach_pushStrokeList ds strokeList :
    reachable ds → reachable (pushStrokeList ds strokeList)
| reach_eraseStrokes ds erased w :
    reachable ds → reachable (eraseStrokes ds erased w).1
| reach_mutateStrokes ds mutations timestamp w :
    reachable ds → reachable (mutateStrokes ds mutations timestamp w).1
| reach_splitStrokes ds splitters :
    reachable ds → reachable (splitStrokes v5 validate ds splitters)
| reach_undo ds :
    reachable ds → reachable (undo ds)
| reach_redo ds :
    reachable ds → reachable (redo ds)
| reach_pushOperation ds op w :
    reachable ds → reachable (pushOperation v5 validate ds op w).1.
End Reachability.

(** ** Reference points for the merge *)

(** The resolution rules of the merge, in the words of the specification:
    a stroke is inserted or overwritten under its own UID; a tombstone
    deletes its origin; a supersede record replaces the payload of its
    origin in place when the origin is present and is dropped otherwise. *)
Definition resolveItem (out : list (string * Stroke)) (item : StrokeData)
    : list (string * Stroke) :=
  match item with
  | STROKE s => OrderedMap.set (uid s) s out
  | HIDE _ originUid _ => OrderedMap.remove originUid out
  | MUTATE _ originUid payload _ =>
      match OrderedMap.get originUid out with
      | Some s => OrderedMap.set originUid (mkStroke (uid s) payload (timestamp s)) out
      | None => out
      end
  end.

(** The merge of a single snapshot as a left fold over its items, in
    insertion order. *)
Definition mergeInInsertionOrder (ds : DrawState) : list (string * Stroke) :=
  foldl resolveItem [] (OrderedMap.values (getStrokeMap ds)).

(** The two-way merge of two item sequences by timestamp: the head with
    the smaller timestamp goes first. *)
Fixpoint mergeByTimestamp (la lb : list StrokeData) {struct la} : list StrokeData :=
  let fix inner (lb : list StrokeData) {struct lb} : list StrokeData :=
    match la, lb with
    | [], _ => lb
    | _, [] => la
    | a :: ra, b :: rb =>
        if decide (sd_timestamp a < sd_timestamp b)%Z
        then a :: mergeByTimestamp ra lb
        else b :: inner rb
    end in
  inner lb.

(** No item of [la] has the timestamp of an item of [lb]. *)
Definition no_cross_ties (la lb : list StrokeData) : Prop :=
  Forall (λ a, Forall (λ b, sd_timestamp a ≠ sd_timestamp b) lb) la.

(** The items are stored in non-decreasing timestamp order. *)
Fixpoint ascending (l : list StrokeData) : bool :=
  match l with
  | [] => true
  | x :: l' =>
      forallb (λ y, bool_decide (sd_timestamp x ≤ sd_timestamp y)%Z) l'
      && ascending l'
  end.

(** The head of the pending items of one snapshot that is least for
    (timestamp, snapshot index), looking at snapshots [index], [index + 1],
    ... and starting from the candidate [best]. *)
Fixpoint leastHead (iters : list (list StrokeData)) (index : nat)
    (best : option (StrokeData * nat)) : option (StrokeData * nat) :=
  match iters with
  | [] => best
  | iter :: iters' =>
      let best :=
        match iter, best with
        | [], _ => best
        | x :: _, None => Some (x, index)
        | x :: _, Some (y, _) =>
            if decide (sd_timestamp x < sd_timestamp y)%Z
            then Some (x, index) else best
        end in
      leastHead iters' (S index) best
  end.

(** The merge as the specification words it: the queue is keyed by
    timestamp, ties broken by snapshot index, lowest index first. *)
Fixpoint mergeByKeyLoop (fuel : nat) (out : list (string * Stroke))
    (iters : list (list StrokeData)) : list (string * Stroke) :=
  match fuel with
  | 0 => out
  | S fuel' =>
      match leastHead iters 0 None with
      | None => out
      | Some (x, index) =>
          mergeByKeyLoop fuel' (resolveItem out x)
            (<[index := tail (default [] (iters !! index))]> iters)
      end
  end.

Definition mergeByTimestampAndIndex (states : list DrawState)
    : list (string * Stroke) :=
  mergeByKeyLoop (mergeFuel states) []
    (map (λ ds, OrderedMap.values (getStrokeMap ds)) states).

(** The heap of [mergeStates] when the items [la] of snapshot 0 and [lb] of
    snapshot 1 are left and their heads differ in timestamp. *)
Definition twoHeap (la lb : list StrokeData) : list HeapEntry :=
  match la, lb with
  | [], [] => []
  | a :: _, [] => [(a, 0)]
  | [], b :: _ => [(b, 1)]
  | a :: _, b :: _ =>
      if decide (sd_timestamp a < sd_timestamp b)%Z
      then [(a, 0); (b, 1)] else [(b, 1); (a, 0)]
  end.

Definition twoState (merged : list (string * Stroke)) (la lb : list StrokeData)
    : MergeState :=
  mkMergeState merged (twoHeap la lb) [tail la; tail lb].


(** ** Vocabulary of the merge loop *)

(** The key the heap is ordered by. *)
Definition entry_ts (e : HeapEntry) : Z := sd_timestamp e.1.

(** The state the next pass starts from, given the item popped. *)
Definition mergeNext (st : MergeState) (stroke : StrokeData) (index : nat)
    (heap1 : list HeapEntry) (iterator : list StrokeData) : MergeState :=
  mkMergeState (mergeItem (mergedStrokes st) stroke)
    (match iterator with
     | value :: _ => Heap.push cmp heap1 (value, index)
     | [] => heap1
     end)
    (<[index := tail iterator]> (iterators st)).

(** The number of items still to be processed. *)
Definition pendingCount (st : MergeState) : nat :=
  length (heap st) + sum_list (length <$> iterators st).

(** The heap is a heap for the timestamps, it names only existing
    snapshots, and every snapshot with items left has its head in it. *)
Definition heads_ok (st : MergeState) : Prop :=
  Heap.is_heap entry_ts (heap st)
  ∧ (∀ i, i ∈ (heap st).*2 → i < length (iterators st))
  ∧ (∀ i l, iterators st !! i = Some l → l ≠ [] → i ∈ (heap st).*2).

(** The items that are still to be popped. *)
Definition pending (st : MergeState) (y : StrokeData) : Prop :=
  y ∈ (heap st).*1 ∨ ∃ i l, iterators st !! i = Some l ∧ y ∈ l.

(** The items of the snapshots given to [mergeStates]. *)
Definition inputItem (states : list DrawState) (y : StrokeData) : Prop :=
  ∃ ds, ds ∈ states ∧ y ∈ OrderedMap.values (getStrokeMap ds).

(** The entries of the output sit under their own UID, and that UID is
    the UID of a stroke among the items seen so far. *)
Definition output_from (seen : StrokeData → Prop)
    (merged : list (string * Stroke)) : Prop :=
  ∀ k s, (k, s) ∈ merged → uid s = k ∧ ∃ s0, seen (STROKE s0) ∧ uid s0 = k.

(** Every snapshot's remaining items are in timestamp order and not
    before its head in the heap. *)
Definition cursors_ascending (st : MergeState) : Prop :=
  (∀ i l, iterators st !! i = Some l → ascending l = true)
  ∧ (∀ h i l y, (h, i) ∈ heap st → iterators st !! i = Some l → y ∈ l →
                (sd_timestamp h ≤ sd_timestamp y)%Z).


(** ** Vocabulary of the supersede invariant *)

(** [s'] holds no supersede record that [s] did not hold. *)
Definition no_new_supersede (s s' : list (string * StrokeData)) : Prop :=
  ∀ k v, (k, v) ∈ s' → is_MUTATE v = true → (k, v) ∈ s.

(** An entry of the prefix [P] read so far is kept unless it is a MUTATE
    record that a later record of [P] has replaced. *)
Definition kept (P : list (string * StrokeData)) (e : string * StrokeData) : Prop :=
  match e.2 with
  | MUTATE _ o _ _ => e.1 ∈ OrderedMap.keys P → lastSupersede P o = Some e.1
  | _ => True
  end.

Global Instance kept_dec P e : Decision (kept P e).
Proof. unfold kept. destruct (e.2); apply _. Defined.

(** ** Sample inputs *)

(** A world whose [n]-th UUID is ["uuid-n"] and whose clock reads [n] at
    the [n]-th call. *)
Definition sample_world : World :=
  mkWorld (λ n, "uuid-" +:+ pretty n) 0 (λ n, Z.of_nat n) 0.

(** Stand-ins for [v5] and [validate]. *)
Definition sample_v5 (name namespace : string) : string :=
  namespace +:+ "/" +:+ name.
Definition sample_validate (uid : string) : bool := true.

(** An empty page with two strokes added and the second one undone. *)
Definition sample_undone : DrawState :=
  undo (pushStroke (pushStroke (createEmpty 1 1) (mkStroke "a" "p1" 1))
          (mkStroke "b" "p2" 2)).

(** A page with one stroke, and the same after erasing that stroke and a
    UID that is not on the page. *)
Definition sample_page : DrawState :=
  pushStroke (createEmpty 1 1) (mkStroke "a" "p1" 1).
Definition sample_erased : DrawState :=
  (eraseStrokes sample_page ["a"; "z"] sample_world).1.

(** A flat state with two supersede records for the origin ["o"], the
    first of them under the empty-string UID. *)
Definition sample_flat_empty_uid : FlatState :=
  mkFlatState [("", MUTATE "" "o" "p" 1); ("b", MUTATE "b" "o" "q" 2)] None.

(** A flat state with three supersede records, two of them for ["o"]. *)
Definition sample_flat : FlatState :=
  mkFlatState
    [("s", STROKE (mkStroke "s" "p" 1)); ("m1", MUTATE "m1" "o" "p" 2);
     ("m2", MUTATE "m2" "x" "r" 3); ("m3", MUTATE "m3" "o" "q" 4)] None.

(** The snapshot loaded from [sample_flat], and the same after one more
    mutation. *)
Definition sample_loaded : DrawState :=
  (loadFromFlat sample_v5 sample_validate sample_flat 1 1 sample_world).1.
Definition sample_mutated : DrawState :=
  (mutateStrokes sample_loaded [("x", "r2")] None sample_world).1.

(** Items with different UIDs have different timestamps. *)
Definition distinct_timestamps_across_uids (items : list StrokeData) : Prop :=
  Forall (λ a, Forall (λ b, sd_uid a ≠ sd_uid b → sd_timestamp a ≠ sd_timestamp b)
                 items) items.

(** A stroke at time 5 in one snapshot, a tombstone for it at time 3 in
    another, and one at time 10 in a third. *)
Definition sample_stroke : DrawState := snapshot [STROKE (mkStroke "u" "p" 5)].
Definition sample_hide_early : DrawState := snapshot [HIDE "h" "u" 3].
Definition sample_hide_late : DrawState :=
  snapshot [STROKE (mkStroke "v" "q" 2); HIDE "h" "u" 10].

(** A snapshot that stores a stroke of time 5 after a stroke of time 100,
    and a tombstone of time 10 for the former in another snapshot. *)
Definition sample_unsorted : DrawState :=
  snapshot [STROKE (mkStroke "x" "q" 100); STROKE (mkStroke "u" "p" 5)].
Definition sample_hide_between : DrawState := snapshot [HIDE "h" "u" 10].

(** Three items with the same timestamp: a stroke and a tombstone in
    snapshot 0, the stroke the tombstone targets in snapshot 1. *)
Definition sample_tie_0 : DrawState :=
  snapshot [STROKE (mkStroke "a" "p" 1); HIDE "h" "b" 1].
Definition sample_tie_1 : DrawState := snapshot [STROKE (mkStroke "b" "q" 1)].

(** The same stroke in two snapshots, one of which also stores a tombstone
    for it with an earlier timestamp. *)
Definition sample_shared_0 : DrawState :=
  snapshot [STROKE (mkStroke "u" "p" 5); HIDE "h" "u" 1].
Definition sample_shared_1 : DrawState := snapshot [STROKE (mkStroke "u" "p" 5)].

(** Two snapshots without a timestamp in common. *)
Definition sample_left : DrawState :=
  snapshot [STROKE (mkStroke "a" "p" 1); STROKE (mkStroke "c" "r" 4)].
Definition sample_right : DrawState :=
  snapshot [STROKE (mkStroke "b" "q" 2); HIDE "h" "a" 3].

(** A stroke, a supersede record for an origin that is nowhere, and one
    for the stroke. *)
Definition sample_supersedes : DrawState :=
  snapshot [STROKE (mkStroke "s" "p" 1); MUTATE "m1" "ghost" "x" 2;
            MUTATE "m2" "s" "q" 3].


(* ================================================================== *)
(** * Part II, continued: the rest of the class and its vocabulary     *)
(* ================================================================== *)

(** [getLastStroke()]: [OrderedMap.last()], the value inserted last, [None]
    for [undefined]. *)
Definition getLastStroke (ds : DrawState) : option StrokeData :=
  last (OrderedMap.values (getStrokeMap ds)).

(** [isEmpty()]: [this.getStrokeMap().size === 0]. *)
Definition isEmpty (ds : DrawState) : bool :=
  bool_decide (length (getStrokeMap ds) = 0).

(** ** Vocabulary of the history *)

(** Undoing [ds'] brings back the item map, the supersede index and the
    history of [ds], and keeps the record of [ds'] on top of the undo
    stack. *)
Definition undo_gives_back (ds ds' : DrawState) : Prop :=
  getStrokeMap (undo ds') = getStrokeMap ds
  ∧ getMutationPairs (undo ds') = getMutationPairs ds
  ∧ getHistoryStack (undo ds') = getHistoryStack ds
  ∧ head (getUndoStack (undo ds')) = Some (getImmutable ds').

(** The history of a record is a chain: the history of its [i]-th entry is
    the first [i] entries; the same holds of every record on the two
    stacks. *)
Inductive history_ok : DrawStateRecord → Prop :=
| history_ok_intro r :
    Forall history_ok (undoStack r) →
    Forall history_ok (historyStack r) →
    (∀ i r', historyStack r !! i = Some r' →
             historyStack r' = take i (historyStack r)) →
    history_ok r.

(** The operation a snapshot was produced by replays on [ds] in world [w]
    to the same snapshot and the same UUID counter. *)
Definition replays (v5 : string → string → string) (validate : string → bool)
    (ds : DrawState) (w : World) (res : DrawState * World) : Prop :=
  ∃ op, lastOp res.1 = Some op
        ∧ (pushOperation v5 validate ds op w).1 = res.1
        ∧ uuid_calls (pushOperation v5 validate ds op w).2 = uuid_calls res.2.

(** ** Vocabulary of the edits *)

(** The world after [n] more calls of [v4()] and [m] more calls of
    [Date.now()]. *)
Definition advance (w : World) (n m : nat) : World :=
  mkWorld (uuids w) (n + uuid_calls w) (clock w) (m + clock_calls w).

(** The next [n] results of [v4()] are pairwise distinct and are not keys
    of the item map of [ds]: what a UUID generator is for. *)
Definition fresh_uids (ds : DrawState) (w : World) (n : nat) : Prop :=
  NoDup (v4_results w n)
  ∧ ∀ k, k ∈ v4_results w n → k ∉ OrderedMap.keys (getStrokeMap ds).

(** The strokes [addStrokeList] builds: one per payload, under the next
    UUIDs, all with the clock reading [ts]. *)
Definition newStrokes (w : World) (ts : Z) (pathDataList : list string)
    : list Stroke :=
  zip_with (λ uid pathData, mkStroke uid pathData ts)
    (v4_results w (length pathDataList)) pathDataList.

(** The tombstones [eraseStrokes] builds for [hidden]: the [i]-th one under
    the [i]-th next UUID, with the [i]-th next clock reading. *)
Definition tombstones (w : World) (hidden : list string)
    : list (string * StrokeData) :=
  imap (λ i hideID,
          let uid := uuids w (uuid_calls w + i) in
          (uid, HIDE uid hideID (clock w (clock_calls w + i)))) hidden.

(** The supersede records [mutateStrokes] builds: the [i]-th one under the
    [i]-th next UUID, all with the timestamp [ts]. *)
Definition supersedes (w : World) (ts : Z) (mutations : list Mutation)
    : list (string * StrokeData) :=
  imap (λ i mutation,
          let uid := uuids w (uuid_calls w + i) in
          (uid, MUTATE uid mutation.1 mutation.2 ts)) mutations.

(** The keys [mutateStrokes] deletes: for every mutation the previous
    supersede record of its origin, or [""] when there is none. *)
Definition replaced (mutationPairs : gmap string string)
    (mutations : list Mutation) : list string :=
  map (λ mutation, default "" (mutationPairs !! mutation.1)) mutations.

(** The next [n] results of [v4()] are fresh for [mutateStrokes]: pairwise
    distinct, not empty, not keys of the item map and not named by the
    supersede index. *)
Definition fresh_for_mutate (ds : DrawState) (w : World) (n : nat) : Prop :=
  fresh_uids ds w n
  ∧ ∀ k, k ∈ v4_results w n →
         k ≠ "" ∧ (∀ o, getMutationPairs ds !! o ≠ Some k).

(** ** Vocabulary of the split *)

(** [Map(splitters)]: the last list given for a UID is the one kept. *)
Definition splitMapOf (splitters : list Splitter) : gmap string (list string) :=
  foldl (λ m s, <[s.1 := s.2]> m) ∅ splitters.

Section SplitVocabulary.
Variable v5 : string → string → string.
Variable validate : string → bool.

(** The namespace the pieces of [prevUid] are named in: the UID itself,
    or, for a legacy UID that is not a UUID, its v5 UUID under [NIL]. *)
Definition splitNamespace (prevUid : string) : string :=
  if validate prevUid then prevUid else v5 prevUid NIL.

(** The pieces of one origin: piece [i] is a stroke under
    [v5(String(index + i), namespace)] with the timestamp of the origin. *)
Definition pieces (stroke : StrokeData) (namespace : string) (index : nat)
    (splitStrokes : list string) : list (string * StrokeData) :=
  imap (λ i pathData,
          let uid := v5 (pretty (index + i)) namespace in
          (uid, STROKE (mkStroke uid pathData (sd_timestamp stroke))))
    splitStrokes.

(** What one entry of the item map turns into: its pieces when a splitter
    names it, itself otherwise. *)
Definition splitOutput (splitMap : gmap string (list string))
    (entry : string * StrokeData) : list (string * StrokeData) :=
  match splitMap !! entry.1 with
  | Some splitStrokes => splitEntries v5 validate entry.2 entry.1 0 splitStrokes
  | None => [entry]
  end.
End SplitVocabulary.

(** ** Vocabulary of the merge as a whole *)

(** The items tagged with snapshot index [i] in [tagged], in their order. *)
Definition itemsOf (i : nat) (tagged : list HeapEntry) : list StrokeData :=
  (filter (λ e, e.2 = i) tagged).*1.

(** [tagged] is an interleaving of the snapshots: it holds the items of
    every snapshot, tagged with the index of the snapshot and in the order
    the snapshot stores them, and nothing else. *)
Definition interleaving (states : list DrawState) (tagged : list HeapEntry) : Prop :=
  (∀ e, e ∈ tagged → e.2 < length states)
  ∧ ∀ i ds, states !! i = Some ds →
            itemsOf i tagged = OrderedMap.values (getStrokeMap ds).

(** No item comes before an item with a smaller timestamp. *)
Definition in_timestamp_order (items : list StrokeData) : Prop :=
  ∀ i j x y, items !! i = Some x → items !! j = Some y → i < j →
             (sd_timestamp x ≤ sd_timestamp y)%Z.

(** Every snapshot stores its items in non-decreasing timestamp order. *)
Definition all_ascending (states : list DrawState) : Prop :=
  ∀ ds, ds ∈ states → ascending (OrderedMap.values (getStrokeMap ds)) = true.

(** The state of the loop of [mergeStates] once the tagged items [popped]
    have been popped, in that order: the output is their fold, no snapshot
    has two heads in the heap, and every snapshot is split into its items
    popped, its head in the heap and the items its iterator still holds. *)
Definition merged_so_far (states : list DrawState) (popped : list HeapEntry)
    (st : MergeState) : Prop :=
  mergedStrokes st = foldl mergeItem [] popped.*1
  ∧ length (iterators st) = length states
  ∧ NoDup (heap st).*2
  ∧ (∀ e, e ∈ popped → e.2 < length states)
  ∧ ∀ i ds, states !! i = Some ds →
      ∃ it, iterators st !! i = Some it
        ∧ ((∃ h, (h, i) ∈ heap st
               ∧ OrderedMap.values (getStrokeMap ds) = itemsOf i popped ++ h :: it)
           ∨ ((i ∉ (heap st).*2) ∧ it = []
              ∧ OrderedMap.values (getStrokeMap ds) = itemsOf i popped)).

(** The items popped so far are in timestamp order and not after any item
    still to be popped. *)
Definition popped_in_order (popped : list HeapEntry) (st : MergeState) : Prop :=
  cursors_ascending st
  ∧ in_timestamp_order popped.*1
  ∧ ∀ d y, d ∈ popped.*1 → pending st y → (sd_timestamp d ≤ sd_timestamp y)%Z.

(** Every item of [A] has a smaller timestamp than every item of [B]. *)
Definition earlier_than (A B : DrawState) : Prop :=
  ∀ a b, a ∈ OrderedMap.values (getStrokeMap A) →
         b ∈ OrderedMap.values (getStrokeMap B) →
         (sd_timestamp a < sd_timestamp b)%Z.

(** What a supersede record for [mutation] does to the merged output. *)
Definition applyMutation (merged : list (string * Stroke)) (mutation : Mutation)
    : list (string * Stroke) :=
  OrderedMap.update mutation.1
    (λ s, mkStroke (uid s) mutation.2 (timestamp s)) merged.

(** ** More sample inputs *)

(** A page with two strokes, added one after the other. *)
Definition sample_two : DrawState :=
  pushStroke sample_page (mkStroke "b" "p2" 2).

(** A [validate] that rejects the one UID ["legacy"]. *)
Definition legacy_validate (uid : string) : bool :=
  bool_decide (uid ≠ "legacy").

(** A world like [sample_world] whose clock starts at 100. *)
Definition sample_world_late : World :=
  mkWorld (λ n, "uuid-" +:+ pretty n) 0 (λ n, (100 + Z.of_nat n)%Z) 0.
(* ================================================================== *)
(** * Part III: proofs                                                 *)
(* ================================================================== *)

(** Case analysis on every [decide] in sight. *)
Ltac decide_cases := repeat (case_decide; simplify_eq/=).


(** ** History: undo, redo and the stacks *)

Section History.
Variable v5 : string → string → string.
Variable validate : string → bool.

Lemma forEachM_cons {A S} (body : S → A → M S) x xs (acc : S) w :
  forEachM body (x :: xs) acc w =
  let '(acc', w') := body acc x w in forEachM body xs acc' w'.
Proof. reflexivity. Qed.

Lemma forEachM_app {A S} (body : S → A → M S) xs ys (acc : S) w :
  forEachM body (xs ++ ys) acc w =
  let '(acc', w') := forEachM body xs acc w in forEachM body ys acc' w'.
Proof.
  revert acc w. induction xs as [|x xs IH]; intros acc w; simpl.
  - reflexivity.
  - unfold bind. destruct (body acc x w) as [acc' w']. apply IH.
Qed.

(** The shape of what [eraseStrokes] returns on a non-empty list. *)
Lemma eraseStrokes_unfold ds erased w :
  erased ≠ [] →
  ∃ strokes' w',
    forEachM hideOne (hiddenOf ds erased)
      (OrderedMap.deleteAll erased (getStrokeMap ds)) w = (strokes', w')
    ∧ eraseStrokes ds erased w =
      (mkDrawState
         (mkRecord strokes' (getMutationPairs ds) []
            (getHistoryStack ds ++ [getImmutable ds]))
         (width ds) (height ds) (Some (op_erase erased)), w').
Proof.
  intros Hne. unfold eraseStrokes.
  destruct (decide (length erased = 0)) as [Hl|_].
  { destruct erased; [done | discriminate]. }
  unfold bind, hiddenOf.
  destruct (forEachM _ _ _ w) as [strokes' w'] eqn:E.
  exists strokes', w'. split; [done|]. reflexivity.
Qed.

(** The shape of what [mutateStrokes] returns on a non-empty list. *)
Lemma mutateStrokes_unfold ds mutations timestamp w :
  mutations ≠ [] →
  ∃ ts w0 strokes' pairs' w',
    (match timestamp with Some t => ret t | None => Date_now end) w = (ts, w0)
    ∧ forEachM (mutateOne ts) mutations
        (getStrokeMap ds, getMutationPairs ds) w0 = ((strokes', pairs'), w')
    ∧ mutateStrokes ds mutations timestamp w =
      (mkDrawState
         (mkRecord strokes' pairs' [] (getHistoryStack ds ++ [getImmutable ds]))
         (width ds) (height ds) (Some (op_mutate mutations ts)), w').
Proof.
  intros Hne. unfold mutateStrokes, bind.
  destruct (match timestamp with Some t => ret t | None => Date_now end w)
    as [ts w0] eqn:Et.
  destruct (decide (length mutations = 0)) as [Hl|_].
  { destruct mutations; [done | discriminate]. }
  destruct (forEachM _ _ _ w0) as [[strokes' pairs'] w'] eqn:E.
  exists ts, w0, strokes', pairs', w'. repeat split; done.
Qed.

Lemma eraseStrokes_nil ds w : eraseStrokes ds [] w = (ds, w).
Proof. reflexivity. Qed.

Lemma mutateStrokes_nil ds timestamp w : (mutateStrokes ds [] timestamp w).1 = ds.
Proof. unfold mutateStrokes, bind. by destruct timestamp. Qed.

Lemma splitStrokes_nil ds : splitStrokes v5 validate ds [] = ds.
Proof. reflexivity. Qed.

(** C3. Undo followed by redo gives back the record the snapshot had
    before the undo (item map, supersede index and both stacks), whenever
    there is a history entry to undo to; in particular the item map is the
    same, entry for entry and in the same order. *)
Theorem undo_redo_roundtrip (ds : DrawState) :
  getHistoryStack ds ≠ [] →
  getImmutable (redo (undo ds)) = getImmutable ds
  ∧ getStrokeMap (redo (undo ds)) = getStrokeMap ds.
Proof.
  intros Hh. unfold undo.
  destruct (last (getHistoryStack ds)) as [lastRecord|] eqn:El.
  - split; reflexivity.
  - apply last_None in El. contradiction.
Qed.

(** C4 (as amended). [splitStrokes] with a non-empty splitter list pushes
    the previous record onto the history stack and leaves the undo stack
    as it was; [pushStroke] always, and [eraseStrokes] and [mutateStrokes]
    with a non-empty list, return a snapshot with an empty undo stack. *)
Theorem undo_stack_after_content_ops
    (ds : DrawState) (splitters : list Splitter) (erased : list string)
    (mutations : list Mutation) (timestamp : option Z) (stroke : Stroke)
    (w : World) :
  splitters ≠ [] → erased ≠ [] → mutations ≠ [] →
  getUndoStack (splitStrokes v5 validate ds splitters) = getUndoStack ds
  ∧ getHistoryStack (splitStrokes v5 validate ds splitters)
    = getHistoryStack ds ++ [getImmutable ds]
  ∧ getUndoStack (eraseStrokes ds erased w).1 = []
  ∧ getUndoStack (mutateStrokes ds mutations timestamp w).1 = []
  ∧ getUndoStack (pushStroke ds stroke) = [].
Proof.
  intros Hs He Hm.
  destruct (eraseStrokes_unfold ds erased w He) as (s1 & w1 & _ & ->).
  destruct (mutateStrokes_unfold ds mutations timestamp w Hm)
    as (ts & w0 & s2 & p2 & w2 & _ & _ & ->).
  unfold splitStrokes.
  destruct (decide (length splitters = 0)) as [Hl|_].
  { destruct splitters; [done | discriminate]. }
  repeat split.
Qed.

(** C9. Every operation returns a snapshot with the width and height of
    the snapshot it was given. *)
Theorem operations_preserve_dimensions
    (ds : DrawState) (stroke : Stroke) (strokeList : list Stroke)
    (erased : list string) (mutations : list Mutation) (timestamp : option Z)
    (splitters : list Splitter) (op : Operation) (w : World) :
  dimensions (pushStroke ds stroke) = dimensions ds
  ∧ dimensions (pushStrokeList ds strokeList) = dimensions ds
  ∧ dimensions (eraseStrokes ds erased w).1 = dimensions ds
  ∧ dimensions (mutateStrokes ds mutations timestamp w).1 = dimensions ds
  ∧ dimensions (splitStrokes v5 validate ds splitters) = dimensions ds
  ∧ dimensions (undo ds) = dimensions ds
  ∧ dimensions (redo ds) = dimensions ds
  ∧ dimensions (pushOperation v5 validate ds op w).1 = dimensions ds.
Proof.
  assert (Herase : ∀ l, dimensions (eraseStrokes ds l w).1 = dimensions ds).
  { intros [|u l]; [done|].
    by destruct (eraseStrokes_unfold ds (u :: l) w) as (s1 & w1 & _ & ->). }
  assert (Hmutate : ∀ l t, dimensions (mutateStrokes ds l t w).1 = dimensions ds).
  { intros [|m l] t; [by rewrite mutateStrokes_nil|].
    by destruct (mutateStrokes_unfold ds (m :: l) t w)
      as (ts & w0 & s2 & p2 & w2 & _ & _ & ->). }
  assert (Hsplit : ∀ l, dimensions (splitStrokes v5 validate ds l) = dimensions ds).
  { intros l. unfold splitStrokes. by destruct (decide _). }
  assert (Hundo : dimensions (undo ds) = dimensions ds).
  { unfold undo. by destruct (last _). }
  assert (Hredo : dimensions (redo ds) = dimensions ds).
  { unfold redo. by destruct (head _). }
  repeat split; try done.
  destruct op; simpl; try done.
Qed.
End History.

(** ** The ordered map *)

Section OrderedMapFacts.
Context {V : Type}.
Implicit Types (m : list (string * V)) (k : string) (v : V).

Lemma get_set k k' v m :
  OrderedMap.get k (OrderedMap.set k' v m)
  = if decide (k' = k) then Some v else OrderedMap.get k m.
Proof.
  induction m as [|[k0 v0] m IH]; simpl; [done|]. by decide_cases.
Qed.

Lemma get_set_eq k v m : OrderedMap.get k (OrderedMap.set k v m) = Some v.
Proof. rewrite get_set. by decide_cases. Qed.

Lemma get_set_ne k k' v m :
  k' ≠ k → OrderedMap.get k (OrderedMap.set k' v m) = OrderedMap.get k m.
Proof. intros. rewrite get_set. by decide_cases. Qed.

Lemma get_remove k k' m :
  OrderedMap.get k (OrderedMap.remove k' m)
  = if decide (k = k') then None else OrderedMap.get k m.
Proof.
  unfold OrderedMap.remove.
  induction m as [|[k0 v0] m IH]; simpl; [by decide_cases|].
  rewrite filter_cons; simpl. by decide_cases.
Qed.

Lemma get_deleteAll k ks m :
  OrderedMap.get k (OrderedMap.deleteAll ks m)
  = if decide (k ∈ ks) then None else OrderedMap.get k m.
Proof.
  unfold OrderedMap.deleteAll. revert m.
  induction ks as [|k0 ks IH]; intros m; simpl.
  - destruct (decide (k ∈ [])) as [Hin|_]; [|done]. by apply elem_of_nil in Hin.
  - rewrite IH, get_remove.
    destruct (decide (k ∈ ks)) as [Hin|Hnin];
      destruct (decide (k ∈ k0 :: ks)) as [Hin'|Hnin'];
      destruct (decide (k = k0)) as [->|Hne]; try done; exfalso.
    all: try (apply Hnin'; by right).
    all: try (apply Hnin'; by left).
    apply elem_of_cons in Hin' as [?|?]; done.
Qed.

Lemma has_true k m : OrderedMap.has k m = true ↔ is_Some (OrderedMap.get k m).
Proof. unfold OrderedMap.has. apply bool_decide_eq_true. Qed.

Lemma get_Some_elem_of k v m : OrderedMap.get k m = Some v → (k, v) ∈ m.
Proof.
  induction m as [|[k0 v0] m IH]; simpl; [done|].
  destruct (decide (k0 = k)) as [->|Hne].
  - intros [= ->]. by left.
  - intros H. right. by apply IH.
Qed.

Lemma get_None_keys k m : OrderedMap.get k m = None ↔ k ∉ OrderedMap.keys m.
Proof.
  unfold OrderedMap.keys.
  induction m as [|[k0 v0] m IH]; simpl.
  - split; [intros _; apply not_elem_of_nil | done].
  - destruct (decide (k0 = k)) as [->|Hne].
    + split; [done|]. intros H. exfalso. apply H. by left.
    + rewrite IH, not_elem_of_cons. split; [by intros ?; split | by intros [_ ?]].
Qed.

Lemma elem_of_get k v m :
  NoDup (OrderedMap.keys m) → (k, v) ∈ m → OrderedMap.get k m = Some v.
Proof.
  unfold OrderedMap.keys.
  induction m as [|[k0 v0] m IH]; simpl; intros Hnd Hin.
  - by apply elem_of_nil in Hin.
  - apply NoDup_cons in Hnd as [Hk0 Hnd].
    apply elem_of_cons in Hin as [[= -> ->]|Hin].
    + by decide_cases.
    + decide_cases; [|by apply IH].
      exfalso. apply Hk0. apply list_elem_of_fmap. by exists (k, v).
Qed.
End OrderedMapFacts.

(** ** Erasing *)

Section Erase.
Lemma v4_results_S w n :
  v4_results w (S n)
  = uuids w (uuid_calls w)
    :: v4_results (mkWorld (uuids w) (S (uuid_calls w)) (clock w) (S (clock_calls w))) n.
Proof.
  unfold v4_results. simpl. f_equal; [f_equal; lia|].
  rewrite <- fmap_S_seq, <- list_fmap_compose.
  apply list_fmap_ext. intros _ i _. simpl. f_equal. lia.
Qed.

(** What the tombstone loop leaves in the map: one tombstone per hidden
    UID, under the UID that [v4()] returned for it, and nothing else
    touched. *)
Lemma hide_loop hidden : ∀ strokes w strokes' w',
  forEachM hideOne hidden strokes w = (strokes', w') →
  NoDup (v4_results w (length hidden)) →
  (∀ k, k ∉ v4_results w (length hidden) →
        OrderedMap.get k strokes' = OrderedMap.get k strokes)
  ∧ (∀ i u, hidden !! i = Some u →
        OrderedMap.get (uuids w (uuid_calls w + i)) strokes'
        = Some (HIDE (uuids w (uuid_calls w + i)) u (clock w (clock_calls w + i)))).
Proof.
  induction hidden as [|h hidden IH]; intros strokes w strokes' w' Hrun Hnd.
  - injection Hrun as <- <-. split; [done|]. intros i u Hi. done.
  - simpl in Hrun. unfold hideOne at 1, bind at 1, v4, Date_now, bind in Hrun.
    simpl in Hrun.
    change (length (h :: hidden)) with (S (length hidden)) in *.
    rewrite v4_results_S in Hnd |- *.
    apply NoDup_cons in Hnd as [Hfirst Hnd].
    set (w1 := mkWorld _ _ _ _) in *.
    destruct (IH _ _ _ _ Hrun Hnd) as [Hframe Hnew].
    split.
    + intros k Hk. apply not_elem_of_cons in Hk as [Hk1 Hk2].
      rewrite (Hframe k Hk2). by apply get_set_ne.
    + intros [|i] u Hi; simpl in Hi.
      * injection Hi as ->. rewrite !Nat.add_0_r.
        rewrite (Hframe _ Hfirst). apply get_set_eq.
      * specialize (Hnew i u Hi). simpl in Hnew.
        replace (uuid_calls w + S i) with (S (uuid_calls w + i)) by lia.
        replace (clock_calls w + S i) with (S (clock_calls w + i)) by lia.
        exact Hnew.
Qed.

(** C5. [eraseStrokes] returns its input on an empty list. Otherwise,
    when the UIDs that [v4()] hands out during the call are fresh
    (pairwise distinct and not in the item map): every listed UID that
    was in the item map is gone; for every listed UID that was not, the
    map holds a tombstone for it under one of the fresh UIDs; the other
    entries are as before; the previous record is the last entry of the
    history stack and the undo stack is empty. *)
Theorem eraseStrokes_spec (ds : DrawState) (erased : list string) (w : World) :
  let fresh := v4_results w (length (hiddenOf ds erased)) in
  let ds' := (eraseStrokes ds erased w).1 in
  NoDup fresh →
  (∀ k, k ∈ fresh → OrderedMap.get k (getStrokeMap ds) = None) →
  (erased = [] → eraseStrokes ds erased w = (ds, w))
  ∧ (erased ≠ [] →
      (∀ u, u ∈ erased → is_Some (OrderedMap.get u (getStrokeMap ds)) →
            OrderedMap.get u (getStrokeMap ds') = None)
      ∧ (∀ u, u ∈ erased → OrderedMap.get u (getStrokeMap ds) = None →
            ∃ k t, k ∈ fresh
              ∧ OrderedMap.get k (getStrokeMap ds') = Some (HIDE k u t))
      ∧ (∀ k, k ∉ erased → k ∉ fresh →
            OrderedMap.get k (getStrokeMap ds') = OrderedMap.get k (getStrokeMap ds))
      ∧ getHistoryStack ds' = getHistoryStack ds ++ [getImmutable ds]
      ∧ getUndoStack ds' = []).
Proof.
  intros fresh ds' Hnd Hfresh. split.
  { intros ->. reflexivity. }
  intros Hne. subst ds'.
  destruct (eraseStrokes_unfold ds erased w Hne) as (strokes' & w' & Hrun & ->).
  destruct (hide_loop _ _ _ _ _ Hrun Hnd) as [Hframe Hnew].
  unfold fresh in *. clear fresh.
  unfold hiddenOf, getStrokeMap, getHistoryStack, getUndoStack, getImmutable in *.
  simpl. repeat split.
  - intros u Hu [v Hv].
    assert (u ∉ v4_results w (length (filter
              (λ uid, ¬ OrderedMap.has uid (strokes (immutable ds))) erased))) as Hnf.
    { intros Hin. rewrite (Hfresh u Hin) in Hv. discriminate. }
    rewrite (Hframe u Hnf), get_deleteAll. by decide_cases.
  - intros u Hu Hget.
    assert (u ∈ filter (λ uid, ¬ OrderedMap.has uid (strokes (immutable ds))) erased)
      as Hh.
    { apply list_elem_of_filter. split; [|done].
      intros Hhas. apply Is_true_true, has_true in Hhas.
      rewrite Hget in Hhas. by destruct Hhas. }
    apply list_elem_of_lookup in Hh as [i Hi].
    exists (uuids w (uuid_calls w + i)), (clock w (clock_calls w + i)).
    split; [|by apply Hnew].
    unfold v4_results. apply list_elem_of_fmap. exists i. split; [done|].
    apply elem_of_seq. apply lookup_lt_Some in Hi. lia.
  - intros k Hk Hnf.
    rewrite (Hframe k Hnf), get_deleteAll. by decide_cases.
Qed.
End Erase.

(** ** Keys and membership of the ordered map *)

Section OrderedMapKeys.
Context {V : Type}.
Implicit Types (m es : list (string * V)) (k : string) (v : V).

Lemma elem_of_keys k v m : (k, v) ∈ m → k ∈ OrderedMap.keys m.
Proof. intros H. apply list_elem_of_fmap. by exists (k, v). Qed.

Lemma keys_set k v m :
  OrderedMap.keys (OrderedMap.set k v m)
  = if decide (k ∈ OrderedMap.keys m)
    then OrderedMap.keys m else OrderedMap.keys m ++ [k].
Proof.
  unfold OrderedMap.keys.
  induction m as [|[k0 v0] m IH]; csimpl.
  - destruct (decide (k ∈ [])) as [Hin|_]; [|done]. by apply elem_of_nil in Hin.
  - destruct (decide (k0 = k)) as [->|Hne]; csimpl.
    + destruct (decide (k ∈ k :: m.*1)) as [_|Hnin]; [done|].
      exfalso. apply Hnin. by left.
    + rewrite IH.
      destruct (decide (k ∈ m.*1)) as [Hin|Hnin];
        destruct (decide (k ∈ k0 :: m.*1)) as [Hin'|Hnin']; try done; exfalso.
      * apply Hnin'. by right.
      * apply elem_of_cons in Hin' as [?|?]; done.
Qed.

Lemma NoDup_set k v m :
  NoDup (OrderedMap.keys m) → NoDup (OrderedMap.keys (OrderedMap.set k v m)).
Proof.
  intros Hnd. rewrite keys_set.
  destruct (decide (k ∈ OrderedMap.keys m)) as [|Hnin]; [done|].
  apply NoDup_app. repeat split; [done| |apply NoDup_singleton].
  intros x Hx Hx'. apply list_elem_of_singleton in Hx'. by subst.
Qed.

Lemma NoDup_remove k m :
  NoDup (OrderedMap.keys m) → NoDup (OrderedMap.keys (OrderedMap.remove k m)).
Proof.
  unfold OrderedMap.keys, OrderedMap.remove. intros Hnd.
  eapply sublist_NoDup; [exact Hnd|].
  apply fmap_sublist, sublist_filter.
Qed.

Lemma NoDup_deleteAll ks m :
  NoDup (OrderedMap.keys m) → NoDup (OrderedMap.keys (OrderedMap.deleteAll ks m)).
Proof.
  unfold OrderedMap.deleteAll. revert m.
  induction ks as [|k ks IH]; intros m Hnd; simpl; [done|].
  by apply IH, NoDup_remove.
Qed.

Lemma NoDup_merge es m :
  NoDup (OrderedMap.keys m) → NoDup (OrderedMap.keys (OrderedMap.merge es m)).
Proof.
  unfold OrderedMap.merge. revert m.
  induction es as [|e es IH]; intros m Hnd; simpl; [done|].
  by apply IH, NoDup_set.
Qed.

Lemma elem_of_set_inv k v k' v' m :
  (k, v) ∈ OrderedMap.set k' v' m → (k, v) = (k', v') ∨ (k, v) ∈ m.
Proof.
  induction m as [|[k0 v0] m IH]; simpl.
  - intros H. apply list_elem_of_singleton in H. by left.
  - destruct (decide (k0 = k')) as [->|Hne]; intros H;
      apply elem_of_cons in H as [H|H].
    + by left.
    + right. by right.
    + right. rewrite H. by left.
    + destruct (IH H) as [?|?]; [by left|]. right. by right.
Qed.

Lemma elem_of_remove k v k' m :
  (k, v) ∈ OrderedMap.remove k' m ↔ (k, v) ∈ m ∧ k ≠ k'.
Proof.
  unfold OrderedMap.remove. rewrite list_elem_of_filter. simpl. tauto.
Qed.

Lemma elem_of_deleteAll_inv k v ks m :
  (k, v) ∈ OrderedMap.deleteAll ks m → (k, v) ∈ m.
Proof.
  unfold OrderedMap.deleteAll. revert m.
  induction ks as [|k0 ks IH]; intros m; simpl; [done|].
  intros H. apply IH in H. by apply elem_of_remove in H as [? _].
Qed.

Lemma elem_of_merge_inv k v es m :
  (k, v) ∈ OrderedMap.merge es m → (k, v) ∈ es ∨ (k, v) ∈ m.
Proof.
  unfold OrderedMap.merge. revert m.
  induction es as [|[k0 v0] es IH]; intros m; simpl; [by right|].
  intros H. destruct (IH _ H) as [Hin|Hin].
  - left. by right.
  - apply elem_of_set_inv in Hin as [->|Hin]; [left; by left | by right].
Qed.

(** On distinct keys, building a map from entries changes nothing. *)
Lemma merge_fresh es m :
  NoDup (OrderedMap.keys (m ++ es)) → OrderedMap.merge es m = m ++ es.
Proof.
  unfold OrderedMap.merge. revert m.
  induction es as [|[k v] es IH]; intros m Hnd; simpl.
  - by rewrite app_nil_r.
  - assert (OrderedMap.set k v m = m ++ [(k, v)]) as ->.
    { unfold OrderedMap.keys in Hnd. rewrite fmap_app in Hnd.
      apply NoDup_app in Hnd as (_ & Hdisj & _).
      assert (k ∉ m.*1) as Hk.
      { intros Hin. apply (Hdisj _ Hin). csimpl. by left. }
      clear -Hk. induction m as [|[k0 v0] m IH]; csimpl; [done|].
      apply not_elem_of_cons in Hk as [Hne Hk].
      destruct (decide (k0 = k)) as [->|_]; [done|]. by rewrite IH. }
    rewrite IH; [by rewrite <- app_assoc|].
    by rewrite <- app_assoc.
Qed.

Lemma of_entries_NoDup es :
  NoDup (OrderedMap.keys es) → OrderedMap.of_entries es = es.
Proof. intros H. exact (merge_fresh es [] H). Qed.
End OrderedMapKeys.

(** ** The supersede invariant is kept by every operation *)

Section Supersede.
Variable v5 : string → string → string.
Variable validate : string → bool.

Implicit Types (s : list (string * StrokeData)) (mp : gmap string string).

Lemma all_Forall (l : list DrawStateRecord) :
  (fix all (l : list DrawStateRecord) : Prop :=
     match l with [] => True | r' :: l' => record_ok r' ∧ all l' end) l
  ↔ Forall record_ok l.
Proof.
  induction l as [|r l IH]; [by split|].
  rewrite Forall_cons, <- IH. done.
Qed.

Lemma record_ok_unfold r :
  record_ok r ↔
    NoDup (OrderedMap.keys (strokes r))
    ∧ supersede_ok (strokes r) (mutationPairs r)
    ∧ Forall record_ok (undoStack r)
    ∧ Forall record_ok (historyStack r).
Proof. destruct r as [s mp us hs]. simpl. by rewrite !all_Forall. Qed.

Lemma supersede_ok_shrink s s' mp :
  supersede_ok s mp → no_new_supersede s s' → supersede_ok s' mp.
Proof. intros Hok Hsub k u o p t Hin. apply (Hok k u o p t), Hsub; done. Qed.

Lemma supersede_ok_one s mp :
  supersede_ok s mp → NoDup (OrderedMap.keys s) → one_supersede_per_origin s.
Proof.
  intros Hok Hnd k1 u1 p1 t1 k2 u2 p2 t2 o H1 H2.
  pose proof (Hok _ _ _ _ _ H1) as E1. pose proof (Hok _ _ _ _ _ H2) as E2.
  assert (k1 = k2) as -> by congruence.
  apply (elem_of_get _ _ _ Hnd) in H1, H2. congruence.
Qed.

(** A record made of an acceptable item map, on top of acceptable stacks. *)
Lemma record_ok_step prev s' mp' :
  record_ok prev → NoDup (OrderedMap.keys s') → supersede_ok s' mp' →
  record_ok (mkRecord s' mp' [] (historyStack prev ++ [prev])).
Proof.
  intros Hprev Hnd Hok. apply record_ok_unfold. simpl.
  repeat split; [done|done|constructor|].
  apply Forall_app. split; [|by constructor].
  by apply record_ok_unfold in Hprev as (_ & _ & _ & ?).
Qed.

Lemma pushStroke_ok ds stroke :
  record_ok (getImmutable ds) → record_ok (getImmutable (pushStroke ds stroke)).
Proof.
  intros Hprev. pose proof Hprev as (Hnd & Hok & _)%record_ok_unfold.
  apply (record_ok_step _ _ _ Hprev).
  - by apply NoDup_set.
  - eapply supersede_ok_shrink; [exact Hok|].
    intros k v Hin Hm. apply elem_of_set_inv in Hin as [[= -> ->]|Hin]; done.
Qed.

Lemma merge_strokes_no_new s (strokeList : list Stroke) :
  no_new_supersede s
    (OrderedMap.merge (map (λ stroke, (uid stroke, STROKE stroke)) strokeList) s).
Proof.
  intros k v Hin Hm. apply elem_of_merge_inv in Hin as [Hin|Hin]; [|done].
  apply list_elem_of_fmap in Hin as (stroke & [= -> ->] & _). done.
Qed.

Lemma pushStrokeList_ok ds strokeList :
  record_ok (getImmutable ds) →
  record_ok (getImmutable (pushStrokeList ds strokeList)).
Proof.
  intros (Hnd & Hok & Hus & Hhs)%record_ok_unfold.
  apply record_ok_unfold. simpl. repeat split; try done.
  - by apply NoDup_merge.
  - eapply supersede_ok_shrink; [exact Hok|]. apply merge_strokes_no_new.
Qed.

Lemma hide_loop_ok hidden : ∀ s w s' w',
  forEachM hideOne hidden s w = (s', w') →
  (NoDup (OrderedMap.keys s) → NoDup (OrderedMap.keys s'))
  ∧ no_new_supersede s s'.
Proof.
  induction hidden as [|h hidden IH]; intros s w s' w' Hrun.
  - injection Hrun as <- <-. split; [done|]. by intros k v.
  - simpl in Hrun. unfold hideOne at 1, bind at 1, v4, Date_now, bind in Hrun.
    simpl in Hrun. destruct (IH _ _ _ _ Hrun) as [Hnd Hsub]. split.
    + intros H. by apply Hnd, NoDup_set.
    + intros k v Hin Hm. pose proof (Hsub k v Hin Hm) as Hin'.
      apply elem_of_set_inv in Hin' as [[= -> ->]|Hin']; done.
Qed.

Lemma eraseStrokes_ok ds erased w :
  record_ok (getImmutable ds) →
  record_ok (getImmutable (eraseStrokes ds erased w).1).
Proof.
  intros Hprev. destruct erased as [|u erased]; [done|].
  destruct (eraseStrokes_unfold ds (u :: erased) w) as (s' & w' & Hrun & ->); [done|].
  pose proof Hprev as (Hnd & Hok & _)%record_ok_unfold.
  destruct (hide_loop_ok _ _ _ _ _ Hrun) as [Hnd' Hsub].
  apply (record_ok_step _ _ _ Hprev).
  - by apply Hnd', NoDup_deleteAll.
  - eapply supersede_ok_shrink; [exact Hok|].
    intros k v Hin Hm. eapply elem_of_deleteAll_inv, Hsub; done.
Qed.

(** One mutation: the new record becomes the indexed one for its origin
    and the record indexed before, the only other one the map could hold
    for that origin, is deleted. *)
Lemma mutateOne_ok ts s mp mutation w s' mp' w' :
  mutateOne ts (s, mp) mutation w = ((s', mp'), w') →
  NoDup (OrderedMap.keys s) → supersede_ok s mp →
  NoDup (OrderedMap.keys s') ∧ supersede_ok s' mp'.
Proof.
  destruct mutation as [o pathData]. unfold mutateOne, bind, v4, ret. simpl.
  intros [= <- <- <-] Hnd Hok. split.
  { by apply NoDup_remove, NoDup_set. }
  intros k u o' p t Hin.
  apply elem_of_remove in Hin as [Hin Hne].
  apply elem_of_set_inv in Hin as [[= -> -> -> -> ->]|Hin].
  - apply lookup_insert_eq.
  - pose proof (Hok _ _ _ _ _ Hin) as Hidx.
    destruct (decide (o = o')) as [->|Hoo].
    + rewrite Hidx in Hne. done.
    + by rewrite lookup_insert_ne.
Qed.

Lemma mutate_loop_ok ts mutations : ∀ s mp w s' mp' w',
  forEachM (mutateOne ts) mutations (s, mp) w = ((s', mp'), w') →
  NoDup (OrderedMap.keys s) → supersede_ok s mp →
  NoDup (OrderedMap.keys s') ∧ supersede_ok s' mp'.
Proof.
  induction mutations as [|m mutations IH]; intros s mp w s' mp' w' Hrun Hnd Hok.
  - by injection Hrun as <- <- <-.
  - rewrite forEachM_cons in Hrun.
    destruct (mutateOne ts (s, mp) m w) as [[s1 mp1] w1] eqn:E1.
    destruct (mutateOne_ok _ _ _ _ _ _ _ _ E1 Hnd Hok) as [Hnd1 Hok1].
    exact (IH _ _ _ _ _ _ Hrun Hnd1 Hok1).
Qed.

Lemma mutateStrokes_ok ds mutations timestamp w :
  record_ok (getImmutable ds) →
  record_ok (getImmutable (mutateStrokes ds mutations timestamp w).1).
Proof.
  intros Hprev. destruct mutations as [|m mutations].
  { by rewrite mutateStrokes_nil. }
  destruct (mutateStrokes_unfold ds (m :: mutations) timestamp w)
    as (ts & w0 & s' & mp' & w' & _ & Hrun & ->); [done|].
  pose proof Hprev as (Hnd & Hok & _)%record_ok_unfold.
  destruct (mutate_loop_ok _ _ _ _ _ _ _ _ Hrun Hnd Hok) as [Hnd' Hok'].
  by apply (record_ok_step _ _ _ Hprev).
Qed.

Lemma splitEntries_STROKE stroke prevUid index splitStrokes k v :
  (k, v) ∈ splitEntries v5 validate stroke prevUid index splitStrokes →
  is_MUTATE v = false.
Proof.
  revert prevUid index.
  induction splitStrokes as [|p rest IH]; intros prevUid index; simpl.
  - intros H. by apply elem_of_nil in H.
  - intros H. apply elem_of_cons in H as [[= -> ->]|H]; [done|]. by eapply IH.
Qed.

Lemma splitStrokes_ok ds splitters :
  record_ok (getImmutable ds) →
  record_ok (getImmutable (splitStrokes v5 validate ds splitters)).
Proof.
  intros Hprev. unfold splitStrokes.
  destruct (decide (length splitters = 0)) as [_|_]; [done|].
  pose proof Hprev as (Hnd & Hok & Hus & Hhs)%record_ok_unfold.
  assert (∀ splitMap prev acc,
    NoDup (OrderedMap.keys acc) →
    NoDup (OrderedMap.keys (foldl (splitOne v5 validate splitMap) acc prev))
    ∧ ∀ k v, (k, v) ∈ foldl (splitOne v5 validate splitMap) acc prev →
             is_MUTATE v = true → (k, v) ∈ acc ∨ (k, v) ∈ prev) as Hloop.
  { intros splitMap.
    induction prev as [|[prevUid stroke] prev IH]; intros acc Hacc; simpl.
    - split; [done|]. intros k v Hin _. by left.
    - assert (NoDup (OrderedMap.keys (splitOne v5 validate splitMap acc (prevUid, stroke)))
              ∧ ∀ k v, (k, v) ∈ splitOne v5 validate splitMap acc (prevUid, stroke) →
                       is_MUTATE v = true →
                       (k, v) ∈ acc ∨ (k, v) = (prevUid, stroke)) as [Hnd1 Hin1].
      { unfold splitOne. destruct (splitMap !! prevUid) as [splitStrokes|].
        - split; [by apply NoDup_merge|].
          intros k v Hin Hm. apply elem_of_merge_inv in Hin as [Hin|Hin]; [|by left].
          apply splitEntries_STROKE in Hin. congruence.
        - split; [by apply NoDup_set|].
          intros k v Hin _. apply elem_of_set_inv in Hin as [?|?]; [by right|by left]. }
      destruct (IH _ Hnd1) as [Hnd2 Hin2]. split; [done|].
      intros k v Hin Hm. destruct (Hin2 k v Hin Hm) as [Hacc'|Hprev'].
      + destruct (Hin1 k v Hacc' Hm) as [?|E]; [by left|]. right. rewrite E. by left.
      + right. by right. }
  apply record_ok_unfold. simpl. split; [|split; [|split]].
  - apply Hloop, NoDup_nil_2.
  - eapply supersede_ok_shrink; [exact Hok|].
    intros k v Hin Hm.
    destruct (proj2 (Hloop _ _ [] (NoDup_nil_2)) k v Hin Hm) as [Hnil|?]; [|done].
    by apply elem_of_nil in Hnil.
  - exact Hus.
  - apply Forall_app. split; [exact Hhs|]. by constructor.
Qed.

Lemma undo_ok ds :
  record_ok (getImmutable ds) → record_ok (getImmutable (undo ds)).
Proof.
  intros Hprev. unfold undo.
  destruct (last (getHistoryStack ds)) as [lastRecord|] eqn:El; [|done].
  pose proof Hprev as (_ & _ & Hus & Hhs)%record_ok_unfold.
  assert (record_ok lastRecord) as (Hnd & Hok & _ & Hhs')%record_ok_unfold.
  { rewrite Forall_forall in Hhs. apply Hhs.
    apply last_Some in El as [l' El]. unfold getHistoryStack in El.
    rewrite El. apply elem_of_app. right. by left. }
  apply record_ok_unfold. simpl. repeat split; [done|done| |done].
  by constructor.
Qed.

Lemma redo_ok ds :
  record_ok (getImmutable ds) → record_ok (getImmutable (redo ds)).
Proof.
  intros Hprev. unfold redo.
  destruct (head (getUndoStack ds)) as [nextRecord|] eqn:Eh; [|done].
  apply record_ok_unfold in Hprev as (_ & _ & Hus & _).
  unfold getUndoStack in Eh. destruct (undoStack (getImmutable ds)); [done|].
  injection Eh as ->. by apply Forall_cons in Hus as [? _].
Qed.

Lemma pushOperation_ok ds op w :
  record_ok (getImmutable ds) →
  record_ok (getImmutable (pushOperation v5 validate ds op w).1).
Proof.
  intros Hprev. destruct op; cbn [pushOperation ret fst].
  - by apply pushStroke_ok.
  - by apply pushStrokeList_ok.
  - by apply eraseStrokes_ok.
  - by apply mutateStrokes_ok.
  - by apply splitStrokes_ok.
  - by apply undo_ok.
  - by apply redo_ok.
  - done.
Qed.

Lemma replay_ok operations : ∀ ds w,
  record_ok (getImmutable ds) →
  record_ok (getImmutable
    (forEachM (pushOperation v5 validate) operations ds w).1).
Proof.
  induction operations as [|op operations IH]; intros ds w Hok; [done|].
  rewrite forEachM_cons.
  destruct (pushOperation v5 validate ds op w) as [ds1 w1] eqn:E.
  apply IH. change ds1 with (ds1, w1).1. rewrite <- E. by apply pushOperation_ok.
Qed.
End Supersede.

(** ** Loading a flat state *)

Section Load.
Variable v5 : string → string → string.
Variable validate : string → bool.

Implicit Types (l P R : list (string * StrokeData)) (mp : gmap string string).

Lemma filter_ext_in {A} (P1 P2 : A → Prop)
    `{!∀ x, Decision (P1 x), !∀ x, Decision (P2 x)} (l : list A) :
  (∀ x, x ∈ l → P1 x ↔ P2 x) → filter P1 l = filter P2 l.
Proof.
  induction l as [|a l IH]; intros Hext; [done|].
  rewrite !filter_cons.
  rewrite IH by (intros x Hx; apply Hext; by right).
  assert (P1 a ↔ P2 a) as Ha by (apply Hext; by left).
  destruct (decide (P1 a)) as [H1|H1], (decide (P2 a)) as [H2|H2]; tauto.
Qed.

Lemma lastSupersede_snoc P k s o :
  lastSupersede (P ++ [(k, s)]) o =
  match s with
  | MUTATE _ o' _ _ => if decide (o' = o) then Some k else lastSupersede P o
  | _ => lastSupersede P o
  end.
Proof.
  induction P as [|[k0 s0] P IH]; simpl.
  - by destruct s.
  - rewrite IH. destruct s as [| |u o' p t]; try done.
    by destruct (decide (o' = o)).
Qed.

Lemma lastSupersede_Some P o k :
  lastSupersede P o = Some k → ∃ u p t, (k, MUTATE u o p t) ∈ P.
Proof.
  induction P as [|[k0 s0] P IH]; simpl; [done|].
  destruct (lastSupersede P o) as [k'|].
  - intros [= ->]. destruct IH as (u & p & t & Hin); [done|].
    exists u, p, t. by right.
  - destruct s0 as [| |u o' p t]; try done.
    destruct (decide (o' = o)) as [->|]; [|done].
    intros [= ->]. exists u, p, t. by left.
Qed.

Lemma NoDup_keys_eq l k v v' :
  NoDup (OrderedMap.keys l) → (k, v) ∈ l → (k, v') ∈ l → v = v'.
Proof.
  intros Hnd H1 H2. apply (elem_of_get _ _ _ Hnd) in H1, H2. congruence.
Qed.

Lemma load_step l P R k s mp :
  NoDup (OrderedMap.keys l) →
  (∀ k s, (k, s) ∈ l → is_MUTATE s = true → k ≠ "") →
  l = P ++ (k, s) :: R →
  (∀ o, mp !! o = lastSupersede P o) →
  ∃ mp', loadOne (filter (kept P) l, mp) (k, s)
         = (filter (kept (P ++ [(k, s)])) l, mp')
         ∧ ∀ o, mp' !! o = lastSupersede (P ++ [(k, s)]) o.
Proof.
  intros Hnd Hwf Hl Hmp.
  assert ((k, s) ∈ l) as Hks.
  { rewrite Hl. apply elem_of_app. right. by left. }
  assert (∀ x v, (x, v) ∈ P → (x, v) ∈ l) as HPl.
  { intros x v Hin. rewrite Hl. apply elem_of_app. by left. }
  assert (k ∉ OrderedMap.keys P) as HkP.
  { unfold OrderedMap.keys in *. rewrite Hl, fmap_app in Hnd.
    apply NoDup_app in Hnd as (_ & Hdisj & _). intros Hin.
    apply (Hdisj _ Hin). csimpl. by left. }
  assert (∀ x, x ∈ OrderedMap.keys (P ++ [(k, s)]) ↔ x ∈ OrderedMap.keys P ∨ x = k)
    as Hkeys.
  { intros x. unfold OrderedMap.keys. rewrite fmap_app, elem_of_app. csimpl.
    by rewrite list_elem_of_singleton. }
  assert (is_MUTATE s = false →
          ∃ mp', loadOne (filter (kept P) l, mp) (k, s)
                 = (filter (kept (P ++ [(k, s)])) l, mp')
                 ∧ ∀ o, mp' !! o = lastSupersede (P ++ [(k, s)]) o) as Hother.
  { intros Hs. exists mp. split.
    - assert (loadOne (filter (kept P) l, mp) (k, s) = (filter (kept P) l, mp)) as ->.
      { by destruct s. }
      f_equal. apply filter_ext_in. intros [x v] Hx. unfold kept. simpl.
      destruct v as [| |u o p t]; try done.
      rewrite lastSupersede_snoc, Hkeys.
      assert (x ≠ k) as Hxk.
      { intros ->. pose proof (NoDup_keys_eq _ _ _ _ Hnd Hx Hks) as <-. done. }
      destruct s; try done; tauto.
    - intros o. rewrite lastSupersede_snoc, Hmp. by destruct s. }
  destruct s as [st|u0 o0 t0|u o p t]; [by apply Hother|by apply Hother|].
  clear Hother. simpl. exists (<[o := k]> mp). split.
  - rewrite Hmp.
    assert (∀ k0, lastSupersede P o = Some k0 → k0 ∈ OrderedMap.keys P ∧ k0 ≠ "")
      as Hprev.
    { intros k0 (u1 & p1 & t1 & Hin)%lastSupersede_Some. split.
      - by eapply elem_of_keys.
      - eapply Hwf; [by apply HPl|done]. }
    assert (filter (kept (P ++ [(k, MUTATE u o p t)])) l
            = match lastSupersede P o with
              | Some prev => OrderedMap.remove prev (filter (kept P) l)
              | None => filter (kept P) l
              end) as ->.
    { assert (∀ x u1 o1 p1 t1, (x, MUTATE u1 o1 p1 t1) ∈ l → x = k → o1 = o) as Hsame.
      { intros x u1 o1 p1 t1 Hx ->.
        pose proof (NoDup_keys_eq _ _ _ _ Hnd Hx Hks). congruence. }
      destruct (lastSupersede P o) as [k0|] eqn:Eprev.
      - destruct (Hprev k0 eq_refl) as [Hk0 _].
        pose proof Eprev as (u0 & p0 & t0 & Hin0%HPl)%lastSupersede_Some.
        unfold OrderedMap.remove. rewrite list_filter_filter.
        apply filter_ext_in. intros [x v] Hx. unfold kept. simpl.
        assert (is_MUTATE v = false → x ≠ k0) as Hnm.
        { intros Hv ->. pose proof (NoDup_keys_eq _ _ _ _ Hnd Hx Hin0).
          subst v. done. }
        destruct v as [| |u1 o1 p1 t1]; [naive_solver|naive_solver|].
        rewrite lastSupersede_snoc, Hkeys.
        assert (x = k0 → o1 = o) as Hk0o.
        { intros ->. pose proof (NoDup_keys_eq _ _ _ _ Hnd Hx Hin0). congruence. }
        pose proof (Hsame _ _ _ _ _ Hx) as Hxk.
        destruct (decide (o = o1)) as [<-|Hoo]; [rewrite Eprev|]; naive_solver.
      - apply filter_ext_in. intros [x v] Hx. unfold kept. simpl.
        destruct v as [| |u1 o1 p1 t1]; [done|done|].
        rewrite lastSupersede_snoc, Hkeys.
        pose proof (Hsame _ _ _ _ _ Hx) as Hxk.
        destruct (decide (o = o1)) as [<-|Hoo]; [rewrite Eprev|]; naive_solver. }
    destruct (lastSupersede P o) as [k0|] eqn:Eprev; [|done].
    destruct (Hprev k0 eq_refl) as [_ Hne].
    by destruct (decide (k0 = "")).
  - intros o'. rewrite lastSupersede_snoc.
    destruct (decide (o = o')) as [->|Hoo].
    + by rewrite lookup_insert_eq.
    + by rewrite lookup_insert_ne.
Qed.

Lemma filter_kept_nil l : filter (kept []) l = l.
Proof.
  induction l as [|[k s] l IH]; [done|].
  rewrite filter_cons_True, IH; [done|].
  unfold kept. simpl. destruct s; try done. intros Hin.
  by apply elem_of_nil in Hin.
Qed.

Lemma load_loop l :
  NoDup (OrderedMap.keys l) →
  (∀ k s, (k, s) ∈ l → is_MUTATE s = true → k ≠ "") →
  ∀ R P mp,
    l = P ++ R →
    (∀ o, mp !! o = lastSupersede P o) →
    ∃ mp', foldl loadOne (filter (kept P) l, mp) R = (filter (kept l) l, mp')
           ∧ ∀ o, mp' !! o = lastSupersede l o.
Proof.
  intros Hnd Hwf. induction R as [|[k s] R IH]; intros P mp Hl Hmp.
  - rewrite app_nil_r in Hl. subst P. by exists mp.
  - destruct (load_step l P R k s mp Hnd Hwf Hl Hmp) as (mp1 & Hstep & Hmp1).
    cbn [foldl]. rewrite Hstep. apply IH; [|done]. by rewrite <- app_assoc.
Qed.

(** What [loadFromFlat] builds before it replays the operations: the
    entries of the flat state without the MUTATE records that a later
    record for the same origin replaces, and the index of the last MUTATE
    record of every origin. *)
Lemma loadFromFlat_base flat ratio width w :
  wf_flat flat → flat_operations flat = None →
  ∃ mp,
    loadFromFlat v5 validate flat ratio width w
    = (mkDrawState
         (mkRecord (filter (survivesLoad (flat_strokes flat)) (flat_strokes flat))
            mp [] [])
         width (width * ratio)%Qc None, w)
    ∧ ∀ o, mp !! o = lastSupersede (flat_strokes flat) o.
Proof.
  intros [Hnd Hwf] Hops. unfold loadFromFlat. rewrite Hops.
  rewrite (of_entries_NoDup _ Hnd).
  destruct (load_loop (flat_strokes flat) Hnd Hwf (flat_strokes flat) [] ∅
              eq_refl (λ o, lookup_empty o))
    as (mp & Hrun & Hmp).
  rewrite filter_kept_nil in Hrun. rewrite Hrun. exists mp. split; [|done].
  unfold ret, set_mutationPairs, set_strokes. simpl. do 3 f_equal.
  apply filter_ext_in.
  intros [k s] Hin. unfold kept, survivesLoad. simpl.
  destruct s as [| |u o p t]; try done.
  split; [|done]. intros H. apply H. by eapply elem_of_keys.
Qed.
End Load.

(** ** The supersede invariant on every reachable snapshot *)

Section SupersedeInvariant.
Variable v5 : string → string → string.
Variable validate : string → bool.

Lemma loadFromFlat_unfold flat ratio width w :
  loadFromFlat v5 validate flat ratio width w =
  let ds0 :=
    (loadFromFlat v5 validate (mkFlatState (flat_strokes flat) None) ratio width w).1 in
  match flat_operations flat with
  | Some operations => forEachM (pushOperation v5 validate) operations ds0 w
  | None => (ds0, w)
  end.
Proof.
  unfold loadFromFlat. simpl.
  destruct (foldl loadOne _ _) as [strokeMap mutationPairs].
  by destruct (flat_operations flat).
Qed.

Lemma loadFromFlat_ok flat ratio width w :
  wf_flat flat →
  record_ok (getImmutable (loadFromFlat v5 validate flat ratio width w).1).
Proof.
  intros Hwf. rewrite loadFromFlat_unfold. cbn zeta.
  destruct (loadFromFlat_base v5 validate
              (mkFlatState (flat_strokes flat) None) ratio width w)
    as (mp & -> & Hmp); [done|done|].
  assert (record_ok (mkRecord
            (filter (survivesLoad (flat_strokes flat)) (flat_strokes flat)) mp [] []))
    as Hbase.
  { apply record_ok_unfold. simpl. destruct Hwf as [Hnd _].
    split; [|split; [|by split]].
    - eapply sublist_NoDup; [exact Hnd|]. apply fmap_sublist, sublist_filter.
    - intros k u o p t [Hs _]%list_elem_of_filter. by rewrite Hmp. }
  destruct (flat_operations flat) as [operations|]; [|done].
  by apply replay_ok.
Qed.

Lemma reachable_ok ds : reachable v5 validate ds → record_ok (getImmutable ds).
Proof.
  induction 1.
  - apply record_ok_unfold. simpl. repeat split; try constructor.
    intros k u o p t Hin. by apply elem_of_nil in Hin.
  - by apply loadFromFlat_ok.
  - by apply pushStroke_ok.
  - unfold addStrokeList, bind, Date_now.
    destruct (mapM _ pathDataList _) as [strokeList w']. by apply pushStrokeList_ok.
  - by apply pushStroke_ok.
  - by apply pushStrokeList_ok.
  - by apply eraseStrokes_ok.
  - by apply mutateStrokes_ok.
  - by apply splitStrokes_ok.
  - by apply undo_ok.
  - by apply redo_ok.
  - by apply pushOperation_ok.
Qed.

(** C6 (as amended). In every snapshot reachable from [createEmpty], or
    from [loadFromFlat] on a flat state that stores no supersede record
    under the empty-string UID, by any sequence of operations, the item
    map holds at most one MUTATE record per origin and the supersede index
    maps the origin of every MUTATE record to the UID of that record; the
    same holds of every record on the undo and history stacks. And
    [loadFromFlat] on such a flat state (without operations to replay)
    keeps exactly the entries that are not a MUTATE record replaced by a
    later one for the same origin, in their order, and indexes the last
    MUTATE record of every origin. *)
Theorem supersede_invariant :
  (∀ ds, reachable v5 validate ds →
     record_ok (getImmutable ds)
     ∧ supersede_ok (getStrokeMap ds) (getMutationPairs ds)
     ∧ one_supersede_per_origin (getStrokeMap ds))
  ∧ (∀ flat ratio width w,
       wf_flat flat → flat_operations flat = None →
       let ds := (loadFromFlat v5 validate flat ratio width w).1 in
       getStrokeMap ds
       = filter (survivesLoad (flat_strokes flat)) (flat_strokes flat)
       ∧ ∀ o, getMutationPairs ds !! o = lastSupersede (flat_strokes flat) o).
Proof.
  split.
  - intros ds Hreach. pose proof (reachable_ok ds Hreach) as Hok.
    split; [done|].
    apply record_ok_unfold in Hok as (Hnd & Hsup & _).
    split; [done|]. by eapply supersede_ok_one.
  - intros flat ratio width w Hwf Hops.
    destruct (loadFromFlat_base v5 validate flat ratio width w Hwf Hops)
      as (mp & -> & Hmp).
    by split.
Qed.
End SupersedeInvariant.

(** ** The binary heap *)

Section HeapFacts.
Context {A : Type} (cmp : A → A → Z) (key : A → Z).
Hypothesis cmp_key : ∀ x y, (cmp x y < 0 ↔ key x < key y)%Z.

Implicit Types (array nodes : list A) (pos : nat).

Local Abbreviation ordered_at := (Heap.ordered_at key).
Local Abbreviation is_heap := (Heap.is_heap key).
Local Abbreviation siftdown_inv := (Heap.siftdown_inv key).
Local Abbreviation siftup_inv := (Heap.siftup_inv key).

(** *** Array cells *)

(** A cell [i > 0] is the left or the right child of cell [(i - 1) / 2]. *)
Lemma parent_cases i :
  0 < i → i = 2 * ((i - 1) / 2) + 1 ∨ i = 2 * ((i - 1) / 2) + 2.
Proof.
  intros Hi. pose proof (Nat.div_mod_eq (i - 1) 2) as E.
  pose proof (Nat.mod_upper_bound (i - 1) 2 ltac:(lia)) as B. lia.
Qed.

Lemma parent_lt i : 0 < i → (i - 1) / 2 < i.
Proof. intros Hi. pose proof (parent_cases i Hi). lia. Qed.

Lemma insert_Permutation array i x y :
  array !! i = Some y → y :: <[i := x]> array ≡ₚ x :: array.
Proof.
  revert i. induction array as [|a array IH]; intros [|i] Hi; simplify_eq/=.
  - apply perm_swap.
  - rewrite perm_swap, (IH i Hi). apply perm_swap.
Qed.

(** Moving the value of cell [i] to cell [j] and writing [x] to cell [i]
    is, up to order, writing [x] to cell [j]. *)
Lemma hole_move_Permutation array i j x p :
  i ≠ j → array !! i = Some p → j < length array →
  <[i := x]> (<[j := p]> array) ≡ₚ <[j := x]> array.
Proof.
  intros Hij Hi Hj.
  destruct (lookup_lt_is_Some_2 array j Hj) as [q Hq].
  assert (<[j := p]> array !! i = Some p) as Hi'.
  { by rewrite list_lookup_insert_ne. }
  pose proof (insert_Permutation _ i x p Hi') as E1.
  pose proof (insert_Permutation array j p q Hq) as E2.
  pose proof (insert_Permutation array j x q Hq) as E3.
  apply (Permutation_cons_inv (a := p)), (Permutation_cons_inv (a := q)).
  transitivity (x :: p :: array).
  - rewrite E1, (perm_swap x q), E2. done.
  - rewrite (perm_swap p q), E3. apply perm_swap.
Qed.

(** *** [_siftdown] *)

Lemma siftdown_loop_length fuel : ∀ array startpos pos newitem,
  length (Heap.siftdown_loop cmp fuel array startpos pos newitem) = length array.
Proof.
  induction fuel as [|fuel IH]; intros array startpos pos newitem;
    cbn [Heap.siftdown_loop].
  - apply length_insert.
  - destruct (decide (startpos < pos)); [|apply length_insert].
    destruct (array !! ((pos - 1) / 2)) as [parent|]; [|apply length_insert].
    destruct (decide (cmp newitem parent < 0)%Z); [|apply length_insert].
    rewrite IH. apply length_insert.
Qed.

Lemma siftdown_loop_Permutation fuel : ∀ array startpos pos newitem,
  pos < length array →
  Heap.siftdown_loop cmp fuel array startpos pos newitem
  ≡ₚ <[pos := newitem]> array.
Proof.
  induction fuel as [|fuel IH]; intros array startpos pos newitem Hpos;
    cbn [Heap.siftdown_loop].
  - done.
  - destruct (decide (startpos < pos)) as [Hlt|]; [|done].
    destruct (array !! ((pos - 1) / 2)) as [parent|] eqn:Eparent; [|done].
    destruct (decide (cmp newitem parent < 0)%Z); [|done].
    pose proof (parent_lt pos ltac:(lia)) as Hparent.
    rewrite IH by (rewrite length_insert; lia).
    apply hole_move_Permutation; [lia|done|done].
Qed.

(** [pos] rounds are all the loop of [_siftdown] can make: more fuel does
    not change the result. *)
Lemma siftdown_loop_fuel fuel : ∀ array startpos pos newitem,
  pos ≤ fuel →
  Heap.siftdown_loop cmp (S fuel) array startpos pos newitem
  = Heap.siftdown_loop cmp fuel array startpos pos newitem.
Proof.
  induction fuel as [|fuel IH]; intros array startpos pos newitem Hfuel.
  - cbn [Heap.siftdown_loop]. destruct (decide (startpos < pos)); [lia|done].
  - change (Heap.siftdown_loop cmp (S (S fuel)) array startpos pos newitem)
      with (if decide (startpos < pos) then
              match array !! ((pos - 1) / 2) with
              | Some parent =>
                  if decide (cmp newitem parent < 0)%Z
                  then Heap.siftdown_loop cmp (S fuel) (<[pos := parent]> array)
                         startpos ((pos - 1) / 2) newitem
                  else <[pos := newitem]> array
              | None => <[pos := newitem]> array
              end
            else <[pos := newitem]> array).
    cbn [Heap.siftdown_loop].
    destruct (decide (startpos < pos)) as [Hlt|]; [|done].
    destruct (array !! ((pos - 1) / 2)) as [parent|]; [|done].
    destruct (decide (cmp newitem parent < 0)%Z); [|done].
    apply IH. pose proof (parent_lt pos ltac:(lia)). lia.
Qed.

Lemma siftdown_length array startpos pos :
  length (Heap.siftdown cmp array startpos pos) = length array.
Proof.
  unfold Heap.siftdown. destruct (array !! pos); [|done].
  apply siftdown_loop_length.
Qed.

Lemma siftdown_Permutation array startpos pos :
  Heap.siftdown cmp array startpos pos ≡ₚ array.
Proof.
  unfold Heap.siftdown. destruct (array !! pos) as [newitem|] eqn:E; [|done].
  rewrite siftdown_loop_Permutation by (by eapply lookup_lt_Some).
  by rewrite list_insert_id.
Qed.

(** *** [_siftup] *)

Lemma siftup_loop_spec fuel : ∀ array pos array' leaf,
  Heap.siftup_loop cmp fuel array (length array) pos = (array', leaf) →
  pos < length array →
  length array' = length array
  ∧ leaf < length array
  ∧ ∀ newitem, <[leaf := newitem]> array' ≡ₚ <[pos := newitem]> array.
Proof.
  induction fuel as [|fuel IH]; intros array pos array' leaf Hrun Hpos;
    cbn [Heap.siftup_loop] in Hrun.
  { by injection Hrun as <- <-. }
  destruct (decide (2 * pos + 1 < length array)) as [Hchild|];
    [|by injection Hrun as <- <-].
  set (childpos :=
    match array !! (2 * pos + 1), array !! (2 * pos + 1 + 1) with
    | Some l, Some r =>
        if decide (2 * pos + 1 + 1 < length array ∧ ¬ (cmp l r < 0)%Z)
        then 2 * pos + 1 + 1 else 2 * pos + 1
    | _, _ => 2 * pos + 1
    end) in *.
  assert (childpos < length array ∧ pos < childpos) as [Hc1 Hc2].
  { unfold childpos.
    destruct (array !! (2 * pos + 1)); [|lia].
    destruct (array !! (2 * pos + 1 + 1)); [|lia].
    destruct (decide _) as [[? _]|]; lia. }
  destruct (array !! childpos) as [child|] eqn:Echild;
    [|by injection Hrun as <- <-].
  pose proof (IH (<[pos := child]> array) childpos array' leaf) as IH'.
  rewrite length_insert in IH'.
  destruct (IH' Hrun Hc1) as (Hlen & Hleaf & Hperm).
  repeat split; [done|done|].
  intros newitem. rewrite Hperm.
  apply hole_move_Permutation; [lia|done|done].
Qed.

(** The loop of [_siftup] ends within [endpos - pos] rounds: more fuel
    does not change the result. *)
Lemma siftup_loop_fuel fuel : ∀ array endpos pos,
  endpos ≤ fuel + pos →
  Heap.siftup_loop cmp (S fuel) array endpos pos
  = Heap.siftup_loop cmp fuel array endpos pos.
Proof.
  induction fuel as [|fuel IH]; intros array endpos pos Hfuel.
  - cbn [Heap.siftup_loop]. destruct (decide (2 * pos + 1 < endpos)); [lia|done].
  - change (Heap.siftup_loop cmp (S (S fuel)) array endpos pos)
      with (let childpos := 2 * pos + 1 in
            if decide (childpos < endpos) then
              let rightpos := childpos + 1 in
              let childpos :=
                match array !! childpos, array !! rightpos with
                | Some l, Some r =>
                    if decide (rightpos < endpos ∧ ¬ (cmp l r < 0)%Z)
                    then rightpos else childpos
                | _, _ => childpos
                end in
              match array !! childpos with
              | Some child =>
                  Heap.siftup_loop cmp (S fuel) (<[pos := child]> array) endpos childpos
              | None => (array, pos)
              end
            else (array, pos)).
    cbn [Heap.siftup_loop]. cbn zeta.
    destruct (decide (2 * pos + 1 < endpos)) as [Hlt|]; [|done].
    set (childpos := match array !! (2 * pos + 1), array !! (2 * pos + 1 + 1) with
                     | Some l, Some r => _ | _, _ => _ end).
    assert (pos < childpos) as Hc.
    { unfold childpos. destruct (array !! (2 * pos + 1)); [|lia].
      destruct (array !! (2 * pos + 1 + 1)); [|lia]. destruct (decide _); lia. }
    destruct (array !! childpos) as [child|]; [|done].
    apply IH. lia.
Qed.

Lemma siftup_length array pos :
  length (Heap.siftup cmp array pos) = length array.
Proof.
  unfold Heap.siftup. destruct (array !! pos) as [newitem|] eqn:E; [|done].
  destruct (Heap.siftup_loop _ _ _ _ _) as [array' leaf] eqn:Erun.
  apply siftup_loop_spec in Erun as (Hlen & _); [|by eapply lookup_lt_Some].
  by rewrite siftdown_length, length_insert.
Qed.

Lemma siftup_Permutation array pos :
  Heap.siftup cmp array pos ≡ₚ array.
Proof.
  unfold Heap.siftup. destruct (array !! pos) as [newitem|] eqn:E; [|done].
  destruct (Heap.siftup_loop _ _ _ _ _) as [array' leaf] eqn:Erun.
  apply siftup_loop_spec in Erun as (_ & _ & Hperm); [|by eapply lookup_lt_Some].
  by rewrite siftdown_Permutation, Hperm, list_insert_id.
Qed.

(** *** [push] and [pop] keep the items *)

Lemma push_length nodes item :
  length (Heap.push cmp nodes item) = S (length nodes).
Proof. unfold Heap.push. rewrite siftdown_length, length_app. simpl. lia. Qed.

Lemma push_Permutation nodes item :
  Heap.push cmp nodes item ≡ₚ item :: nodes.
Proof.
  unfold Heap.push. rewrite siftdown_Permutation.
  by rewrite Permutation_app_comm.
Qed.

Lemma pop_nil : Heap.pop cmp [] = (None, @nil A).
Proof. reflexivity. Qed.

(** [pop] on a non-empty array returns its first cell and leaves the
    other items. *)
Lemma pop_cons x nodes :
  ∃ nodes', Heap.pop cmp (x :: nodes) = (Some x, nodes')
            ∧ nodes' ≡ₚ nodes ∧ length nodes' = length nodes.
Proof.
  unfold Heap.pop.
  destruct (last (x :: nodes)) as [lastelt|] eqn:Elast;
    [|by apply last_None in Elast].
  apply last_Some in Elast as [init Einit].
  rewrite Einit, removelast_last.
  destruct init as [|returnitem init].
  - injection Einit as <- ->. by exists [].
  - injection Einit as <- ->. eexists. split; [done|].
    split.
    + rewrite siftup_Permutation. simpl. by rewrite Permutation_app_comm.
    + rewrite siftup_length. simpl. rewrite !length_app. simpl. lia.
Qed.

(** *** The heap order *)

Lemma siftdown_inv_done array pos newitem :
  pos < length array →
  siftdown_inv array pos newitem →
  (0 < pos → ∀ p, array !! ((pos - 1) / 2) = Some p → (key p ≤ key newitem)%Z) →
  is_heap (<[pos := newitem]> array).
Proof.
  intros Hpos (H1 & H2 & H3) Hparent i Hi x p Hx Hp.
  destruct (decide (i = pos)) as [->|Hne].
  - rewrite list_lookup_insert_eq in Hx by done. injection Hx as <-.
    rewrite list_lookup_insert_ne in Hp by (pose proof (parent_lt pos Hi); lia).
    by apply Hparent.
  - rewrite list_lookup_insert_ne in Hx by done.
    destruct (decide ((i - 1) / 2 = pos)) as [Hq|Hq].
    + rewrite Hq, list_lookup_insert_eq in Hp by done. injection Hp as <-.
      by eapply H2.
    + rewrite list_lookup_insert_ne in Hp by done. by eapply H1.
Qed.

Lemma siftdown_loop_heap fuel : ∀ array pos newitem,
  pos ≤ fuel → pos < length array →
  siftdown_inv array pos newitem →
  is_heap (Heap.siftdown_loop cmp fuel array 0 pos newitem).
Proof.
  induction fuel as [|fuel IH]; intros array pos newitem Hfuel Hpos Hinv;
    cbn [Heap.siftdown_loop].
  { apply siftdown_inv_done; [done|done|lia]. }
  destruct (decide (0 < pos)) as [Hlt|];
    [|apply siftdown_inv_done; [done|done|lia]].
  pose proof (parent_lt pos Hlt) as Hparent.
  destruct (array !! ((pos - 1) / 2)) as [parent|] eqn:Eparent;
    [|apply siftdown_inv_done; [done|done|intros _ p Hp; congruence]].
  destruct (decide (cmp newitem parent < 0)%Z) as [Hcmp|Hcmp].
  2:{ apply siftdown_inv_done; [done|done|].
      intros _ p Hp. rewrite Eparent in Hp. injection Hp as <-.
      rewrite cmp_key in Hcmp. lia. }
  apply cmp_key in Hcmp.
  apply IH; [lia|rewrite length_insert; lia|].
  destruct Hinv as (H1 & H2 & H3).
  set (q := (pos - 1) / 2) in *.
  split; [|split].
  - intros i Hi Hne x p Hx Hp.
    destruct (decide (i = pos)) as [->|Hne'].
    + rewrite list_lookup_insert_eq in Hx by done. injection Hx as <-.
      fold q in Hp. rewrite list_lookup_insert_ne in Hp by lia.
      rewrite Eparent in Hp. injection Hp as <-. lia.
    + rewrite list_lookup_insert_ne in Hx by done.
      destruct (decide ((i - 1) / 2 = pos)) as [Hq|Hq].
      * rewrite Hq, list_lookup_insert_eq in Hp by done. injection Hp as <-.
        by eapply (H3 i x parent).
      * rewrite list_lookup_insert_ne in Hp by done. by eapply H1.
  - intros c y Hc Hcq Hy.
    destruct (decide (c = pos)) as [->|Hne'].
    + rewrite list_lookup_insert_eq in Hy by done. injection Hy as <-. lia.
    + rewrite list_lookup_insert_ne in Hy by done.
      assert (key parent ≤ key y)%Z; [|lia].
      eapply (H1 c); [done|done|done|]. by rewrite Hcq.
  - intros c y g Hq0 Hc Hcq Hy Hg.
    pose proof (parent_lt q Hq0) as Hgp.
    rewrite list_lookup_insert_ne in Hg by lia.
    assert (key g ≤ key parent)%Z as Hgparent.
    { eapply (H1 q); [done|lia|done|done]. }
    destruct (decide (c = pos)) as [->|Hne'].
    + rewrite list_lookup_insert_eq in Hy by done. by injection Hy as <-.
    + rewrite list_lookup_insert_ne in Hy by done.
      assert (key parent ≤ key y)%Z; [|lia].
      eapply (H1 c); [done|done|done|]. by rewrite Hcq.
Qed.

(** A leaf of a heap that was overwritten is put in order by
    [_siftdown]. *)
Lemma siftdown_heap array pos newitem :
  array !! pos = Some newitem →
  length array ≤ 2 * pos + 1 →
  (∀ i, 0 < i → i ≠ pos → ordered_at array i) →
  is_heap (Heap.siftdown cmp array 0 pos).
Proof.
  intros Hnew Hleaf Hord. unfold Heap.siftdown. rewrite Hnew.
  assert (∀ c, 0 < c → (c - 1) / 2 = pos → array !! c = None) as Hnochild.
  { intros c Hc Hcq. apply lookup_ge_None.
    pose proof (parent_cases c Hc). lia. }
  apply siftdown_loop_heap; [done|by eapply lookup_lt_Some|].
  split; [done|]. split.
  - intros c y Hc Hcq Hy. by rewrite Hnochild in Hy.
  - intros c y g _ Hc Hcq Hy. by rewrite Hnochild in Hy.
Qed.

Lemma is_heap_nil : is_heap [].
Proof. intros i _ x p Hx. done. Qed.

Lemma push_heap nodes item :
  is_heap nodes → is_heap (Heap.push cmp nodes item).
Proof.
  intros Hheap. unfold Heap.push.
  rewrite length_app. simpl.
  replace (length nodes + 1 - 1) with (length nodes) by lia.
  apply (siftdown_heap _ _ item).
  - by rewrite lookup_app_r, Nat.sub_diag.
  - rewrite length_app. simpl. lia.
  - intros i Hi Hne x p Hx Hp.
    assert (i < length nodes) as Hlt.
    { apply lookup_lt_Some in Hx. rewrite length_app in Hx. simpl in Hx. lia. }
    pose proof (parent_lt i Hi).
    rewrite lookup_app_l in Hx, Hp by lia. by eapply Hheap.
Qed.

(** The loop of [_siftup] ends at a leaf, with every cell in order. *)
Lemma siftup_loop_heap fuel : ∀ array pos array' leaf,
  Heap.siftup_loop cmp fuel array (length array) pos = (array', leaf) →
  length array ≤ fuel + pos → pos < length array →
  siftup_inv array pos →
  length array' ≤ 2 * leaf + 1 ∧ is_heap array'.
Proof.
  induction fuel as [|fuel IH]; intros array pos array' leaf Hrun Hfuel Hpos Hinv;
    cbn [Heap.siftup_loop] in Hrun.
  { injection Hrun as <- <-. lia. }
  assert (length array ≤ 2 * pos + 1 → siftup_inv array pos → is_heap array)
    as Hleaf.
  { intros Hlen (U1 & _) i Hi x p Hx Hp. eapply (U1 i); [done| |done|done].
    intros Hq. apply lookup_lt_Some in Hx.
    pose proof (parent_cases i Hi). lia. }
  destruct (decide (2 * pos + 1 < length array)) as [Hchild|Hnochild].
  2:{ injection Hrun as <- <-. split; [lia|]. apply Hleaf; [lia|done]. }
  destruct (lookup_lt_is_Some_2 array (2 * pos + 1) Hchild) as [l El].
  rewrite El in Hrun.
  (* the child that moves up, and why it is not above its sibling *)
  assert (∃ c child,
    (c = 2 * pos + 1 ∨ c = 2 * pos + 2) ∧ array !! c = Some child
    ∧ (∀ s y, s = 2 * pos + 1 ∨ s = 2 * pos + 2 → array !! s = Some y →
              (key child ≤ key y)%Z)
    ∧ Heap.siftup_loop cmp fuel (<[pos := child]> array) (length array) c
      = (array', leaf)) as (c & child & Hc & Echild & Hsib & Hrun').
  { replace (2 * pos + 1 + 1) with (2 * pos + 2) in Hrun by lia.
    destruct (array !! (2 * pos + 2)) as [r|] eqn:Er.
    - destruct (decide (2 * pos + 2 < length array ∧ ¬ (cmp l r < 0)%Z))
        as [[_ Hlr]|Hlr].
      + rewrite Er in Hrun. exists (2 * pos + 2), r.
        split; [by right|]. split; [done|]. split; [|done].
        rewrite cmp_key in Hlr.
        intros s y [->| ->] Hy; simplify_eq; lia.
      + rewrite El in Hrun. exists (2 * pos + 1), l.
        split; [by left|]. split; [done|]. split; [|done].
        assert (cmp l r < 0)%Z as Hlt.
        { destruct (decide (cmp l r < 0)%Z); [done|].
          exfalso. apply Hlr. split; [by eapply lookup_lt_Some|done]. }
        apply cmp_key in Hlt.
        intros s y [->| ->] Hy; simplify_eq; lia.
    - rewrite El in Hrun. exists (2 * pos + 1), l.
      split; [by left|]. split; [done|]. split; [|done].
      intros s y [->| ->] Hy; simplify_eq. lia. }
  clear Hrun El.
  assert ((c - 1) / 2 = pos ∧ 0 < c ∧ pos < c) as (Hcq & Hc0 & Hcpos).
  { assert (0 < c) as Hc0 by lia.
    pose proof (parent_cases c Hc0). lia. }
  pose proof (lookup_lt_Some _ _ _ Echild) as Hclen.
  rewrite <- (length_insert array pos child) in Hrun'.
  apply IH in Hrun'; [exact Hrun'
                     |rewrite length_insert; lia|rewrite length_insert; lia|].
  destruct Hinv as (U1 & U2). split.
  - intros i Hi Hq x p Hx Hp.
    destruct (decide (i = pos)) as [->|Hne].
    + rewrite list_lookup_insert_eq in Hx by done. injection Hx as <-.
      pose proof (parent_lt pos Hi).
      rewrite list_lookup_insert_ne in Hp by lia.
      by eapply (U2 c child p).
    + rewrite list_lookup_insert_ne in Hx by done.
      destruct (decide ((i - 1) / 2 = pos)) as [Hq'|Hq'].
      * rewrite Hq', list_lookup_insert_eq in Hp by done. injection Hp as <-.
        eapply (Hsib i); [|done]. pose proof (parent_cases i Hi). lia.
      * rewrite list_lookup_insert_ne in Hp by done. by eapply (U1 i).
  - intros d y g _ Hd Hdq Hy Hg.
    rewrite Hcq, list_lookup_insert_eq in Hg by done. injection Hg as <-.
    assert (d ≠ pos) as Hdpos.
    { pose proof (parent_cases d Hd). lia. }
    rewrite list_lookup_insert_ne in Hy by done.
    eapply (U1 d); [done|lia|done|]. by rewrite Hdq.
Qed.

(** [_siftup] from the root, after the root of a heap was overwritten. *)
Lemma siftup_heap array :
  (∀ i, 0 < i → (i - 1) / 2 ≠ 0 → ordered_at array i) →
  is_heap (Heap.siftup cmp array 0).
Proof.
  intros Hord. unfold Heap.siftup.
  destruct (array !! 0) as [newitem|] eqn:Enew.
  2:{ apply lookup_ge_None in Enew. destruct array; [|simpl in Enew; lia].
      apply is_heap_nil. }
  pose proof (lookup_lt_Some _ _ _ Enew) as Hlen.
  destruct (Heap.siftup_loop _ _ _ _ _) as [array' leaf] eqn:Erun.
  pose proof Erun as (Hlen' & Hleaf & _)%siftup_loop_spec; [|done].
  apply siftup_loop_heap in Erun as [Hbottom Hheap]; [|lia|done|].
  2:{ split; [done|]. intros c y g Hpos. lia. }
  apply (siftdown_heap _ _ newitem).
  - apply list_lookup_insert_eq. lia.
  - rewrite length_insert. lia.
  - intros i Hi Hne x p Hx Hp.
    rewrite list_lookup_insert_ne in Hx by done.
    assert ((i - 1) / 2 ≠ leaf) as Hq.
    { apply lookup_lt_Some in Hx. pose proof (parent_cases i Hi). lia. }
    rewrite list_lookup_insert_ne in Hp by done. by eapply Hheap.
Qed.

(** The root of a heap is not above any cell. *)
Lemma heap_root_min array x y :
  is_heap array → array !! 0 = Some x → y ∈ array → (key x ≤ key y)%Z.
Proof.
  intros Hheap Hx Hy. apply list_elem_of_lookup in Hy as [i Hi].
  revert y Hi. induction (lt_wf i) as [i _ IH]. intros y Hi.
  destruct (decide (i = 0)) as [->|Hne].
  { rewrite Hx in Hi. injection Hi as <-. lia. }
  pose proof (parent_lt i ltac:(lia)) as Hlt.
  destruct (lookup_lt_is_Some_2 array ((i - 1) / 2)) as [p Hp].
  { apply lookup_lt_Some in Hi. lia. }
  pose proof (IH _ Hlt p Hp).
  pose proof (Hheap i ltac:(lia) y p Hi Hp). lia.
Qed.

(** [pop] on a heap returns an item that none of the others is below, and
    leaves a heap. *)
Lemma pop_heap x nodes nodes' :
  is_heap (x :: nodes) → Heap.pop cmp (x :: nodes) = (Some x, nodes') →
  is_heap nodes' ∧ ∀ y, y ∈ nodes' → (key x ≤ key y)%Z.
Proof.
  intros Hheap Hpop. split.
  - revert Hpop. unfold Heap.pop.
    destruct (last (x :: nodes)) as [lastelt|] eqn:Elast;
      [|by intros [= <-]].
    apply last_Some in Elast as [init Einit].
    rewrite Einit, removelast_last.
    destruct init as [|returnitem init].
    { intros [= _ <-]. apply is_heap_nil. }
    intros [= _ <-]. apply siftup_heap.
    intros i Hi Hq y p Hy Hp.
    pose proof (parent_lt i Hi) as Hlt.
    assert (0 < (i - 1) / 2) as Hq0 by lia.
    destruct i as [|i]; [lia|].
    destruct ((S i - 1) / 2) as [|q] eqn:Eq; [lia|].
    cbn [insert list_insert lookup list_lookup] in Hy, Hp.
    apply (Hheap (S i) Hi y p).
    + rewrite Einit. cbn [app lookup list_lookup]. by apply lookup_app_l_Some.
    + rewrite Eq, Einit. cbn [app lookup list_lookup]. by apply lookup_app_l_Some.
  - intros y Hy. apply (heap_root_min (x :: nodes)); [done|done|].
    destruct (pop_cons x nodes) as (nodes'' & Hpop' & Hperm & _).
    rewrite Hpop' in Hpop. injection Hpop as <-.
    right. by rewrite <- Hperm.
Qed.
End HeapFacts.

(** ** The merge loop *)

Section MergeLoop.
Implicit Types (st : MergeState) (its : list (list StrokeData)).

Lemma cmp_entry_ts e0 e1 : (cmp e0 e1 < 0 ↔ entry_ts e0 < entry_ts e1)%Z.
Proof. unfold cmp, entry_ts. lia. Qed.

Lemma mergeBody_nil st : heap st = [] → mergeBody st = inr (mergedStrokes st).
Proof. intros E. unfold mergeBody. by rewrite E. Qed.

(** One pass on a non-empty heap: the first cell is popped. *)
Lemma mergeBody_cons st stroke index rest :
  heap st = (stroke, index) :: rest →
  ∃ heap1,
    Heap.pop cmp (heap st) = (Some (stroke, index), heap1)
    ∧ heap1 ≡ₚ rest ∧ length heap1 = length rest
    ∧ mergeBody st =
        match iterators st !! index with
        | Some iterator => inl (mergeNext st stroke index heap1 iterator)
        | None => inr (mergeItem (mergedStrokes st) stroke)
        end.
Proof.
  intros E. destruct (pop_cons cmp (stroke, index) rest) as (heap1 & Hpop & Hperm & Hlen).
  exists heap1. rewrite E. repeat split; [done|done|done|].
  unfold mergeBody. rewrite E, Hpop. cbn [Heap.size length].
  destruct (decide (0 < S (length rest))) as [_|]; [|lia].
  destruct (iterators st !! index) as [iterator|]; [|done].
  unfold mergeNext. by destruct iterator.
Qed.

(** *** Termination *)

Lemma sum_list_insert_length its i (l l' : list StrokeData) :
  its !! i = Some l →
  sum_list (length <$> <[i := l']> its) + length l
  = sum_list (length <$> its) + length l'.
Proof.
  revert i. induction its as [|it its IH]; intros [|i] Hi; simplify_eq/=.
  - lia.
  - specialize (IH i Hi). lia.
Qed.

Lemma mergeBody_pendingCount st st' :
  mergeBody st = inl st' → S (pendingCount st') = pendingCount st.
Proof.
  intros Hbody. destruct (heap st) as [|[stroke index] rest] eqn:E.
  { by rewrite mergeBody_nil in Hbody. }
  destruct (mergeBody_cons st stroke index rest E)
    as (heap1 & _ & _ & Hlen & Hbody').
  rewrite Hbody' in Hbody.
  destruct (iterators st !! index) as [iterator|] eqn:Eit; [|done].
  injection Hbody as <-. unfold pendingCount, mergeNext. rewrite E. simpl.
  pose proof (sum_list_insert_length _ _ _ (tail iterator) Eit) as Hsum.
  destruct iterator as [|value iterator]; simpl in *.
  - lia.
  - rewrite push_length. lia.
Qed.

(** With more passes allowed than items pending, the loop returns. *)
Lemma mergeLoop_returns fuel : ∀ st,
  pendingCount st < fuel → is_Some (mergeLoop fuel st).
Proof.
  induction fuel as [|fuel IH]; intros st Hfuel; [lia|].
  simpl. destruct (mergeBody st) as [st'|result] eqn:Hbody; [|done].
  apply IH. apply mergeBody_pendingCount in Hbody. lia.
Qed.

Lemma pushHeads_count its : ∀ index heap0 heap1 its',
  pushHeads its index heap0 = (heap1, its') →
  length heap1 + sum_list (length <$> its')
  = length heap0 + sum_list (length <$> its).
Proof.
  induction its as [|it its IH]; intros index heap0 heap1 its' Hrun;
    cbn [pushHeads] in Hrun.
  { by injection Hrun as <- <-. }
  destruct it as [|value it]; cbn [next] in Hrun.
  - destruct (pushHeads its (S index) heap0) as [h i'] eqn:E.
    injection Hrun as <- <-. apply IH in E. csimpl. lia.
  - destruct (pushHeads its (S index) _) as [h i'] eqn:E.
    injection Hrun as <- <-. apply IH in E. rewrite push_length in E.
    csimpl. lia.
Qed.

Lemma mergeInit_count states : S (pendingCount (mergeInit states)) = mergeFuel states.
Proof.
  unfold mergeInit, mergeFuel, pendingCount.
  destruct (pushHeads _ 0 []) as [heap1 its'] eqn:E.
  apply pushHeads_count in E. simpl in *. rewrite E. f_equal.
  rewrite <- list_fmap_compose. f_equal. apply list_fmap_ext.
  intros _ ds _. simpl. unfold OrderedMap.values. by rewrite length_fmap.
Qed.

(** [mergeStates] returns a map on every input. *)
Lemma mergeStates_returns states : is_Some (mergeStates states).
Proof.
  unfold mergeStates. apply mergeLoop_returns.
  rewrite <- mergeInit_count. lia.
Qed.
End MergeLoop.

(** ** Invariants of the merge loop *)

Section MergeInvariants.
Implicit Types (st : MergeState) (its : list (list StrokeData)).

(** The loop rule: a property of the state that every pass keeps holds
    when the loop ends. *)
Lemma mergeLoop_invariant (I : MergeState → Prop) :
  (∀ st st', I st → mergeBody st = inl st' → I st') →
  ∀ fuel st result, I st → mergeLoop fuel st = Some result →
    ∃ st', I st' ∧ mergeBody st' = inr result.
Proof.
  intros Hstep. induction fuel as [|fuel IH]; intros st result HI Hrun; [done|].
  simpl in Hrun. destruct (mergeBody st) as [st'|r] eqn:Hbody.
  - apply (IH st'); [by eapply Hstep|done].
  - injection Hrun as ->. by exists st.
Qed.

Lemma mergeAfter_invariant (I : MergeState → Prop) :
  (∀ st st', I st → mergeBody st = inl st' → I st') →
  ∀ n st st', I st → mergeAfter n st = Some st' → I st'.
Proof.
  intros Hstep. induction n as [|n IH]; intros st st' HI Hrun; simpl in Hrun.
  - by injection Hrun as <-.
  - destruct (mergeBody st) as [st1|r] eqn:Hbody; [|done].
    apply (IH st1); [by eapply Hstep|done].
Qed.

(** *** The first heads *)

Lemma pushHeads_spec its : ∀ index heap0 heap1 its',
  pushHeads its index heap0 = (heap1, its') →
  its' = tail <$> its
  ∧ (Heap.is_heap entry_ts heap0 → Heap.is_heap entry_ts heap1)
  ∧ (∀ y i, (y, i) ∈ heap1 ↔
       (y, i) ∈ heap0 ∨ ∃ k l, its !! k = Some (y :: l) ∧ i = index + k).
Proof.
  induction its as [|it its IH]; intros index heap0 heap1 its' Hrun;
    cbn [pushHeads] in Hrun.
  { injection Hrun as <- <-. split; [done|]. split; [done|].
    intros y i. split; [by left|]. intros [?|(k & l & Hk & _)]; done. }
  destruct it as [|value it]; cbn [next] in Hrun.
  - destruct (pushHeads its (S index) heap0) as [h its1] eqn:E.
    injection Hrun as <- <-. apply IH in E as (-> & Hheap & Hin).
    split; [done|]. split; [done|].
    intros y i. rewrite Hin. split.
    + intros [?|(k & l & Hk & ->)]; [by left|].
      right. exists (S k), l. split; [done|lia].
    + intros [?|(k & l & Hk & ->)]; [by left|].
      destruct k as [|k]; [done|]. right. exists k, l. split; [done|lia].
  - destruct (pushHeads its (S index) _) as [h its1] eqn:E.
    injection Hrun as <- <-. apply IH in E as (-> & Hheap & Hin).
    split; [done|]. split.
    { intros H0. apply Hheap, (push_heap cmp entry_ts cmp_entry_ts), H0. }
    intros y i. rewrite Hin, (push_Permutation cmp), elem_of_cons. split.
    + intros [[[= -> ->]|?]|(k & l & Hk & ->)].
      * right. exists 0, it. split; [done|lia].
      * by left.
      * right. exists (S k), l. split; [done|lia].
    + intros [?|(k & l & Hk & ->)]; [left; by right|].
      destruct k as [|k].
      * injection Hk as -> ->. left. left. f_equal. lia.
      * right. exists k, l. split; [done|lia].
Qed.

Lemma values_of_states_lookup (states : list DrawState) k l :
  (map (λ ds, OrderedMap.values (getStrokeMap ds)) states) !! k = Some l →
  ∃ ds, ds ∈ states ∧ l = OrderedMap.values (getStrokeMap ds).
Proof.
  rewrite list_lookup_fmap. destruct (states !! k) as [ds|] eqn:E; [|done].
  intros [= <-]. exists ds. split; [|done]. by eapply list_elem_of_lookup_2.
Qed.

Lemma mergeInit_spec states :
  mergedStrokes (mergeInit states) = []
  ∧ heads_ok (mergeInit states)
  ∧ iterators (mergeInit states)
    = tail <$> map (λ ds, OrderedMap.values (getStrokeMap ds)) states
  ∧ (∀ y i, (y, i) ∈ heap (mergeInit states) ↔
       ∃ l, map (λ ds, OrderedMap.values (getStrokeMap ds)) states !! i
            = Some (y :: l)).
Proof.
  unfold mergeInit.
  destruct (pushHeads _ 0 []) as [heap1 its'] eqn:E.
  apply pushHeads_spec in E as (-> & Hheap & Hin). simpl.
  assert (∀ y i, (y, i) ∈ heap1 ↔
       ∃ l, map (λ ds, OrderedMap.values (getStrokeMap ds)) states !! i
            = Some (y :: l)) as Hin'.
  { intros y i. rewrite Hin. split.
    - intros [Hnil|(k & l & Hk & ->)]; [by apply elem_of_nil in Hnil|]. by exists l.
    - intros [l Hl]. right. by exists i, l. }
  split; [done|]. split; [|done].
  split; [apply Hheap, is_heap_nil|]. simpl. split.
  - intros i ((y & i') & -> & [l Hl]%Hin')%list_elem_of_fmap. simpl.
    rewrite length_fmap. by eapply lookup_lt_Some.
  - intros i l Hl Hne. rewrite list_lookup_fmap in Hl.
    destruct (_ !! i) as [[|y l']|] eqn:Ei; simplify_eq/=.
    apply list_elem_of_fmap. exists (y, i). split; [done|].
    apply Hin'. by exists l.
Qed.

Lemma mergeInit_pending states y :
  pending (mergeInit states) y ↔ inputItem states y.
Proof.
  destruct (mergeInit_spec states) as (_ & _ & Hits & Hheap).
  unfold pending, inputItem. rewrite Hits. split.
  - intros [((y' & i) & -> & [l Hl]%Hheap)%list_elem_of_fmap|(i & l & Hl & Hy)].
    + apply values_of_states_lookup in Hl as (ds & Hds & Hl).
      exists ds. split; [done|]. rewrite <- Hl. by left.
    + rewrite list_lookup_fmap in Hl.
      destruct (_ !! i) as [l0|] eqn:Ei; simplify_eq/=.
      apply values_of_states_lookup in Ei as (ds & Hds & ->).
      exists ds. split; [done|].
      destruct (OrderedMap.values _); [done|]. by right.
  - intros (ds & Hds & Hy). apply list_elem_of_lookup in Hds as [i Hi].
    assert (map (λ ds, OrderedMap.values (getStrokeMap ds)) states !! i
            = Some (OrderedMap.values (getStrokeMap ds))) as Hl.
    { by rewrite list_lookup_fmap, Hi. }
    destruct (OrderedMap.values (getStrokeMap ds)) as [|h l] eqn:Ev;
      [by apply elem_of_nil in Hy|].
    apply elem_of_cons in Hy as [->|Hy].
    + left. apply list_elem_of_fmap. exists (h, i). split; [done|].
      apply Hheap. by exists l.
    + right. exists i, l. split; [|done]. by rewrite list_lookup_fmap, Hl.
Qed.

(** *** One pass *)

Lemma mergeBody_inl st st' :
  mergeBody st = inl st' →
  ∃ x i rest heap1 iterator,
    heap st = (x, i) :: rest
    ∧ Heap.pop cmp (heap st) = (Some (x, i), heap1)
    ∧ heap1 ≡ₚ rest
    ∧ iterators st !! i = Some iterator
    ∧ st' = mergeNext st x i heap1 iterator.
Proof.
  intros Hbody. destruct (heap st) as [|[x i] rest] eqn:E.
  { by rewrite mergeBody_nil in Hbody. }
  destruct (mergeBody_cons st x i rest E) as (heap1 & Hpop & Hperm & _ & Hbody').
  rewrite Hbody' in Hbody.
  destruct (iterators st !! i) as [iterator|] eqn:Eit; [|done].
  injection Hbody as <-. rewrite <- E. by exists x, i, rest, heap1, iterator.
Qed.

Lemma heads_ok_step st st' :
  heads_ok st → mergeBody st = inl st' → heads_ok st'.
Proof.
  intros (Hheap & Hvalid & Hheads) Hbody.
  apply mergeBody_inl in Hbody
    as (x & i & rest & heap1 & iterator & E & Hpop & Hperm & Hit & ->).
  rewrite E in Hpop, Hheap.
  destruct (pop_heap cmp entry_ts cmp_entry_ts _ _ _ Hheap Hpop) as [Hheap1 _].
  pose proof (lookup_lt_Some _ _ _ Hit) as Hi.
  assert (∀ j, j ∈ heap1.*2 ↔ j ∈ rest.*2) as Hidx.
  { intros j. by rewrite Hperm. }
  unfold heads_ok, mergeNext. cbn [heap iterators]. rewrite length_insert.
  rewrite E in Hvalid, Hheads. csimpl in Hvalid. csimpl in Hheads.
  destruct iterator as [|value iterator]; cbn [tail].
  - split; [done|]. split.
    + intros j Hj. apply Hvalid. right. by apply Hidx.
    + intros j l Hl Hne. destruct (decide (j = i)) as [->|Hji].
      * rewrite list_lookup_insert_eq in Hl by done. by injection Hl as <-.
      * rewrite list_lookup_insert_ne in Hl by done.
        apply Hidx. specialize (Hheads j l Hl Hne).
        apply elem_of_cons in Hheads as [?|?]; done.
  - split; [by apply (push_heap cmp entry_ts cmp_entry_ts)|].
    assert (∀ j, j ∈ (Heap.push cmp heap1 (value, i)).*2 ↔ j = i ∨ j ∈ rest.*2)
      as Hidx'.
    { intros j. rewrite (push_Permutation cmp). csimpl.
      by rewrite elem_of_cons, Hidx. }
    split.
    + intros j [->|Hj]%Hidx'; [done|]. apply Hvalid. by right.
    + intros j l Hl Hne. apply Hidx'. destruct (decide (j = i)) as [->|Hji].
      * by left.
      * right. rewrite list_lookup_insert_ne in Hl by done.
        specialize (Hheads j l Hl Hne).
        apply elem_of_cons in Hheads as [?|?]; done.
Qed.

(** The loop ends only when nothing is pending. *)
Lemma mergeBody_inr st result :
  heads_ok st → mergeBody st = inr result →
  heap st = [] ∧ result = mergedStrokes st ∧ ∀ y, ¬ pending st y.
Proof.
  intros (Hheap & Hvalid & Hheads) Hbody. unfold pending.
  destruct (heap st) as [|[x i] rest] eqn:E.
  - rewrite mergeBody_nil in Hbody by done. injection Hbody as <-.
    split; [done|]. split; [done|].
    intros y [Hy|(j & l & Hl & Hy)].
    + by apply elem_of_nil in Hy.
    + assert (l ≠ []) as Hne by (intros ->; by apply elem_of_nil in Hy).
      specialize (Hheads j l Hl Hne). by apply elem_of_nil in Hheads.
  - destruct (mergeBody_cons st x i rest) as (heap1 & _ & _ & _ & Hbody'); [done|].
    rewrite Hbody' in Hbody.
    assert (i < length (iterators st)) as Hi.
    { apply Hvalid. csimpl. by left. }
    apply lookup_lt_is_Some_2 in Hi as [iterator Hit].
    by rewrite Hit in Hbody.
Qed.

(** A pass takes the popped item, and nothing else, out of the pending
    items. *)
Lemma pending_step st st' x i heap1 :
  mergeBody st = inl st' →
  Heap.pop cmp (heap st) = (Some (x, i), heap1) →
  pending st x
  ∧ (∀ y, pending st' y → pending st y)
  ∧ (∀ y, pending st y → y = x ∨ pending st' y).
Proof.
  intros Hbody Hpop.
  apply mergeBody_inl in Hbody
    as (x' & i' & rest & heap1' & iterator & E & Hpop' & Hperm & Hit & ->).
  rewrite Hpop' in Hpop. injection Hpop as -> -> ->.
  assert (∀ y, y ∈ heap1.*1 ↔ y ∈ rest.*1) as Hitems.
  { intros y. by rewrite Hperm. }
  unfold pending, mergeNext. cbn [heap iterators]. rewrite E. csimpl.
  split; [left; by left|].
  assert (∀ y,
    y ∈ (match iterator with
         | value :: _ => Heap.push cmp heap1 (value, i)
         | [] => heap1
         end).*1
    ↔ y ∈ rest.*1 ∨ (∃ l, iterator = y :: l)) as Hheap'.
  { intros y. destruct iterator as [|value iterator].
    - rewrite Hitems. split; [by left|]. by intros [?|[l ?]].
    - rewrite (push_Permutation cmp). csimpl. rewrite elem_of_cons, Hitems.
      split.
      + intros [->|?]; [right; by exists iterator|by left].
      + intros [?|[l [= -> _]]]; [by right|by left]. }
  split.
  - intros y [Hy|(j & l & Hl & Hy)].
    + apply Hheap' in Hy as [Hy|[l ->]].
      * left. by right.
      * right. exists i, (y :: l). split; [done|by left].
    + destruct (decide (j = i)) as [->|Hji].
      * rewrite list_lookup_insert_eq in Hl by (by eapply lookup_lt_Some).
        injection Hl as <-. right. exists i, iterator. split; [done|].
        destruct iterator; [done|]. by right.
      * rewrite list_lookup_insert_ne in Hl by done. right. by exists j, l.
  - intros y [[->|Hy]%elem_of_cons|(j & l & Hl & Hy)].
    + by left.
    + right. left. apply Hheap'. by left.
    + right. destruct (decide (j = i)) as [->|Hji].
      * rewrite Hit in Hl. injection Hl as <-.
        destruct iterator as [|value iterator]; [by apply elem_of_nil in Hy|].
        apply elem_of_cons in Hy as [->|Hy].
        -- left. apply Hheap'. right. by exists iterator.
        -- right. exists i, iterator. split; [|done].
           apply list_lookup_insert_eq. by eapply lookup_lt_Some.
      * right. exists j, l. split; [|done]. by rewrite list_lookup_insert_ne.
Qed.
End MergeInvariants.

(** ** Merging one snapshot, and two *)

Section MergeSmall.
Implicit Types (la lb items : list StrokeData) (merged : list (string * Stroke)).
Implicit Types (st : MergeState).

Lemma mergeItem_resolveItem merged item :
  mergeItem merged item = resolveItem merged item.
Proof. destruct item; reflexivity. Qed.

Lemma push_nil (e : HeapEntry) : Heap.push cmp [] e = [e].
Proof. reflexivity. Qed.

Lemma pop_one (e : HeapEntry) : Heap.pop cmp [e] = (Some e, []).
Proof. reflexivity. Qed.

Lemma pop_two (e0 e1 : HeapEntry) : Heap.pop cmp [e0; e1] = (Some e0, [e1]).
Proof. reflexivity. Qed.

Lemma push_one (e0 e : HeapEntry) :
  Heap.push cmp [e0] e
  = if decide (sd_timestamp e.1 < sd_timestamp e0.1)%Z then [e; e0] else [e0; e].
Proof.
  unfold Heap.push, Heap.siftdown. cbn.
  destruct (decide (cmp e e0 < 0)%Z) as [H|H];
    destruct (decide (sd_timestamp e.1 < sd_timestamp e0.1)%Z) as [H'|H'];
    try done; unfold cmp in H; lia.
Qed.

(** *** One snapshot left *)

(** With one head in the heap, the loop folds the items of that snapshot
    in the order they are stored; the other snapshots are not looked
    at. *)
Lemma single_step x j merged its items :
  its !! j = Some items →
  mergeBody (mkMergeState merged [(x, j)] its)
  = inl (mkMergeState (mergeItem merged x)
           (match items with v :: _ => [(v, j)] | [] => [] end)
           (<[j := tail items]> its)).
Proof.
  intros Hj. unfold mergeBody. cbn [heap Heap.size length].
  rewrite pop_one. cbn [iterators mergedStrokes]. rewrite Hj.
  destruct items as [|v items]; cbn [next tail]; [done|]. by rewrite push_nil.
Qed.

Lemma single_loop items : ∀ x j merged its fuel,
  its !! j = Some items → length items + 1 < fuel →
  mergeLoop fuel (mkMergeState merged [(x, j)] its)
  = Some (foldl mergeItem merged (x :: items)).
Proof.
  induction items as [|v items IH]; intros x j merged its fuel Hj Hfuel.
  - destruct fuel as [|[|fuel]]; [simpl in Hfuel; lia..|].
    cbn [mergeLoop]. rewrite (single_step _ _ _ _ _ Hj). done.
  - destruct fuel as [|fuel]; [lia|].
    cbn [mergeLoop]. rewrite (single_step _ _ _ _ _ Hj). cbn [tail].
    rewrite (IH v j _ _ fuel); [done| |simpl in Hfuel; lia].
    apply list_lookup_insert_eq. by eapply lookup_lt_Some.
Qed.

(** A pass pops one entry and pushes at most one. *)
Lemma mergeBody_heap_length st st' :
  mergeBody st = inl st' → length (heap st') ≤ length (heap st).
Proof.
  intros (x & i & rest & heap1 & iterator & E & _ & Hperm & _ & ->)%mergeBody_inl.
  rewrite E. unfold mergeNext. cbn [heap length].
  apply Permutation_length in Hperm.
  destruct iterator; [lia|]. rewrite push_length. lia.
Qed.

(** C10. For a single snapshot, [mergeStates] returns the left fold of
    the resolution rules over the items in insertion order, whatever
    their timestamps: at every pass the heap holds at most the one head, so
    no two timestamps are ever compared. *)
Theorem mergeStates_single (ds : DrawState) :
  mergeStates [ds] = Some (mergeInInsertionOrder ds)
  ∧ ∀ n st, mergeAfter n (mergeInit [ds]) = Some st → length (heap st) ≤ 1.
Proof.
  split.
  - unfold mergeStates, mergeInInsertionOrder, mergeFuel, mergeInit.
    cbn [map sum_list foldr pushHeads].
    assert (∀ l m, foldl mergeItem m l = foldl resolveItem m l) as Hfold.
    { induction l as [|x l IH]; intros m; [done|].
      simpl. by rewrite mergeItem_resolveItem, IH. }
    rewrite <- Hfold. unfold OrderedMap.values. rewrite <- (length_fmap snd).
    destruct ((getStrokeMap ds).*2) as [|x items]; [done|].
    cbn [next]. rewrite push_nil.
    apply single_loop; [done|simpl; lia].
  - intros n st.
    apply (mergeAfter_invariant (λ st, length (heap st) ≤ 1)).
    + intros st0 st1 Hle Hbody. apply mergeBody_heap_length in Hbody. lia.
    + unfold mergeInit. cbn [map pushHeads].
      destruct (OrderedMap.values (getStrokeMap ds)) as [|x items]; cbn [next].
      * simpl. lia.
      * rewrite push_nil. simpl. lia.
Qed.

(** *** Two snapshots without ties across them *)

Lemma no_cross_ties_heads a la b lb :
  no_cross_ties (a :: la) (b :: lb) → sd_timestamp a ≠ sd_timestamp b.
Proof. intros [H _]%Forall_cons. by apply Forall_cons in H as [? _]. Qed.

Lemma no_cross_ties_tail_l a la lb :
  no_cross_ties (a :: la) lb → no_cross_ties la lb.
Proof. by intros [_ ?]%Forall_cons. Qed.

Lemma no_cross_ties_tail_r la b lb :
  no_cross_ties la (b :: lb) → no_cross_ties la lb.
Proof.
  unfold no_cross_ties. intros H. eapply Forall_impl; [exact H|].
  intros a Ha. by apply Forall_cons in Ha as [_ ?].
Qed.

Lemma no_cross_ties_sym la lb : no_cross_ties la lb → no_cross_ties lb la.
Proof.
  unfold no_cross_ties. rewrite !Forall_forall. intros H b Hb.
  apply Forall_forall. intros a Ha. specialize (H a Ha).
  rewrite Forall_forall in H. specialize (H b Hb). congruence.
Qed.

Lemma mergeByTimestamp_nil_l lb : mergeByTimestamp [] lb = lb.
Proof. by destruct lb. Qed.

Lemma mergeByTimestamp_nil_r la : mergeByTimestamp la [] = la.
Proof. by destruct la. Qed.

Lemma mergeByTimestamp_cons a ra b rb :
  mergeByTimestamp (a :: ra) (b :: rb)
  = if decide (sd_timestamp a < sd_timestamp b)%Z
    then a :: mergeByTimestamp ra (b :: rb)
    else b :: mergeByTimestamp (a :: ra) rb.
Proof. reflexivity. Qed.

(** Without ties across the two sequences, the merge by timestamp does
    not depend on which sequence comes first. *)
Lemma mergeByTimestamp_comm la : ∀ lb,
  no_cross_ties la lb → mergeByTimestamp la lb = mergeByTimestamp lb la.
Proof.
  induction la as [|a ra IHa]; intros lb Hties.
  { by rewrite mergeByTimestamp_nil_l, mergeByTimestamp_nil_r. }
  induction lb as [|b rb IHb].
  { by rewrite mergeByTimestamp_nil_l, mergeByTimestamp_nil_r. }
  pose proof (no_cross_ties_heads _ _ _ _ Hties) as Hne.
  rewrite !mergeByTimestamp_cons.
  destruct (decide (sd_timestamp a < sd_timestamp b)%Z) as [Hab|Hab];
    destruct (decide (sd_timestamp b < sd_timestamp a)%Z) as [Hba|Hba];
    try lia.
  - f_equal. apply IHa. by eapply no_cross_ties_tail_l.
  - f_equal. apply IHb. by eapply no_cross_ties_tail_r.
Qed.

(** A pass from a two-snapshot state whose least head is in snapshot 0. *)
Lemma twoState_step_l merged a ra lb :
  no_cross_ties (a :: ra) lb →
  match lb with [] => True | b :: _ => (sd_timestamp a < sd_timestamp b)%Z end →
  mergeBody (twoState merged (a :: ra) lb)
  = inl (twoState (mergeItem merged a) ra lb).
Proof.
  intros Hties Hlt. unfold twoState, twoHeap, mergeBody.
  cbn [heap mergedStrokes iterators tail].
  destruct lb as [|b rb].
  - cbn [Heap.size length]. rewrite pop_one. cbn [lookup list_lookup next].
    destruct ra as [|a2 ra]; cbn [next]; [done|]. by rewrite push_nil.
  - destruct (decide (sd_timestamp a < sd_timestamp b)%Z) as [_|]; [|done].
    cbn [Heap.size length]. rewrite pop_two. cbn [lookup list_lookup next].
    destruct ra as [|a2 ra]; cbn [next tail insert list_insert]; [done|].
    rewrite push_one. cbn [fst].
    apply no_cross_ties_tail_l, no_cross_ties_heads in Hties.
    destruct (decide (sd_timestamp a2 < sd_timestamp b)%Z); done.
Qed.

(** A pass from a two-snapshot state whose least head is in snapshot 1. *)
Lemma twoState_step_r merged la b rb :
  no_cross_ties la (b :: rb) →
  match la with [] => True | a :: _ => (sd_timestamp b < sd_timestamp a)%Z end →
  mergeBody (twoState merged la (b :: rb))
  = inl (twoState (mergeItem merged b) la rb).
Proof.
  intros Hties Hlt. unfold twoState, twoHeap, mergeBody.
  cbn [heap mergedStrokes iterators tail].
  destruct la as [|a ra].
  - cbn [Heap.size length]. rewrite pop_one. cbn [lookup list_lookup next].
    destruct rb as [|b2 rb]; cbn [next]; [done|]. by rewrite push_nil.
  - destruct (decide (sd_timestamp a < sd_timestamp b)%Z) as [|_]; [lia|].
    cbn [Heap.size length]. rewrite pop_two. cbn [lookup list_lookup next].
    destruct rb as [|b2 rb]; cbn [next tail insert list_insert]; [done|].
    rewrite push_one. cbn [fst].
    apply no_cross_ties_tail_r, no_cross_ties_heads in Hties.
    destruct (decide (sd_timestamp b2 < sd_timestamp a)%Z);
      destruct (decide (sd_timestamp a < sd_timestamp b2)%Z); try done; lia.
Qed.

Lemma two_loop n : ∀ la lb merged fuel,
  length la + length lb ≤ n → n < fuel →
  no_cross_ties la lb →
  mergeLoop fuel (twoState merged la lb)
  = Some (foldl mergeItem merged (mergeByTimestamp la lb)).
Proof.
  induction n as [|n IH]; intros la lb merged fuel Hn Hfuel Hties.
  { destruct la, lb; simpl in Hn; try lia. by destruct fuel; [lia|]. }
  destruct fuel as [|fuel]; [lia|]. cbn [mergeLoop].
  destruct la as [|a ra], lb as [|b rb].
  - done.
  - rewrite twoState_step_r by done.
    rewrite IH; [by rewrite !mergeByTimestamp_nil_l|simpl in *; lia|lia|].
    by eapply no_cross_ties_tail_r.
  - rewrite twoState_step_l by done.
    rewrite IH; [by rewrite !mergeByTimestamp_nil_r|simpl in *; lia|lia|].
    by eapply no_cross_ties_tail_l.
  - pose proof (no_cross_ties_heads _ _ _ _ Hties) as Hne.
    rewrite mergeByTimestamp_cons.
    destruct (decide (sd_timestamp a < sd_timestamp b)%Z) as [Hab|Hab].
    + rewrite twoState_step_l by done.
      rewrite IH; [done|simpl in *; lia|lia|].
      by eapply no_cross_ties_tail_l.
    + rewrite twoState_step_r by (done || lia).
      rewrite IH; [done|simpl in *; lia|lia|].
      by eapply no_cross_ties_tail_r.
Qed.

Lemma mergeInit_two (A B : DrawState) :
  no_cross_ties (OrderedMap.values (getStrokeMap A))
                (OrderedMap.values (getStrokeMap B)) →
  mergeInit [A; B]
  = twoState [] (OrderedMap.values (getStrokeMap A))
                (OrderedMap.values (getStrokeMap B)).
Proof.
  intros Hties. unfold mergeInit, twoState, twoHeap. cbn [map pushHeads].
  destruct (OrderedMap.values (getStrokeMap A)) as [|a ra],
           (OrderedMap.values (getStrokeMap B)) as [|b rb]; cbn [next tail];
    rewrite ?push_nil; try done.
  rewrite push_one. cbn [fst].
  apply no_cross_ties_heads in Hties.
  destruct (decide (sd_timestamp b < sd_timestamp a)%Z);
    destruct (decide (sd_timestamp a < sd_timestamp b)%Z); try done; lia.
Qed.

(** The merge of two snapshots without ties across them is the fold of
    their two-way merge by timestamp. *)
Lemma mergeStates_two (A B : DrawState) :
  no_cross_ties (OrderedMap.values (getStrokeMap A))
                (OrderedMap.values (getStrokeMap B)) →
  mergeStates [A; B]
  = Some (foldl mergeItem []
            (mergeByTimestamp (OrderedMap.values (getStrokeMap A))
                              (OrderedMap.values (getStrokeMap B)))).
Proof.
  intros Hties. unfold mergeStates. rewrite mergeInit_two by done.
  apply (two_loop (length (OrderedMap.values (getStrokeMap A))
                   + length (OrderedMap.values (getStrokeMap B))));
    [done| |done].
  unfold mergeFuel, OrderedMap.values. simpl. rewrite !length_fmap. lia.
Qed.

(** C8 (as amended). For every pair of snapshots in which no item of one
    has the timestamp of an item of the other, [mergeStates] returns the
    same map (same entries, same order) for both orders of the pair. *)
Theorem mergeStates_comm (A B : DrawState) :
  no_cross_ties (OrderedMap.values (getStrokeMap A))
                (OrderedMap.values (getStrokeMap B)) →
  mergeStates [A; B] = mergeStates [B; A]
  ∧ is_Some (mergeStates [A; B]).
Proof.
  intros Hties. split; [|apply mergeStates_returns].
  rewrite (mergeStates_two A B Hties).
  rewrite (mergeStates_two B A (no_cross_ties_sym _ _ Hties)).
  by rewrite mergeByTimestamp_comm.
Qed.
End MergeSmall.

(** ** What the merge does with the three kinds of item *)

Section MergeItems.
Implicit Types (st : MergeState) (merged : list (string * Stroke)).

Lemma mergeBody_mergedStrokes st st' x i heap1 :
  mergeBody st = inl st' →
  Heap.pop cmp (heap st) = (Some (x, i), heap1) →
  mergedStrokes st' = mergeItem (mergedStrokes st) x.
Proof.
  intros Hbody Hpop.
  apply mergeBody_inl in Hbody
    as (x' & i' & rest & heap1' & iterator & _ & Hpop' & _ & _ & ->).
  rewrite Hpop' in Hpop. by injection Hpop as -> _ _.
Qed.

Lemma keys_set_present {V} k (v : V) (m : list (string * V)) :
  is_Some (OrderedMap.get k m) →
  OrderedMap.keys (OrderedMap.set k v m) = OrderedMap.keys m.
Proof.
  intros [v0 Hv]. rewrite keys_set.
  destruct (decide (k ∈ OrderedMap.keys m)) as [|Hnin]; [done|].
  apply get_None_keys in Hnin. congruence.
Qed.

(** The MUTATE branch: nothing happens without the origin; with it, the
    payload changes and the keys, their order and the other values do
    not. *)
Lemma mergeItem_MUTATE merged u o p t :
  match OrderedMap.get o merged with
  | None => mergeItem merged (MUTATE u o p t) = merged
  | Some s =>
      OrderedMap.keys (mergeItem merged (MUTATE u o p t)) = OrderedMap.keys merged
      ∧ OrderedMap.get o (mergeItem merged (MUTATE u o p t))
        = Some (mkStroke (uid s) p (timestamp s))
      ∧ ∀ k, k ≠ o →
          OrderedMap.get k (mergeItem merged (MUTATE u o p t))
          = OrderedMap.get k merged
  end.
Proof.
  cbn [mergeItem]. unfold OrderedMap.update.
  destruct (OrderedMap.get o merged) as [s|] eqn:E; [|done].
  split; [by apply keys_set_present|]. split; [apply get_set_eq|].
  intros k Hk. by apply get_set_ne.
Qed.

Lemma mergeItem_output_from (seen : StrokeData → Prop) merged x :
  seen x → output_from seen merged → output_from seen (mergeItem merged x).
Proof.
  intros Hx Hout k s Hin. destruct x as [s1|u1 o1 t1|u1 o1 p1 t1]; cbn [mergeItem] in Hin.
  - apply elem_of_set_inv in Hin as [[= -> ->]|Hin]; [|by apply Hout].
    split; [done|]. eauto.
  - apply elem_of_remove in Hin as [Hin _]. by apply Hout.
  - unfold OrderedMap.update in Hin.
    destruct (OrderedMap.get o1 merged) as [s0|] eqn:E; [|by apply Hout].
    apply elem_of_set_inv in Hin as [[= -> ->]|Hin]; [|by apply Hout].
    apply get_Some_elem_of, Hout in E as [E1 E2]. done.
Qed.

(** C7. When a MUTATE record is popped and its origin is not in the
    output, the output stays as it is; when the origin is there, the keys
    of the output and their order stay and the origin keeps its UID and
    timestamp and gets the new payload. Hence every entry of the map that
    [mergeStates] returns sits under the UID of a STROKE item of one of
    the snapshots. *)
Theorem supersede_never_adds (states : list DrawState) :
  (∀ st st' u o p t i heap1,
      mergeBody st = inl st' →
      Heap.pop cmp (heap st) = (Some (MUTATE u o p t, i), heap1) →
      match OrderedMap.get o (mergedStrokes st) with
      | None => mergedStrokes st' = mergedStrokes st
      | Some s =>
          OrderedMap.keys (mergedStrokes st') = OrderedMap.keys (mergedStrokes st)
          ∧ OrderedMap.get o (mergedStrokes st')
            = Some (mkStroke (uid s) p (timestamp s))
          ∧ ∀ k, k ≠ o →
              OrderedMap.get k (mergedStrokes st')
              = OrderedMap.get k (mergedStrokes st)
      end)
  ∧ ∃ m, mergeStates states = Some m
      ∧ ∀ k s, (k, s) ∈ m →
          uid s = k ∧ ∃ s0, inputItem states (STROKE s0) ∧ uid s0 = k.
Proof.
  split.
  - intros st st' u o p t i heap1 Hbody Hpop.
    rewrite (mergeBody_mergedStrokes _ _ _ _ _ Hbody Hpop).
    apply mergeItem_MUTATE.
  - destruct (mergeStates_returns states) as [m Hm]. exists m. split; [done|].
    unfold mergeStates in Hm.
    apply (mergeLoop_invariant (λ st,
             heads_ok st
             ∧ (∀ y, pending st y → inputItem states y)
             ∧ output_from (inputItem states) (mergedStrokes st))) in Hm
      as (st & (Hok & _ & Hout) & Hexit).
    + by apply mergeBody_inr in Hexit as (_ & -> & _).
    + intros st st' (Hok & Hpend & Hout) Hbody.
      split; [by eapply heads_ok_step|].
      pose proof Hbody
        as (x & i & rest & heap1 & iterator & _ & Hpop & _)%mergeBody_inl.
      destruct (pending_step _ _ _ _ _ Hbody Hpop) as (Hx & Hsub & _).
      split; [by intros y Hy%Hsub%Hpend|].
      rewrite (mergeBody_mergedStrokes _ _ _ _ _ Hbody Hpop).
      apply mergeItem_output_from; [by apply Hpend|done].
    + destruct (mergeInit_spec states) as (Hm0 & Hok & _).
      split; [done|]. split; [by intros y Hy%mergeInit_pending|].
      rewrite Hm0. intros k s Hin. by apply elem_of_nil in Hin.
Qed.
End MergeItems.

(** ** The order of the pops *)

Section PopOrder.
Implicit Types (st : MergeState) (merged : list (string * Stroke)).

Lemma pop_Some_head st x i heap1 :
  Heap.pop cmp (heap st) = (Some (x, i), heap1) →
  ∃ rest, heap st = (x, i) :: rest.
Proof.
  destruct (heap st) as [|e rest]; [done|].
  destruct (pop_cons cmp e rest) as (heap1' & -> & _).
  intros [= -> _]. by exists rest.
Qed.

(** The comparison does not look at the snapshot index of an entry. *)
Lemma cmp_ignores_index (s0 s1 : StrokeData) (i j i' j' : nat) :
  cmp (s0, i) (s1, j) = cmp (s0, i') (s1, j').
Proof. reflexivity. Qed.

(** C2 (as amended). Whenever [mergeStates] pops, on any input and after
    any number of passes, the item popped is in the heap and no entry of
    the heap has a smaller timestamp: the queue is ordered by timestamp.
    (Which of several entries with the least timestamp is popped is
    decided by their places in the heap array, not by the snapshot
    index.) *)
Theorem pop_least_timestamp (states : list DrawState) (n : nat)
    (st : MergeState) (x : StrokeData) (i : nat) (heap1 : list HeapEntry) :
  mergeAfter n (mergeInit states) = Some st →
  Heap.pop cmp (heap st) = (Some (x, i), heap1) →
  (x, i) ∈ heap st
  ∧ ∀ y j, (y, j) ∈ heap st → (sd_timestamp x ≤ sd_timestamp y)%Z.
Proof.
  intros Hst Hpop.
  assert (heads_ok st) as (Hheap & _).
  { eapply (mergeAfter_invariant heads_ok); [apply heads_ok_step| |exact Hst].
    apply mergeInit_spec. }
  destruct (pop_Some_head _ _ _ _ Hpop) as [rest E]. rewrite E in *.
  split; [by left|]. intros y j Hy.
  by apply (heap_root_min entry_ts _ (x, i) (y, j) Hheap).
Qed.

(** *** Snapshots stored in timestamp order *)

Lemma ascending_cons x l :
  ascending (x :: l) = true →
  (∀ y, y ∈ l → (sd_timestamp x ≤ sd_timestamp y)%Z) ∧ ascending l = true.
Proof.
  cbn [ascending]. intros [Hx Hl]%andb_prop. split; [|done].
  intros y Hy. rewrite forallb_forall in Hx.
  apply list_elem_of_In in Hy. specialize (Hx y Hy).
  by apply bool_decide_eq_true in Hx.
Qed.

Lemma ascending_tail l : ascending l = true → ascending (tail l) = true.
Proof. destruct l as [|x l]; [done|]. by intros [_ ?]%ascending_cons. Qed.

Lemma cursors_ascending_init states :
  (∀ ds, ds ∈ states → ascending (OrderedMap.values (getStrokeMap ds)) = true) →
  cursors_ascending (mergeInit states).
Proof.
  intros Hasc. destruct (mergeInit_spec states) as (_ & _ & Hits & Hheap).
  split.
  - intros i l Hl. rewrite Hits, list_lookup_fmap in Hl.
    destruct (_ !! i) as [l0|] eqn:Ei; simplify_eq/=.
    apply values_of_states_lookup in Ei as (ds & Hds & ->).
    by apply ascending_tail, Hasc.
  - intros h i l y [l0 Hl0]%Hheap Hl Hy.
    rewrite Hits, list_lookup_fmap, Hl0 in Hl. injection Hl as <-.
    apply values_of_states_lookup in Hl0 as (ds & Hds & Hl0).
    specialize (Hasc ds Hds). rewrite <- Hl0 in Hasc.
    by apply ascending_cons in Hasc as [Hasc _]; apply Hasc.
Qed.

Lemma cursors_ascending_step st st' :
  cursors_ascending st → mergeBody st = inl st' → cursors_ascending st'.
Proof.
  intros [Hasc Hhead] Hbody.
  apply mergeBody_inl in Hbody
    as (x & i & rest & heap1 & iterator & E & _ & Hperm & Hit & ->).
  pose proof (lookup_lt_Some _ _ _ Hit) as Hi.
  unfold cursors_ascending, mergeNext. cbn [heap iterators]. split.
  - intros j l Hl. destruct (decide (j = i)) as [->|Hji].
    + rewrite list_lookup_insert_eq in Hl by done. injection Hl as <-.
      by apply ascending_tail, (Hasc i).
    + rewrite list_lookup_insert_ne in Hl by done. by apply (Hasc j).
  - intros h j l y Hh Hl Hy.
    assert ((h, j) ∈ rest ∨ ∃ l', iterator = h :: l' ∧ j = i) as [Hrest|Hnew].
    { destruct iterator as [|v l'].
      - left. by rewrite <- Hperm.
      - rewrite (push_Permutation cmp) in Hh.
        apply elem_of_cons in Hh as [[= -> ->]|Hh]; [right; by exists l'|].
        left. by rewrite <- Hperm. }
    + assert ((h, j) ∈ heap st) as Hold by (rewrite E; by right).
      destruct (decide (j = i)) as [->|Hji].
      * rewrite list_lookup_insert_eq in Hl by done. injection Hl as <-.
        apply (Hhead h i iterator y Hold Hit).
        destruct iterator; [done|]. by right.
      * rewrite list_lookup_insert_ne in Hl by done. by eapply Hhead.
    + destruct Hnew as (l' & -> & ->).
      rewrite list_lookup_insert_eq in Hl by done. injection Hl as <-.
      specialize (Hasc i _ Hit). by apply ascending_cons in Hasc as [Hasc _]; apply Hasc.
Qed.

(** With snapshots stored in timestamp order, the item popped is not
    after any item still to come. *)
Lemma popped_least st x i heap1 :
  heads_ok st → cursors_ascending st →
  Heap.pop cmp (heap st) = (Some (x, i), heap1) →
  ∀ y, pending st y → (sd_timestamp x ≤ sd_timestamp y)%Z.
Proof.
  intros (Hheap & _ & Hheads) [_ Hhead] Hpop.
  destruct (pop_Some_head _ _ _ _ Hpop) as [rest E].
  assert (∀ h j, (h, j) ∈ heap st → (sd_timestamp x ≤ sd_timestamp h)%Z) as Hmin.
  { intros h j Hh. rewrite E in Hh, Hheap.
    by apply (heap_root_min entry_ts _ (x, i) (h, j) Hheap). }
  intros y [Hy|(j & l & Hl & Hy)].
  - apply list_elem_of_fmap in Hy as ([h j] & -> & Hh). by eapply Hmin.
  - assert (l ≠ []) as Hne by (intros ->; by apply elem_of_nil in Hy).
    specialize (Hheads j l Hl Hne).
    apply list_elem_of_fmap in Hheads as ([h j'] & -> & Hh).
    pose proof (Hmin _ _ Hh). pose proof (Hhead _ _ _ _ Hh Hl Hy). simpl in *. lia.
Qed.

(** *** Tombstones *)

Lemma mergeItem_HIDE_get merged hideUid u t :
  OrderedMap.get u (mergeItem merged (HIDE hideUid u t)) = None.
Proof.
  cbn [mergeItem]. rewrite get_remove.
  by destruct (decide (u = u)).
Qed.

Lemma mergeItem_absent merged x u :
  OrderedMap.get u merged = None →
  (∀ s, x = STROKE s → uid s ≠ u) →
  OrderedMap.get u (mergeItem merged x) = None.
Proof.
  intros Hu Hx. destruct x as [s|h o t|h o p t]; cbn [mergeItem].
  - rewrite get_set_ne; [done|]. by apply Hx.
  - rewrite get_remove. by destruct (decide (u = o)).
  - unfold OrderedMap.update.
    destruct (OrderedMap.get o merged) as [s|] eqn:E; [|done].
    rewrite get_set_ne; [done|]. congruence.
Qed.

(** A tombstone that comes, in timestamp order, after every stroke with
    the UID it targets leaves no entry for that UID. *)
Lemma tombstone_last (states : list DrawState) (u hideUid : string) (td : Z) :
  (∀ ds, ds ∈ states → ascending (OrderedMap.values (getStrokeMap ds)) = true) →
  inputItem states (HIDE hideUid u td) →
  (∀ s, inputItem states (STROKE s) → uid s = u → (timestamp s < td)%Z) →
  ∃ m, mergeStates states = Some m ∧ OrderedMap.get u m = None.
Proof.
  intros Hasc Hhide Hstrokes.
  destruct (mergeStates_returns states) as [m Hm]. exists m. split; [done|].
  unfold mergeStates in Hm.
  apply (mergeLoop_invariant (λ st,
           heads_ok st ∧ cursors_ascending st
           ∧ (∀ y, pending st y → inputItem states y)
           ∧ (pending st (HIDE hideUid u td)
              ∨ (OrderedMap.get u (mergedStrokes st) = None
                 ∧ ∀ s, pending st (STROKE s) → uid s ≠ u)))) in Hm
    as (st & (Hok & _ & _ & Hphase) & Hexit).
  - apply mergeBody_inr in Hexit as (_ & -> & Hnone); [|done].
    destruct Hphase as [Hp|[Hget _]]; [by apply Hnone in Hp|done].
  - intros st st' (Hok & Hsorted & Hinput & Hphase) Hbody.
    split; [by eapply heads_ok_step|].
    split; [by eapply cursors_ascending_step|].
    pose proof Hbody
      as (x & i & rest & heap1 & iterator & _ & Hpop & _)%mergeBody_inl.
    destruct (pending_step _ _ _ _ _ Hbody Hpop) as (Hx & Hsub & Hrest).
    split; [by intros y Hy%Hsub%Hinput|].
    rewrite (mergeBody_mergedStrokes _ _ _ _ _ Hbody Hpop).
    pose proof (popped_least _ _ _ _ Hok Hsorted Hpop) as Hleast.
    destruct Hphase as [Hp|[Hget Hno]].
    + destruct (Hrest _ Hp) as [<-|Hp']; [|by left].
      right. split; [apply mergeItem_HIDE_get|].
      intros s Hs%Hsub Hu.
      pose proof (Hleast _ Hs) as Hle. simpl in Hle.
      pose proof (Hstrokes s (Hinput _ Hs) Hu). lia.
    + right. split.
      * apply mergeItem_absent; [done|]. intros s ->. by apply Hno.
      * intros s Hs%Hsub. by apply Hno.
  - destruct (mergeInit_spec states) as (Hm0 & Hok & _).
    split; [done|]. split; [by apply cursors_ascending_init|].
    split; [by intros y Hy%mergeInit_pending|].
    left. by apply mergeInit_pending.
Qed.

(** C1 (as amended). A tombstone for [u] removes [u] from the merged
    output when it is popped after every stroke for [u]: whatever the
    number and order of the snapshots, if each stores its items in
    non-decreasing timestamp order and one of them holds a tombstone for
    [u] with a timestamp later than that of every StrokeItem for [u], the
    merged map has no entry for [u]. A tombstone with an earlier timestamp
    than the stroke is popped first and does not remove it: merging a
    snapshot holding the stroke with one holding such a tombstone, in
    either order, returns the stroke. *)
Theorem tombstone_precedence :
  (∀ (states : list DrawState) (u hideUid : string) (td : Z),
     (∀ ds, ds ∈ states → ascending (OrderedMap.values (getStrokeMap ds)) = true) →
     inputItem states (HIDE hideUid u td) →
     (∀ s, inputItem states (STROKE s) → uid s = u → (timestamp s < td)%Z) →
     ∃ m, mergeStates states = Some m ∧ OrderedMap.get u m = None)
  ∧ (∀ (s : Stroke) (hideUid : string) (td : Z),
       (td < timestamp s)%Z →
       mergeStates [snapshot [STROKE s]; snapshot [HIDE hideUid (uid s) td]]
       = Some [(uid s, s)]
       ∧ mergeStates [snapshot [HIDE hideUid (uid s) td]; snapshot [STROKE s]]
         = Some [(uid s, s)]).
Proof.
  split; [exact tombstone_last|].
  intros s hideUid td Hlt.
  assert (no_cross_ties [STROKE s] [HIDE hideUid (uid s) td]) as Hties.
  { repeat constructor. simpl. lia. }
  split.
  - rewrite mergeStates_two by exact Hties.
    cbn [snapshot getStrokeMap getImmutable immutable strokes set_strokes
         OrderedMap.values OrderedMap.of_entries OrderedMap.merge map foldl
         OrderedMap.set fmap list_fmap snd fst].
    rewrite mergeByTimestamp_cons. cbn [sd_timestamp].
    destruct (decide (timestamp s < td)%Z); [lia|].
    cbn. by destruct (decide (uid s = uid s)).
  - rewrite mergeStates_two by (apply no_cross_ties_sym; exact Hties).
    cbn [snapshot getStrokeMap getImmutable immutable strokes set_strokes
         OrderedMap.values OrderedMap.of_entries OrderedMap.merge map foldl
         OrderedMap.set fmap list_fmap snd fst].
    rewrite mergeByTimestamp_cons. cbn [sd_timestamp].
    destruct (decide (td < timestamp s)%Z); [|lia].
    cbn. by destruct (decide (uid s = uid s)).
Qed.
End PopOrder.

(** ** Concrete runs *)

(** C3, on a page with one stroke. *)
Lemma undo_redo_roundtrip_witness :
  getHistoryStack sample_page ≠ []
  ∧ getStrokeMap (redo (undo sample_page)) = [("a", STROKE (mkStroke "a" "p1" 1))].
Proof.
  split; [discriminate|].
  apply (undo_redo_roundtrip sample_page). discriminate.
Defined.

(** C4 as stated fails: on an empty list [eraseStrokes] returns its input,
    undo stack included. *)
Lemma erase_nothing_keeps_undo_stack :
  getUndoStack (eraseStrokes sample_undone [] sample_world).1 ≠ [].
Proof. discriminate. Qed.

(** C4 as amended, after an undo. *)
Lemma undo_stack_after_content_ops_witness :
  getUndoStack sample_undone ≠ []
  ∧ getUndoStack
      (splitStrokes sample_v5 sample_validate sample_undone [("a", ["x"; "y"])])
    = getUndoStack sample_undone
  ∧ getUndoStack (eraseStrokes sample_undone ["a"] sample_world).1 = []
  ∧ getUndoStack (mutateStrokes sample_undone [("a", "q")] None sample_world).1 = []
  ∧ getUndoStack (pushStroke sample_undone (mkStroke "c" "p3" 3)) = [].
Proof.
  split; [discriminate|].
  destruct (undo_stack_after_content_ops sample_v5 sample_validate sample_undone
              [("a", ["x"; "y"])] ["a"] [("a", "q")] None (mkStroke "c" "p3" 3)
              sample_world)
    as (H1 & _ & H2 & H3 & H4); [discriminate..|].
  repeat split; assumption.
Defined.

(** C5, erasing a stroke that is there and one that is not. *)
Lemma eraseStrokes_spec_witness :
  OrderedMap.get "a" (getStrokeMap sample_erased) = None
  ∧ (∃ k t, k ∈ v4_results sample_world (length (hiddenOf sample_page ["a"; "z"]))
       ∧ OrderedMap.get k (getStrokeMap sample_erased) = Some (HIDE k "z" t))
  ∧ getHistoryStack sample_erased
    = getHistoryStack sample_page ++ [getImmutable sample_page]
  ∧ getUndoStack sample_erased = [].
Proof.
  assert (NoDup (v4_results sample_world (length (hiddenOf sample_page ["a"; "z"]))))
    as Hnd.
  { vm_compute. apply NoDup_singleton. }
  assert (∀ k, k ∈ v4_results sample_world (length (hiddenOf sample_page ["a"; "z"])) →
               OrderedMap.get k (getStrokeMap sample_page) = None) as Hfresh.
  { intros k Hk. vm_compute in Hk. apply list_elem_of_singleton in Hk. by subst k. }
  destruct (eraseStrokes_spec sample_page ["a"; "z"] sample_world Hnd Hfresh)
    as [_ Hspec].
  destruct Hspec as (Hgone & Hhide & _ & Hhist & Hundo); [discriminate|].
  split; [|split; [|split]].
  - apply Hgone; [by left|]. by eexists.
  - apply Hhide; [right; by left|done].
  - exact Hhist.
  - exact Hundo.
Defined.

(** C6 as stated fails: loading a flat state whose first supersede record
    for an origin sits under the empty-string UID keeps both records for
    that origin. *)
Lemma load_empty_uid_keeps_two_supersedes :
  ¬ one_supersede_per_origin
      (getStrokeMap
         (loadFromFlat sample_v5 sample_validate sample_flat_empty_uid 1 1
            sample_world).1).
Proof.
  intros H.
  specialize (H "" "" "p" 1%Z "b" "b" "q" 2%Z "o").
  assert (("", MUTATE "" "o" "p" 1) = ("b", MUTATE "b" "o" "q" 2)) as E.
  { apply H; vm_compute; [by left|right; by left]. }
  discriminate E.
Qed.

Lemma sample_flat_wf : wf_flat sample_flat.
Proof.
  split.
  - apply (bool_decide_unpack _). vm_compute. exact I.
  - intros k s Hin Hm. unfold sample_flat in Hin. cbn [flat_strokes] in Hin.
    repeat (apply elem_of_cons in Hin as [[= -> ->]|Hin]; [done|]).
    by apply elem_of_nil in Hin.
Defined.

(** C6 as amended, on a flat state with two supersede records for one
    origin and on the snapshot loaded from it and mutated once more. *)
Lemma supersede_invariant_witness :
  one_supersede_per_origin (getStrokeMap sample_mutated)
  ∧ supersede_ok (getStrokeMap sample_mutated) (getMutationPairs sample_mutated)
  ∧ getStrokeMap sample_loaded
    = [("s", STROKE (mkStroke "s" "p" 1)); ("m2", MUTATE "m2" "x" "r" 3);
       ("m3", MUTATE "m3" "o" "q" 4)].
Proof.
  destruct (supersede_invariant sample_v5 sample_validate) as [Hinv Hload].
  assert (reachable sample_v5 sample_validate sample_mutated) as Hreach.
  { apply reach_mutateStrokes, reach_loadFromFlat, sample_flat_wf. }
  destruct (Hinv sample_mutated Hreach) as (_ & Hok & Hone).
  destruct (Hload sample_flat 1%Qc 1%Qc sample_world sample_flat_wf eq_refl)
    as [Hstrokes _].
  split; [exact Hone|]. split; [exact Hok|].
  unfold sample_loaded. rewrite Hstrokes. reflexivity.
Defined.

(** C1 as stated fails: a tombstone with an earlier timestamp than the
    stroke is popped first, and the stroke is inserted after it. *)
Lemma tombstone_earlier_keeps_stroke :
  ∃ m, mergeStates [sample_stroke; sample_hide_early] = Some m
       ∧ OrderedMap.get "u" m = Some (mkStroke "u" "p" 5).
Proof. eexists. split; reflexivity. Qed.

Lemma sample_ascending :
  ∀ ds, ds ∈ [sample_stroke; sample_hide_late] →
        ascending (OrderedMap.values (getStrokeMap ds)) = true.
Proof.
  intros ds Hds.
  repeat (apply elem_of_cons in Hds as [->|Hds]; [reflexivity|]).
  by apply elem_of_nil in Hds.
Defined.

Lemma sample_hide_late_input :
  inputItem [sample_stroke; sample_hide_late] (HIDE "h" "u" 10).
Proof.
  exists sample_hide_late. split; [right; by left|].
  vm_compute. right. by left.
Defined.

Lemma sample_strokes_before :
  ∀ s, inputItem [sample_stroke; sample_hide_late] (STROKE s) → uid s = "u" →
       (timestamp s < 10)%Z.
Proof.
  intros s (ds & Hds & Hs) Hu.
  repeat (apply elem_of_cons in Hds as [->|Hds];
          [vm_compute in Hs;
           repeat (apply elem_of_cons in Hs as [Hs|Hs]; [by simplify_eq/=|]);
           by apply elem_of_nil in Hs|]).
  by apply elem_of_nil in Hds.
Defined.

(** C1 as amended: the late tombstone removes the stroke, the early one
    does not, in either order. *)
Lemma tombstone_precedence_witness :
  (∃ m, mergeStates [sample_stroke; sample_hide_late] = Some m
        ∧ OrderedMap.get "u" m = None)
  ∧ mergeStates [sample_stroke; sample_hide_early]
    = Some [("u", mkStroke "u" "p" 5)]
  ∧ mergeStates [sample_hide_early; sample_stroke]
    = Some [("u", mkStroke "u" "p" 5)].
Proof.
  destruct tombstone_precedence as [Hlate Hearly]. split.
  - exact (Hlate [sample_stroke; sample_hide_late] "u" "h" 10%Z
             sample_ascending sample_hide_late_input sample_strokes_before).
  - exact (Hearly (mkStroke "u" "p" 5) "h" 3%Z eq_refl).
Defined.

(** The order of storage matters too: a tombstone later than the stroke
    is popped before it when the stroke is stored behind a later item. *)
Example tombstone_later_unsorted :
  mergeStates [sample_unsorted; sample_hide_between]
  = Some [("x", mkStroke "x" "q" 100); ("u", mkStroke "u" "p" 5)].
Proof. reflexivity. Qed.

(** C2 as stated fails: after the first pass on three items with the same
    timestamp, the heap holds the head of snapshot 1 before the head of
    snapshot 0 and pops it first; the map returned is not the one that
    popping by (timestamp, snapshot index) gives. *)
Lemma tie_not_broken_by_index :
  (∃ st heap1,
     mergeAfter 1 (mergeInit [sample_tie_0; sample_tie_1]) = Some st
     ∧ heap st = [(STROKE (mkStroke "b" "q" 1), 1); (HIDE "h" "b" 1, 0)]
     ∧ Heap.pop cmp (heap st) = (Some (STROKE (mkStroke "b" "q" 1), 1), heap1))
  ∧ mergeStates [sample_tie_0; sample_tie_1]
    ≠ Some (mergeByTimestampAndIndex [sample_tie_0; sample_tie_1]).
Proof.
  split.
  - do 2 eexists. split; [reflexivity|]. split; reflexivity.
  - discriminate.
Qed.

(** C2 as amended, at the second pop of that run. *)
Lemma pop_least_timestamp_witness :
  (STROKE (mkStroke "b" "q" 1), 1)
    ∈ [(STROKE (mkStroke "b" "q" 1), 1); (HIDE "h" "b" 1, 0)]
  ∧ (sd_timestamp (STROKE (mkStroke "b" "q" 1)) ≤ sd_timestamp (HIDE "h" "b" 1))%Z.
Proof.
  destruct (pop_least_timestamp [sample_tie_0; sample_tie_1] 1
              (mkMergeState [("a", mkStroke "a" "p" 1)]
                 [(STROKE (mkStroke "b" "q" 1), 1); (HIDE "h" "b" 1, 0)] [[]; []])
              (STROKE (mkStroke "b" "q" 1)) 1 [(HIDE "h" "b" 1, 0)]
              eq_refl eq_refl) as [Hin Hmin].
  split; [exact Hin|]. apply (Hmin _ 0). right. by left.
Defined.

(** C7, on a snapshot with a supersede record for an absent origin and one
    for a stroke. *)
Lemma supersede_never_adds_witness :
  mergeStates [sample_supersedes] = Some [("s", mkStroke "s" "q" 1)]
  ∧ ∃ m, mergeStates [sample_supersedes] = Some m
      ∧ ∀ k s, (k, s) ∈ m →
          uid s = k
          ∧ ∃ s0, inputItem [sample_supersedes] (STROKE s0) ∧ uid s0 = k.
Proof.
  split; [reflexivity|].
  exact (proj2 (supersede_never_adds [sample_supersedes])).
Defined.

(** C8 as stated fails: the two snapshots share the stroke ["u"], items
    with different UIDs have different timestamps, and the order of the
    snapshots decides whether ["u"] survives. *)
Lemma merge_order_matters :
  distinct_timestamps_across_uids
    (OrderedMap.values (getStrokeMap sample_shared_0)
     ++ OrderedMap.values (getStrokeMap sample_shared_1))
  ∧ mergeStates [sample_shared_0; sample_shared_1]
    ≠ mergeStates [sample_shared_1; sample_shared_0].
Proof.
  split; [|discriminate].
  apply (bool_decide_unpack _). vm_compute. exact I.
Qed.

Lemma sample_no_cross_ties :
  no_cross_ties (OrderedMap.values (getStrokeMap sample_left))
                (OrderedMap.values (getStrokeMap sample_right)).
Proof. apply (bool_decide_unpack _). vm_compute. exact I. Defined.

(** C8 as amended, on two snapshots without a timestamp in common. *)
Lemma mergeStates_comm_witness :
  mergeStates [sample_left; sample_right] = mergeStates [sample_right; sample_left]
  ∧ is_Some (mergeStates [sample_left; sample_right]).
Proof. exact (mergeStates_comm sample_left sample_right sample_no_cross_ties). Defined.

(** C10, on a snapshot that stores a tombstone of time 1 after the stroke
    of time 5 it targets: the tombstone takes effect. *)
Example single_snapshot_ignores_timestamps :
  mergeStates [sample_shared_0] = Some [].
Proof. reflexivity. Qed.

(** ** The scenarios of the specification *)

(** Two snapshots, [s1] at time 1 in the first, [s2] at time 2 and a
    tombstone for [s1] at time 3 in the second: only [s2] is left. *)
Example merge_concrete_scenario :
  mergeStates
    [snapshot [STROKE (mkStroke "s1" "p1" 1)];
     snapshot [STROKE (mkStroke "s2" "p2" 2); HIDE "h" "s1" 3]]
  = Some [("s2", mkStroke "s2" "p2" 2)].
Proof. reflexivity. Qed.

(** An empty page; add two strokes, undo, erase the first stroke, flatten:
    no item is left, and neither is anything to redo. *)
Example edit_concrete_scenario :
  let '(ds1, w1) := addStroke (createEmpty (Q2Qc (3 # 2)) (Q2Qc 1000)) "p1" sample_world in
  let '(ds2, w2) := addStroke ds1 "p2" w1 in
  let ds3 := undo ds2 in
  let '(ds4, w4) := eraseStrokes ds3 ["uuid-0"] w2 in
  OrderedMap.keys (getStrokeMap ds2) = ["uuid-0"; "uuid-1"]
  ∧ length (getHistoryStack ds2) = 2
  ∧ OrderedMap.keys (getStrokeMap ds3) = ["uuid-0"]
  ∧ length (getUndoStack ds3) = 1
  ∧ flaten ds4 = mkFlatState [] None
  ∧ getUndoStack ds4 = []
  ∧ redo ds4 = ds4.
Proof. vm_compute. repeat split. Qed.

(* ------------------------------------------------------------------ *)
(** ** Undo and redo around an edit *)

Section HistoryAfterEdit.
Variable v5 : string → string → string.
Variable validate : string → bool.

Lemma undo_after_push (ds ds' : DrawState) :
  getHistoryStack ds' = getHistoryStack ds ++ [getImmutable ds] →
  undo_gives_back ds ds'.
Proof.
  intros Hh. unfold undo_gives_back, undo. rewrite Hh, last_snoc.
  by destruct ds as [[] ? ? ?].
Qed.

(** X1. Undo right after an edit ([pushStroke], or [eraseStrokes],
    [mutateStrokes], [splitStrokes] with a non-empty list) brings back the
    item map, the supersede index and the history stack of the snapshot
    the edit was applied to, and puts the record of the edited snapshot on
    top of the undo stack. *)
Theorem undo_reverts_edit (ds : DrawState) (stroke : Stroke)
    (erased : list string) (mutations : list Mutation) (timestamp : option Z)
    (splitters : list Splitter) (w : World) :
  erased ≠ [] → mutations ≠ [] → splitters ≠ [] →
  undo_gives_back ds (pushStroke ds stroke)
  ∧ undo_gives_back ds (eraseStrokes ds erased w).1
  ∧ undo_gives_back ds (mutateStrokes ds mutations timestamp w).1
  ∧ undo_gives_back ds (splitStrokes v5 validate ds splitters).
Proof.
  intros He Hm Hs. repeat split_and; apply undo_after_push.
  - reflexivity.
  - destruct (eraseStrokes_unfold ds erased w He) as (s' & w' & _ & ->).
    reflexivity.
  - destruct (mutateStrokes_unfold ds mutations timestamp w Hm)
      as (ts & w0 & s' & p' & w' & _ & _ & ->).
    reflexivity.
  - unfold splitStrokes. destruct (decide (length splitters = 0)) as [Hl|_].
    + destruct splitters; [done | discriminate].
    + reflexivity.
Qed.

(** X2. Redo right after an edit. After [pushStroke], and after
    [eraseStrokes] or [mutateStrokes] with a non-empty list, [redo] returns
    the snapshot it is given: the edit has dropped what was undone. After
    [splitStrokes] with a non-empty list, [redo] still brings back the
    record that was undone last before the split, so the split is lost. *)
Theorem redo_after_edit (ds : DrawState) (stroke : Stroke)
    (erased : list string) (mutations : list Mutation) (timestamp : option Z)
    (splitters : list Splitter) (w : World) (undone : DrawStateRecord) :
  erased ≠ [] → mutations ≠ [] → splitters ≠ [] →
  head (getUndoStack ds) = Some undone →
  redo (pushStroke ds stroke) = pushStroke ds stroke
  ∧ redo (eraseStrokes ds erased w).1 = (eraseStrokes ds erased w).1
  ∧ redo (mutateStrokes ds mutations timestamp w).1
    = (mutateStrokes ds mutations timestamp w).1
  ∧ getImmutable (redo (splitStrokes v5 validate ds splitters)) = undone
  ∧ getImmutable (redo ds) = undone.
Proof.
  intros He Hm Hs Hu. repeat split_and.
  - reflexivity.
  - destruct (eraseStrokes_unfold ds erased w He) as (s' & w' & _ & ->).
    reflexivity.
  - destruct (mutateStrokes_unfold ds mutations timestamp w Hm)
      as (ts & w0 & s' & p' & w' & _ & _ & ->).
    reflexivity.
  - unfold splitStrokes. destruct (decide (length splitters = 0)) as [Hl|_].
    + destruct splitters; [done | discriminate].
    + unfold redo, getUndoStack in *. simpl. by rewrite Hu.
  - unfold redo. by rewrite Hu.
Qed.

(** The mutate loop reads the world through [v4()] only. *)
Lemma mutate_loop_world ts muts : ∀ acc wa wb,
  uuids wa = uuids wb → uuid_calls wa = uuid_calls wb →
  (forEachM (mutateOne ts) muts acc wa).1 = (forEachM (mutateOne ts) muts acc wb).1
  ∧ uuid_calls (forEachM (mutateOne ts) muts acc wa).2
    = uuid_calls (forEachM (mutateOne ts) muts acc wb).2.
Proof.
  induction muts as [|[u p] muts IH]; intros [s mp] wa wb Hw Hc; [done|].
  rewrite !forEachM_cons.
  destruct (mutateOne ts (s, mp) (u, p) wa) as [acc1 wa1] eqn:Ea.
  destruct (mutateOne ts (s, mp) (u, p) wb) as [acc2 wb1] eqn:Eb.
  unfold mutateOne, bind, v4, ret in Ea, Eb.
  injection Ea as <- <-. injection Eb as <- <-.
  rewrite Hw, Hc. apply IH; simpl; congruence.
Qed.

(** X3. The operation recorded in [lastOp] replays: pushing the [lastOp] of
    the snapshot an edit returned onto the snapshot the edit was applied
    to, in the same world, gives the same snapshot again and hands out the
    same UUIDs. For [mutateStrokes] without a timestamp this holds because
    the clock reading is stored in the operation. *)
Theorem lastOp_replays (ds : DrawState) (stroke : Stroke)
    (strokeList : list Stroke) (erased : list string)
    (mutations : list Mutation) (timestamp : option Z)
    (splitters : list Splitter) (w : World) :
  erased ≠ [] → mutations ≠ [] → splitters ≠ [] →
  getHistoryStack ds ≠ [] → getUndoStack ds ≠ [] →
  replays v5 validate ds w (pushStroke ds stroke, w)
  ∧ replays v5 validate ds w (pushStrokeList ds strokeList, w)
  ∧ replays v5 validate ds w (eraseStrokes ds erased w)
  ∧ replays v5 validate ds w (mutateStrokes ds mutations timestamp w)
  ∧ replays v5 validate ds w (splitStrokes v5 validate ds splitters, w)
  ∧ replays v5 validate ds w (undo ds, w)
  ∧ replays v5 validate ds w (redo ds, w).
Proof.
  intros He Hm Hs Hh Hu. repeat split_and.
  - by exists (op_add stroke).
  - by exists (op_add_list strokeList).
  - exists (op_erase erased).
    destruct (eraseStrokes_unfold ds erased w He) as (s' & w' & _ & E).
    cbn [pushOperation]. by rewrite E.
  - destruct (mutateStrokes_unfold ds mutations timestamp w Hm)
      as (ts & w0 & s' & p' & w' & Et & Ef & E).
    exists (op_mutate mutations ts). rewrite E. split; [done|].
    cbn [pushOperation].
    destruct (mutateStrokes_unfold ds mutations (Some ts) w Hm)
      as (ts1 & w1 & s1 & p1 & w1' & Et1 & Ef1 & E1).
    rewrite E1. injection Et1 as <- <-.
    assert (uuids w = uuids w0 ∧ uuid_calls w = uuid_calls w0) as [Hw Hc].
    { destruct timestamp; unfold ret, Date_now in Et; by injection Et as <- <-. }
    destruct (mutate_loop_world ts mutations
                (getStrokeMap ds, getMutationPairs ds) w w0 Hw Hc) as [H1 H2].
    rewrite Ef, Ef1 in H1, H2. simpl in H1, H2. injection H1 as -> ->.
    simpl. by rewrite H2.
  - exists (op_split splitters). split; [|done].
    unfold splitStrokes. destruct (decide (length splitters = 0)) as [Hl|_]; [|done].
    destruct splitters; [done | discriminate].
  - exists op_undo. split; [|done]. unfold undo.
    destruct (last (getHistoryStack ds)) eqn:El; [done|].
    by apply last_None in El.
  - exists op_redo. split; [|done]. unfold redo.
    destruct (head (getUndoStack ds)) eqn:El; [done|].
    by apply head_None in El.
Qed.
End HistoryAfterEdit.

(* ------------------------------------------------------------------ *)
(** ** The history is a chain *)

Section HistoryChain.
Variable v5 : string → string → string.
Variable validate : string → bool.

Lemma history_ok_inv r :
  history_ok r →
  Forall history_ok (undoStack r) ∧ Forall history_ok (historyStack r)
  ∧ ∀ i r', historyStack r !! i = Some r' →
            historyStack r' = take i (historyStack r).
Proof. by inversion 1. Qed.

(** An edit that pushes the previous record on the history. *)
Lemma history_ok_step prev s' mp' u' :
  history_ok prev → Forall history_ok u' →
  history_ok (mkRecord s' mp' u' (historyStack prev ++ [prev])).
Proof.
  intros Hprev Hu'. pose proof Hprev as (Hu & Hh & Hc)%history_ok_inv.
  constructor; simpl; [done| |].
  - apply Forall_app. split; [done|]. by constructor.
  - intros i r' Hi. apply lookup_app_Some in Hi as [Hi|[Hle Hi]].
    + rewrite (Hc _ _ Hi). apply lookup_lt_Some in Hi.
      rewrite take_app_le by lia. done.
    + apply list_lookup_singleton_Some in Hi as [Hi <-].
      assert (i = length (historyStack prev)) as -> by lia.
      by rewrite take_app_length.
Qed.

(** An edit that keeps the history. *)
Lemma history_ok_keep r s' mp' u' :
  history_ok r → Forall history_ok u' →
  history_ok (mkRecord s' mp' u' (historyStack r)).
Proof.
  intros (Hu & Hh & Hc)%history_ok_inv Hu'. by constructor.
Qed.

Lemma pushStroke_history_ok ds stroke :
  history_ok (getImmutable ds) → history_ok (getImmutable (pushStroke ds stroke)).
Proof. intros H. by apply history_ok_step. Qed.

Lemma pushStrokeList_history_ok ds strokeList :
  history_ok (getImmutable ds) →
  history_ok (getImmutable (pushStrokeList ds strokeList)).
Proof.
  intros H. apply history_ok_keep; [done|]. by apply history_ok_inv in H as [? _].
Qed.

Lemma eraseStrokes_history_ok ds erased w :
  history_ok (getImmutable ds) →
  history_ok (getImmutable (eraseStrokes ds erased w).1).
Proof.
  intros H. destruct erased as [|e erased]; [done|].
  destruct (eraseStrokes_unfold ds (e :: erased) w) as (s' & w' & _ & ->); [done|].
  by apply history_ok_step.
Qed.

Lemma mutateStrokes_history_ok ds mutations timestamp w :
  history_ok (getImmutable ds) →
  history_ok (getImmutable (mutateStrokes ds mutations timestamp w).1).
Proof.
  intros H. destruct mutations as [|m mutations].
  { by rewrite mutateStrokes_nil. }
  destruct (mutateStrokes_unfold ds (m :: mutations) timestamp w)
    as (ts & w0 & s' & p' & w' & _ & _ & ->); [done|].
  by apply history_ok_step.
Qed.

Lemma splitStrokes_history_ok ds splitters :
  history_ok (getImmutable ds) →
  history_ok (getImmutable (splitStrokes v5 validate ds splitters)).
Proof.
  intros H. unfold splitStrokes.
  destruct (decide (length splitters = 0)) as [_|_]; [done|].
  apply history_ok_step; [done|]. by apply history_ok_inv in H as [? _].
Qed.

Lemma undo_history_ok ds :
  history_ok (getImmutable ds) → history_ok (getImmutable (undo ds)).
Proof.
  intros H. unfold undo.
  destruct (last (getHistoryStack ds)) as [lastRecord|] eqn:El; [|done].
  pose proof H as (Hu & Hh & _)%history_ok_inv.
  assert (history_ok lastRecord) as Hl.
  { rewrite Forall_forall in Hh. apply Hh.
    apply last_Some in El as [l' El]. unfold getHistoryStack in El.
    rewrite El. apply elem_of_app. right. by left. }
  apply history_ok_keep; [done|]. by constructor.
Qed.

Lemma redo_history_ok ds :
  history_ok (getImmutable ds) → history_ok (getImmutable (redo ds)).
Proof.
  intros H. unfold redo.
  destruct (head (getUndoStack ds)) as [nextRecord|] eqn:Eh; [|done].
  apply history_ok_inv in H as (Hu & _).
  unfold getUndoStack in Eh. destruct (undoStack (getImmutable ds)); [done|].
  injection Eh as ->. by apply Forall_cons in Hu as [? _].
Qed.

Lemma pushOperation_history_ok ds op w :
  history_ok (getImmutable ds) →
  history_ok (getImmutable (pushOperation v5 validate ds op w).1).
Proof.
  intros Hprev. destruct op; cbn [pushOperation ret fst].
  - by apply pushStroke_history_ok.
  - by apply pushStrokeList_history_ok.
  - by apply eraseStrokes_history_ok.
  - by apply mutateStrokes_history_ok.
  - by apply splitStrokes_history_ok.
  - by apply undo_history_ok.
  - by apply redo_history_ok.
  - done.
Qed.

Lemma replay_history_ok operations : ∀ ds w,
  history_ok (getImmutable ds) →
  history_ok (getImmutable
    (forEachM (pushOperation v5 validate) operations ds w).1).
Proof.
  induction operations as [|op operations IH]; intros ds w Hok; [done|].
  rewrite forEachM_cons.
  destruct (pushOperation v5 validate ds op w) as [ds1 w1] eqn:E.
  apply IH. change ds1 with (ds1, w1).1. rewrite <- E.
  by apply pushOperation_history_ok.
Qed.

Lemma loadFromFlat_history_ok flat ratio width w :
  history_ok (getImmutable (loadFromFlat v5 validate flat ratio width w).1).
Proof.
  rewrite loadFromFlat_unfold. cbn zeta.
  assert (history_ok (getImmutable
    (loadFromFlat v5 validate (mkFlatState (flat_strokes flat) None) ratio width w).1))
    as H0.
  { unfold loadFromFlat. simpl.
    destruct (foldl _ _ _) as [s mp]. simpl.
    constructor; simpl; [done|done|]. intros i r' Hi. by destruct i. }
  destruct (flat_operations flat) as [operations|]; [|done].
  by apply replay_history_ok.
Qed.

Lemma reachable_history_ok ds :
  reachable v5 validate ds → history_ok (getImmutable ds).
Proof.
  induction 1.
  - constructor; simpl; [done|done|]. intros i r' Hi. by destruct i.
  - apply loadFromFlat_history_ok.
  - by apply pushStroke_history_ok.
  - unfold addStrokeList, bind, Date_now.
    destruct (mapM _ pathDataList _) as [strokeList w'].
    by apply pushStrokeList_history_ok.
  - by apply pushStroke_history_ok.
  - by apply pushStrokeList_history_ok.
  - by apply eraseStrokes_history_ok.
  - by apply mutateStrokes_history_ok.
  - by apply splitStrokes_history_ok.
  - by apply undo_history_ok.
  - by apply redo_history_ok.
  - by apply pushOperation_history_ok.
Qed.

(** One undo, when there is a history. *)
Lemma undo_history ds :
  history_ok (getImmutable ds) → getHistoryStack ds ≠ [] →
  ∃ r, last (getHistoryStack ds) = Some r
       ∧ getImmutable (undo ds)
         = set_undoStack (getImmutable ds :: getUndoStack ds) r
       ∧ getHistoryStack (undo ds)
         = take (length (getHistoryStack ds) - 1) (getHistoryStack ds).
Proof.
  intros (_ & _ & Hc)%history_ok_inv Hne. unfold undo.
  destruct (last (getHistoryStack ds)) as [r|] eqn:El.
  2: { by apply last_None in El. }
  exists r. split; [done|]. split; [done|].
  unfold getHistoryStack in *. simpl. rewrite Nat.sub_1_r. apply Hc.
  by rewrite <- last_lookup.
Qed.

Lemma undo_iter n : ∀ ds r,
  history_ok (getImmutable ds) →
  S n ≤ length (getHistoryStack ds) →
  getHistoryStack ds !! (length (getHistoryStack ds) - S n) = Some r →
  ∃ u, getImmutable (Nat.iter (S n) undo ds) = set_undoStack u r
       ∧ length u = S n + length (getUndoStack ds)
       ∧ getHistoryStack (Nat.iter (S n) undo ds)
         = take (length (getHistoryStack ds) - S n) (getHistoryStack ds).
Proof.
  induction n as [|n IH]; intros ds r Hok Hle Hr.
  - destruct (undo_history ds Hok) as (r' & El & E & Eh).
    { intros E. rewrite E in Hle. simpl in Hle. lia. }
    rewrite last_lookup in El.
    rewrite Nat.sub_1_r in Hr. rewrite Hr in El. injection El as <-.
    exists (getImmutable ds :: getUndoStack ds). simpl. done.
  - rewrite Nat.iter_succ_r.
    destruct (undo_history ds Hok) as (r' & El & E & Eh).
    { intros E. rewrite E in Hle. simpl in Hle. lia. }
    set (h := getHistoryStack ds) in *.
    assert (length (getHistoryStack (undo ds)) = length h - 1) as Hlen.
    { rewrite Eh, length_take. lia. }
    destruct (IH (undo ds) r) as (u & Eu & Hu & Ehu).
    + by apply undo_history_ok.
    + lia.
    + rewrite Hlen, Eh, lookup_take_lt by lia.
      rewrite <- Hr. f_equal. lia.
    + exists u. split; [done|]. split.
      * rewrite Hu. unfold getUndoStack at 1. rewrite E. simpl. lia.
      * rewrite Ehu, Hlen, Eh, take_take. f_equal. lia.
Qed.

(** X4. Repeated undo walks back along the history: on a reachable
    snapshot with at least [n] history entries, [n > 0] undos bring back
    the item map and the supersede index of the [n]-th entry from the end
    of the history stack, leave the entries before it as the history, and
    grow the undo stack by [n]. *)
Theorem undo_walks_back (ds : DrawState) (n : nat) (r : DrawStateRecord) :
  reachable v5 validate ds →
  0 < n → n ≤ length (getHistoryStack ds) →
  getHistoryStack ds !! (length (getHistoryStack ds) - n) = Some r →
  getStrokeMap (Nat.iter n undo ds) = strokes r
  ∧ getMutationPairs (Nat.iter n undo ds) = mutationPairs r
  ∧ getHistoryStack (Nat.iter n undo ds)
    = take (length (getHistoryStack ds) - n) (getHistoryStack ds)
  ∧ length (getUndoStack (Nat.iter n undo ds)) = n + length (getUndoStack ds).
Proof.
  intros Hreach Hn Hle Hr. destruct n as [|n]; [lia|].
  destruct (undo_iter n ds r (reachable_history_ok ds Hreach) Hle Hr)
    as (u & E & Hu & Eh).
  unfold getStrokeMap, getMutationPairs, getUndoStack. rewrite E.
  by repeat split.
Qed.

Lemma redo_record ds ds' :
  getImmutable ds = getImmutable ds' →
  getImmutable (redo ds) = getImmutable (redo ds').
Proof.
  unfold redo, getUndoStack. intros E. rewrite E.
  by destruct (head (undoStack (getImmutable ds'))).
Qed.

Lemma undo_redo_iter n : ∀ ds,
  history_ok (getImmutable ds) → n ≤ length (getHistoryStack ds) →
  getImmutable (Nat.iter n redo (Nat.iter n undo ds)) = getImmutable ds.
Proof.
  induction n as [|n IH]; intros ds Hok Hle; [done|].
  rewrite (Nat.iter_succ_r n undo), Nat.iter_succ.
  destruct (undo_history ds Hok) as (r' & El & E & Eh).
  { intros E. rewrite E in Hle. simpl in Hle. lia. }
  rewrite (redo_record _ (undo ds)).
  - unfold redo, getUndoStack. by rewrite E.
  - apply IH; [by apply undo_history_ok|]. rewrite Eh, length_take. lia.
Qed.

(** X5. On a reachable snapshot with at least [n] history entries, [n]
    undos followed by [n] redos give back the record the snapshot had:
    item map, supersede index and both stacks. *)
Theorem undo_redo_n_roundtrip (ds : DrawState) (n : nat) :
  reachable v5 validate ds → n ≤ length (getHistoryStack ds) →
  getImmutable (Nat.iter n redo (Nat.iter n undo ds)) = getImmutable ds.
Proof.
  intros Hreach Hle. apply undo_redo_iter; [|done].
  by apply reachable_history_ok.
Qed.
End HistoryChain.

(* ------------------------------------------------------------------ *)
(** ** The exact result of adding and erasing *)

Section AddErase.

Lemma set_fresh {V} k (v : V) (m : list (string * V)) :
  k ∉ OrderedMap.keys m → OrderedMap.set k v m = m ++ [(k, v)].
Proof.
  induction m as [|[k' v'] m IH]; intros Hk; [done|]. simpl.
  unfold OrderedMap.keys in Hk. rewrite fmap_cons, not_elem_of_cons in Hk.
  destruct Hk as [Hne Hk]. simpl in Hne.
  destruct (decide (k' = k)) as [->|_]; [done|]. by rewrite IH.
Qed.

Lemma filter_all {A} (P : A → Prop) `{!∀ x, Decision (P x)} (l : list A) :
  (∀ x, x ∈ l → P x) → filter P l = l.
Proof.
  induction l as [|x l IH]; intros Hall; [done|].
  rewrite filter_cons_True by (apply Hall; by left).
  f_equal. apply IH. intros y Hy. apply Hall. by right.
Qed.

Lemma remove_filter {V} k (m : list (string * V)) :
  OrderedMap.remove k m = filter (λ e, e.1 ∉ [k]) m.
Proof.
  unfold OrderedMap.remove. apply list_filter_iff. intros [k' v]. simpl.
  rewrite list_elem_of_singleton. done.
Qed.

Lemma deleteAll_filter {V} ks (m : list (string * V)) :
  OrderedMap.deleteAll ks m = filter (λ e, e.1 ∉ ks) m.
Proof.
  revert m. induction ks as [|k ks IH]; intros m.
  - simpl. symmetry. apply filter_all. intros e _. apply not_elem_of_nil.
  - unfold OrderedMap.deleteAll in *. simpl. rewrite IH.
    unfold OrderedMap.remove. rewrite list_filter_filter.
    apply list_filter_iff. intros [k' v]. simpl.
    rewrite not_elem_of_cons. tauto.
Qed.

Lemma remove_absent {V} k (m : list (string * V)) :
  k ∉ OrderedMap.keys m → OrderedMap.remove k m = m.
Proof.
  intros Hk. unfold OrderedMap.remove. apply filter_all.
  intros [k' v] Hin. simpl. intros ->.
  apply Hk. by eapply elem_of_keys.
Qed.

Lemma v4_results_cons w w' n :
  uuids w' = uuids w → uuid_calls w' = S (uuid_calls w) →
  v4_results w (S n) = uuids w (uuid_calls w) :: v4_results w' n.
Proof.
  intros Hu Hc. unfold v4_results. rewrite Hu, Hc.
  cbn [seq map]. rewrite Nat.add_0_r. f_equal.
  rewrite <- seq_shift, map_map. apply map_ext. intros i. f_equal. lia.
Qed.

Lemma advance_advance w n m n' m' :
  advance (advance w n m) n' m' = advance w (n' + n) (m' + m).
Proof. unfold advance. simpl. f_equal; lia. Qed.

Lemma v4_advance w : v4 w = (uuids w (uuid_calls w), advance w 1 0).
Proof. reflexivity. Qed.

Lemma Date_now_advance w : Date_now w = (clock w (clock_calls w), advance w 0 1).
Proof. reflexivity. Qed.

(** X6. [addStroke] with a UUID that is not on the page appends the new
    stroke, stamped with the clock reading, after all entries of the item
    map; the stroke is then the last stroke, [hasStroke] finds it, the
    page is not empty, the other UIDs are found as before, and one UUID
    and one clock reading are used up. *)
Theorem addStroke_appends (ds : DrawState) (pathData : string) (w : World) :
  let u := uuids w (uuid_calls w) in
  let s := mkStroke u pathData (clock w (clock_calls w)) in
  let ds' := (addStroke ds pathData w).1 in
  u ∉ OrderedMap.keys (getStrokeMap ds) →
  getStrokeMap ds' = getStrokeMap ds ++ [(u, STROKE s)]
  ∧ getLastStroke ds' = Some (STROKE s)
  ∧ hasStroke ds' u = true
  ∧ isEmpty ds' = false
  ∧ (∀ k, k ≠ u → hasStroke ds' k = hasStroke ds k)
  ∧ (addStroke ds pathData w).2 = advance w 1 1.
Proof.
  intros u s ds' Hu.
  assert (addStroke ds pathData w = (pushStroke ds s, advance w 1 1)) as E.
  { unfold addStroke, bind, ret. rewrite v4_advance, Date_now_advance.
    by rewrite advance_advance. }
  assert (getStrokeMap ds' = getStrokeMap ds ++ [(u, STROKE s)]) as Es.
  { unfold ds'. rewrite E. unfold pushStroke, getStrokeMap. simpl.
    by apply set_fresh. }
  split; [done|]. split; [|split; [|split; [|split]]].
  - unfold getLastStroke, OrderedMap.values. rewrite Es, fmap_app. simpl.
    by rewrite last_snoc.
  - apply has_true. unfold ds'. rewrite E. unfold pushStroke, getStrokeMap.
    simpl. rewrite get_set_eq. by eexists.
  - unfold isEmpty. rewrite Es, length_app. simpl.
    apply bool_decide_eq_false. lia.
  - intros k Hk. unfold hasStroke, OrderedMap.has. unfold ds'. rewrite E.
    unfold pushStroke, getStrokeMap. simpl. by rewrite get_set_ne.
  - by rewrite E.
Qed.

Lemma newStrokes_loop ts pathDataList : ∀ w,
  mapM (λ pathData, let! uid := v4 in ret (mkStroke uid pathData ts))
    pathDataList w
  = (newStrokes w ts pathDataList, advance w (length pathDataList) 0).
Proof.
  induction pathDataList as [|p l IH]; intros w.
  - unfold newStrokes, advance, ret. simpl. by destruct w.
  - cbn [mapM]. unfold bind at 1. unfold bind at 1. rewrite v4_advance.
    unfold ret at 1. unfold bind at 1. rewrite IH. unfold ret.
    rewrite advance_advance. cbn [length].
    replace (length l + 1) with (S (length l)) by lia. f_equal.
    unfold newStrokes. cbn [length].
    by rewrite (v4_results_cons w (advance w 1 0)) by done.
Qed.

Lemma keys_newStrokes w ts pathDataList :
  OrderedMap.keys (map (λ s, (uid s, STROKE s)) (newStrokes w ts pathDataList))
  = v4_results w (length pathDataList).
Proof.
  unfold OrderedMap.keys, newStrokes.
  rewrite <- list_fmap_compose.
  assert (length (v4_results w (length pathDataList)) = length pathDataList) as Hlen.
  { unfold v4_results. by rewrite length_map, length_seq. }
  revert Hlen. generalize (v4_results w (length pathDataList)).
  induction pathDataList as [|p l IH]; intros [|k ks] Hlen; try done.
  simpl. f_equal. apply IH. simpl in Hlen. lia.
Qed.

(** X7. [addStrokeList] with UUIDs that are fresh for the page appends one
    stroke per payload, in the order of the payloads, under the next
    UUIDs; all of them carry the one clock reading taken on entry. The
    history and undo stacks are left as they are, so the list is not an
    undo step of its own. *)
Theorem addStrokeList_appends (ds : DrawState) (pathDataList : list string)
    (w : World) :
  let n := length pathDataList in
  let new := newStrokes w (clock w (clock_calls w)) pathDataList in
  let ds' := (addStrokeList ds pathDataList w).1 in
  NoDup (OrderedMap.keys (getStrokeMap ds)) →
  fresh_uids ds w n →
  getStrokeMap ds' = getStrokeMap ds ++ map (λ s, (uid s, STROKE s)) new
  ∧ Forall (λ s, timestamp s = clock w (clock_calls w)) new
  ∧ map pathData new = pathDataList
  ∧ map uid new = v4_results w n
  ∧ getHistoryStack ds' = getHistoryStack ds
  ∧ getUndoStack ds' = getUndoStack ds
  ∧ (addStrokeList ds pathDataList w).2 = advance w n 1.
Proof.
  intros n new ds' Hnd [Hfresh Hnew].
  assert (addStrokeList ds pathDataList w = (pushStrokeList ds new, advance w n 1)) as E.
  { unfold addStrokeList. unfold bind at 1. rewrite Date_now_advance.
    unfold bind at 1. rewrite newStrokes_loop.
    unfold ret. rewrite advance_advance. unfold n, new.
    f_equal. unfold advance. f_equal; lia. }
  change (newStrokes w) with (newStrokes (advance w 0 1)) in new.
  assert (v4_results (advance w 0 1) n = v4_results w n) as Ev.
  { reflexivity. }
  assert (length (v4_results w n) = n) as Hlen.
  { unfold v4_results. by rewrite length_map, length_seq. }
  unfold ds'. rewrite E. cbn [fst snd]. repeat split_and; try done.
  - unfold pushStrokeList, getStrokeMap. simpl. apply merge_fresh.
    unfold OrderedMap.keys. rewrite fmap_app.
    pose proof (keys_newStrokes (advance w 0 1) (clock w (clock_calls w))
                  pathDataList) as Ek.
    unfold OrderedMap.keys in Ek. fold new in Ek. rewrite Ek. fold n. rewrite Ev.
    apply NoDup_app. split; [done|]. split; [|done].
    intros k Hk Hk'. by apply (Hnew k Hk').
  - unfold new, newStrokes. fold n. rewrite Ev. clear -Hlen. unfold n in *.
    revert Hlen. generalize (v4_results w (length pathDataList)).
    induction pathDataList as [|p l IH]; intros [|k ks] Hlen; try done.
    simpl. constructor; [done|]. apply IH. simpl in Hlen. lia.
  - unfold new, newStrokes. fold n. rewrite Ev. clear -Hlen. unfold n in *.
    revert Hlen. generalize (v4_results w (length pathDataList)).
    induction pathDataList as [|p l IH]; intros [|k ks] Hlen; try done.
    simpl. f_equal. apply IH. simpl in Hlen. lia.
  - unfold new, newStrokes. fold n. rewrite Ev. clear -Hlen. unfold n in *.
    revert Hlen. generalize (v4_results w (length pathDataList)).
    induction pathDataList as [|p l IH]; intros [|k ks] Hlen; try done.
    simpl. f_equal. apply IH. simpl in Hlen. lia.
Qed.

Lemma hide_loop_shape hidden : ∀ strokes w,
  NoDup (v4_results w (length hidden)) →
  (∀ k, k ∈ v4_results w (length hidden) → k ∉ OrderedMap.keys strokes) →
  forEachM hideOne hidden strokes w
  = (strokes ++ tombstones w hidden, advance w (length hidden) (length hidden)).
Proof.
  induction hidden as [|h hidden IH]; intros strokes w Hnd Hfresh.
  - unfold tombstones, advance, ret. simpl. rewrite app_nil_r. by destruct w.
  - rewrite forEachM_cons. unfold hideOne at 1. unfold bind, ret.
    rewrite v4_advance, Date_now_advance, advance_advance.
    cbn [length] in *.
    rewrite (v4_results_cons w (advance w (0 + 1) (1 + 0))) in Hnd, Hfresh by done.
    apply NoDup_cons in Hnd as [Hk0 Hnd].
    rewrite set_fresh by (apply Hfresh; by left).
    rewrite IH; [| done |].
    + rewrite advance_advance, <- app_assoc. f_equal.
      * f_equal. unfold tombstones. rewrite imap_cons. simpl.
        rewrite !Nat.add_0_r. f_equal. apply imap_ext. intros i x _. simpl.
        by rewrite !Nat.add_succ_r.
      * unfold advance. f_equal; lia.
    + intros k Hk. unfold OrderedMap.keys. rewrite fmap_app, elem_of_app.
      intros [Hin|Hin].
      * revert Hin. apply Hfresh. by right.
      * simpl in Hin. apply list_elem_of_singleton in Hin as ->. done.
Qed.

(** X8. The exact item map after [eraseStrokes] on a non-empty list, when
    the UUIDs handed out are fresh: the entries whose UID is not listed,
    in their order, followed by one tombstone per listed UID that was not
    on the page, in the order of the list, each under the next UUID and
    with the next clock reading. Exactly that many UUIDs and clock
    readings are used up. *)
Theorem eraseStrokes_shape (ds : DrawState) (erased : list string) (w : World) :
  let hidden := hiddenOf ds erased in
  erased ≠ [] →
  fresh_uids ds w (length hidden) →
  getStrokeMap (eraseStrokes ds erased w).1
  = filter (λ e, e.1 ∉ erased) (getStrokeMap ds) ++ tombstones w hidden
  ∧ (eraseStrokes ds erased w).2 = advance w (length hidden) (length hidden).
Proof.
  intros hidden Hne [Hnd Hfresh].
  destruct (eraseStrokes_unfold ds erased w Hne) as (s' & w' & Eloop & ->).
  fold hidden in Eloop. rewrite hide_loop_shape in Eloop; [| done |].
  - injection Eloop as <- <-. simpl. by rewrite deleteAll_filter.
  - intros k Hk Hin. apply (Hfresh k Hk).
    unfold OrderedMap.keys in *. apply list_elem_of_fmap in Hin as ([k' v] & -> & Hin).
    rewrite deleteAll_filter in Hin. apply list_elem_of_filter in Hin as [_ Hin].
    apply list_elem_of_fmap. by exists (k', v).
Qed.

(** X9. Adding a stroke under a UID that is not on the page and erasing
    that UID again gives back the item map as it was: the stroke is
    deleted, no tombstone is written, and no UUID or clock reading is used.
    The history has grown by the two edits. *)
Theorem erase_after_add (ds : DrawState) (stroke : Stroke) (w : World) :
  uid stroke ∉ OrderedMap.keys (getStrokeMap ds) →
  getStrokeMap (eraseStrokes (pushStroke ds stroke) [uid stroke] w).1
  = getStrokeMap ds
  ∧ getMutationPairs (eraseStrokes (pushStroke ds stroke) [uid stroke] w).1
    = getMutationPairs ds
  ∧ (eraseStrokes (pushStroke ds stroke) [uid stroke] w).2 = w
  ∧ getHistoryStack (eraseStrokes (pushStroke ds stroke) [uid stroke] w).1
    = getHistoryStack ds ++ [getImmutable ds; getImmutable (pushStroke ds stroke)].
Proof.
  intros Hu.
  destruct (eraseStrokes_unfold (pushStroke ds stroke) [uid stroke] w)
    as (s' & w' & Eloop & ->); [done|].
  assert (hiddenOf (pushStroke ds stroke) [uid stroke] = []) as Eh.
  { unfold hiddenOf, pushStroke, getStrokeMap. simpl.
    rewrite filter_cons_False; [done|].
    intros Hn. apply Hn. apply Is_true_true, has_true.
    rewrite get_set_eq. by eexists. }
  rewrite Eh in Eloop. injection Eloop as <- <-. simpl.
  split; [|split; [done|split; [done|]]].
  - unfold pushStroke, getStrokeMap. simpl. rewrite set_fresh by done.
    unfold OrderedMap.deleteAll. simpl. unfold OrderedMap.remove.
    rewrite filter_app, filter_cons_False, filter_nil, app_nil_r by (simpl; tauto).
    apply filter_all. intros [k v] Hin. simpl. intros ->.
    apply Hu. by eapply elem_of_keys.
  - unfold getHistoryStack. simpl. by rewrite <- app_assoc.
Qed.
End AddErase.

(* ------------------------------------------------------------------ *)
(** ** The exact result of mutating *)

Section Mutate.

Lemma supersedes_cons w ts u p rest :
  supersedes w ts ((u, p) :: rest)
  = (uuids w (uuid_calls w), MUTATE (uuids w (uuid_calls w)) u p ts)
    :: supersedes (advance w 1 0) ts rest.
Proof.
  unfold supersedes. rewrite imap_cons. simpl. rewrite Nat.add_0_r. f_equal.
  apply imap_ext. intros i x _. simpl. by rewrite Nat.add_succ_r.
Qed.

Lemma replaced_not_fresh (mp : gmap string string) mutations k :
  k ≠ "" → (∀ o, mp !! o ≠ Some k) → k ∉ replaced mp mutations.
Proof.
  intros Hne Hmp Hin. unfold replaced in Hin.
  apply list_elem_of_fmap in Hin as (m & -> & _).
  destruct (mp !! m.1) as [x|] eqn:E; simpl in *; [|done].
  by apply (Hmp m.1).
Qed.

Lemma mutate_loop_shape ts (mutations : list Mutation) : ∀ s mp w,
  NoDup mutations.*1 →
  NoDup (v4_results w (length mutations)) →
  (∀ k, k ∈ v4_results w (length mutations) →
        k ≠ "" ∧ (k ∉ OrderedMap.keys s) ∧ (∀ o, mp !! o ≠ Some k)) →
  forEachM (mutateOne ts) mutations (s, mp) w
  = ((filter (λ e, e.1 ∉ replaced mp mutations) s ++ supersedes w ts mutations,
      list_to_map (zip mutations.*1 (v4_results w (length mutations))) ∪ mp),
     advance w (length mutations) 0).
Proof.
  induction mutations as [|[u p] rest IH]; intros s mp w Hno Hnd Hfresh.
  - unfold supersedes, replaced, advance, ret. simpl.
    rewrite app_nil_r, (left_id_L ∅ (∪)).
    rewrite filter_all by (intros; apply not_elem_of_nil). by destruct w.
  - rewrite forEachM_cons. unfold mutateOne at 1. unfold bind, ret.
    rewrite v4_advance. cbn [length] in *.
    rewrite (v4_results_cons w (advance w 1 0)) in Hnd, Hfresh by done.
    rewrite (v4_results_cons w (advance w 1 0)) by done.
    set (k0 := uuids w (uuid_calls w)) in *.
    apply NoDup_cons in Hnd as [Hk0 Hnd].
    rewrite fmap_cons in Hno. apply NoDup_cons in Hno as [Hu Hno]. simpl in Hu.
    destruct (Hfresh k0) as (Hk0e & Hk0s & Hk0m); [by left|].
    set (pv := default "" (mp !! u)).
    assert (k0 ≠ pv) as Hpv.
    { unfold pv. destruct (mp !! u) as [x|] eqn:E; simpl; [|done].
      intros ->. by apply (Hk0m u). }
    assert (OrderedMap.remove pv
              (OrderedMap.set k0 (MUTATE k0 u p ts) s)
            = filter (λ e, e.1 ≠ pv) s ++ [(k0, MUTATE k0 u p ts)]) as Es1.
    { rewrite set_fresh by done. unfold OrderedMap.remove.
      rewrite filter_app. f_equal. apply filter_all.
      by intros e ->%list_elem_of_singleton. }
    rewrite Es1. rewrite IH; [| done | done |].
    + assert (replaced (<[u:=k0]> mp) rest = replaced mp rest) as ->.
      { unfold replaced. apply map_ext_in. intros [o q] Hin. simpl.
        rewrite lookup_insert_ne; [done|]. intros ->. apply Hu.
        apply list_elem_of_fmap. exists (o, q). split; [done|].
        by apply list_elem_of_In. }
      rewrite supersedes_cons. fold k0. f_equal; [f_equal|].
      * rewrite filter_app, <- app_assoc.
        rewrite (filter_all _ [_]).
        2: { intros e ->%list_elem_of_singleton. simpl.
             by apply replaced_not_fresh. }
        simpl. f_equal.
        rewrite list_filter_filter. apply list_filter_iff. intros [k v]. simpl.
        unfold replaced. cbn [map]. fold pv.
        rewrite not_elem_of_cons. tauto.
      * simpl. rewrite <- insert_union_l. symmetry. apply insert_union_r.
        apply not_elem_of_list_to_map_1. intros Hin. apply Hu.
        apply list_elem_of_fmap in Hin as ([o k] & -> & Hin).
        by apply elem_of_zip_l in Hin.
      * rewrite advance_advance. unfold advance. f_equal; lia.
    + intros k Hk. destruct (Hfresh k) as (Hke & Hks & Hkm); [by right|].
      split; [done|]. split.
      * unfold OrderedMap.keys. rewrite fmap_app, elem_of_app.
        intros [Hin|Hin].
        -- apply Hks. apply list_elem_of_fmap in Hin as (e & -> & Hin).
           apply list_elem_of_filter in Hin as [_ Hin].
           apply list_elem_of_fmap. by exists e.
        -- simpl in Hin. apply list_elem_of_singleton in Hin as ->. done.
      * intros o. destruct (decide (o = u)) as [->|Hou].
        -- rewrite lookup_insert_eq. intros [= ->]. done.
        -- rewrite lookup_insert_ne by done. apply Hkm.
Qed.

(** X10. The exact result of [mutateStrokes] on a non-empty list of
    mutations with distinct origins, when the UUIDs handed out are fresh:
    the item map loses the previous supersede record of every mutated
    origin (and whatever sits under the empty-string key, when an origin
    had none), keeps the other entries in their order, and ends with one
    new supersede record per mutation, in the order of the list, all with
    the one timestamp of the call; the supersede index maps every mutated
    origin to its new record and is otherwise unchanged. *)
Theorem mutateStrokes_shape (ds : DrawState) (mutations : list Mutation)
    (timestamp : option Z) (w : World) :
  let n := length mutations in
  let ts := match timestamp with
            | Some t => t
            | None => clock w (clock_calls w)
            end in
  let ds' := (mutateStrokes ds mutations timestamp w).1 in
  mutations ≠ [] →
  NoDup mutations.*1 →
  fresh_for_mutate ds w n →
  getStrokeMap ds'
  = filter (λ e, e.1 ∉ replaced (getMutationPairs ds) mutations) (getStrokeMap ds)
    ++ supersedes w ts mutations
  ∧ getMutationPairs ds'
    = list_to_map (zip mutations.*1 (v4_results w n)) ∪ getMutationPairs ds
  ∧ lastOp ds' = Some (op_mutate mutations ts)
  ∧ (mutateStrokes ds mutations timestamp w).2
    = advance w n (match timestamp with Some _ => 0 | None => 1 end).
Proof.
  intros n ts ds' Hne Hno [[Hnd Hkeys] Hfresh].
  destruct (mutateStrokes_unfold ds mutations timestamp w Hne)
    as (ts' & w0 & s' & p' & w' & Et & Eloop & E).
  assert (ts' = ts ∧ w0 = advance w 0 (match timestamp with Some _ => 0 | None => 1 end))
    as [-> ->].
  { unfold ts. destruct timestamp; unfold ret in Et; [|rewrite Date_now_advance in Et];
      injection Et as <- <-; [by destruct w | done]. }
  rewrite mutate_loop_shape in Eloop; [| done | done |].
  - injection Eloop as <- <- <-. unfold ds'. rewrite E. simpl.
    repeat split_and; done.
  - intros k Hk. destruct (Hfresh k Hk) as [Hke Hkm].
    split; [done|]. split; [|done]. by apply Hkeys.
Qed.
End Mutate.

(* ------------------------------------------------------------------ *)
(** ** The exact result of splitting *)

Section Split.
Variable v5 : string → string → string.
Variable validate : string → bool.

(** X11. The pieces of one origin. When the namespace of the origin (its
    UID, or for a UID that is not a UUID its v5 UUID under [NIL]) is a
    valid UUID, piece [i] of the origin is a stroke under
    [v5(String(i), namespace)] with the payload given and the timestamp of
    the origin: the UID of a legacy origin is upgraded once and all its
    pieces are named in the same namespace. *)
Theorem splitEntries_namespace (stroke : StrokeData) (prevUid : string)
    (index : nat) (splitStrokes : list string) :
  validate (splitNamespace v5 validate prevUid) = true →
  splitEntries v5 validate stroke prevUid index splitStrokes
  = pieces v5 stroke (splitNamespace v5 validate prevUid) index splitStrokes.
Proof.
  revert prevUid index.
  induction splitStrokes as [|pathData rest IH]; intros prevUid index Hv; [done|].
  cbn [splitEntries]. unfold pieces. rewrite imap_cons. cbn zeta.
  fold (splitNamespace v5 validate prevUid).
  rewrite Nat.add_0_r. f_equal.
  rewrite IH.
  - unfold splitNamespace at 1. rewrite Hv. unfold pieces.
    apply imap_ext. intros i x _. simpl. by rewrite Nat.add_succ_r.
  - unfold splitNamespace at 1. by rewrite Hv.
Qed.

Lemma split_loop (splitMap : gmap string (list string)) l : ∀ acc,
  NoDup (OrderedMap.keys (acc ++ flat_map (splitOutput v5 validate splitMap) l)) →
  foldl (splitOne v5 validate splitMap) acc l
  = acc ++ flat_map (splitOutput v5 validate splitMap) l.
Proof.
  induction l as [|[k s] l IH]; intros acc Hnd.
  - simpl. by rewrite app_nil_r.
  - cbn [foldl flat_map] in *. rewrite app_assoc in Hnd.
    assert (splitOne v5 validate splitMap acc (k, s)
            = acc ++ splitOutput v5 validate splitMap (k, s)) as ->.
    { unfold OrderedMap.keys in Hnd. rewrite fmap_app in Hnd.
      apply NoDup_app in Hnd as (Hnd & _ & _).
      unfold splitOne, splitOutput in *. simpl in *.
      destruct (splitMap !! k) as [splitStrokes|].
      - by apply merge_fresh.
      - apply set_fresh. rewrite fmap_app in Hnd.
        apply NoDup_app in Hnd as (_ & Hnd & _).
        intros Hin. apply (Hnd k Hin). by left. }
    rewrite IH by done. by rewrite <- app_assoc.
Qed.

(** X12. The exact item map after [splitStrokes] on a non-empty list,
    when the UIDs of the result do not collide: every entry a splitter
    names is replaced, at its place, by its pieces (by nothing when the
    splitter lists no piece), and every other entry stays where it is.
    The supersede index is left as it is, and the last splitter given for
    a UID is the one that counts. *)
Theorem splitStrokes_shape (ds : DrawState) (splitters : list Splitter) :
  let out := flat_map (splitOutput v5 validate (splitMapOf splitters))
               (getStrokeMap ds) in
  splitters ≠ [] →
  NoDup (OrderedMap.keys out) →
  getStrokeMap (splitStrokes v5 validate ds splitters) = out
  ∧ getMutationPairs (splitStrokes v5 validate ds splitters) = getMutationPairs ds
  ∧ lastOp (splitStrokes v5 validate ds splitters) = Some (op_split splitters).
Proof.
  intros out Hne Hnd. unfold splitStrokes.
  destruct (decide (length splitters = 0)) as [Hl|_].
  { destruct splitters; [done | discriminate]. }
  split; [|done]. unfold getStrokeMap at 1. simpl.
  by apply (split_loop (splitMapOf splitters) (getStrokeMap ds) []).
Qed.
End Split.

(* ------------------------------------------------------------------ *)
(** ** Saving and loading *)

Section SaveLoad.
Variable v5 : string → string → string.
Variable validate : string → bool.



(** X14. Replaying a log in two parts. Loading a flat state with the
    operations [ops1 ++ ops2] is loading it with [ops1] and then pushing
    the operations [ops2] one by one, in the world the first part left;
    with an empty list of operations it is loading the flat state without
    operations. *)
Theorem loadFromFlat_replay (entries : list (string * StrokeData))
    (ops1 ops2 : list Operation) (ratio width : Qc) (w : World) :
  loadFromFlat v5 validate (mkFlatState entries (Some (ops1 ++ ops2))) ratio width w
  = (let '(ds1, w1) :=
       loadFromFlat v5 validate (mkFlatState entries (Some ops1)) ratio width w in
     forEachM (pushOperation v5 validate) ops2 ds1 w1)
  ∧ loadFromFlat v5 validate (mkFlatState entries (Some [])) ratio width w
    = loadFromFlat v5 validate (mkFlatState entries None) ratio width w.
Proof.
  split.
  - rewrite (loadFromFlat_unfold _ _ (mkFlatState entries (Some (ops1 ++ ops2)))).
    rewrite (loadFromFlat_unfold _ _ (mkFlatState entries (Some ops1))).
    cbn [flat_strokes flat_operations]. cbn zeta. apply forEachM_app.
  - unfold loadFromFlat. cbn [flat_strokes flat_operations].
    by destruct (foldl loadOne _ entries) as [s mp].
Qed.
End SaveLoad.

(* ------------------------------------------------------------------ *)
(** ** The merge as an interleaving *)

Section MergeInterleaving.

Lemma pushHeads_NoDup its : ∀ index heap0 heap1 its',
  pushHeads its index heap0 = (heap1, its') →
  NoDup heap0.*2 → (∀ i, i ∈ heap0.*2 → i < index) →
  NoDup heap1.*2.
Proof.
  induction its as [|it its IH]; intros index heap0 heap1 its' Hrun Hnd Hlt;
    cbn [pushHeads] in Hrun.
  { by injection Hrun as <- <-. }
  destruct it as [|value it]; cbn [next] in Hrun.
  - destruct (pushHeads its (S index) heap0) as [h its1] eqn:E.
    injection Hrun as <- <-. apply (IH _ _ _ _ E Hnd).
    intros i Hi. apply Hlt in Hi. lia.
  - destruct (pushHeads its (S index) _) as [h its1] eqn:E.
    injection Hrun as <- <-. apply (IH _ _ _ _ E).
    + rewrite (push_Permutation cmp), fmap_cons. apply NoDup_cons. split; [|done].
      simpl. intros Hi. apply Hlt in Hi. lia.
    + intros i. rewrite (push_Permutation cmp), fmap_cons, elem_of_cons. simpl.
      intros [->|Hi]; [lia|]. apply Hlt in Hi. lia.
Qed.

Lemma itemsOf_snoc i popped x j :
  itemsOf i (popped ++ [(x, j)])
  = itemsOf i popped ++ (if decide (j = i) then [x] else []).
Proof.
  unfold itemsOf. rewrite filter_app, fmap_app. f_equal.
  destruct (decide (j = i)) as [Hj|Hj].
  - by rewrite filter_cons_True.
  - by rewrite filter_cons_False.
Qed.

Lemma merged_so_far_init states : merged_so_far states [] (mergeInit states).
Proof.
  destruct (mergeInit_spec states) as (Hm & Hheads & Hits & Hin).
  unfold merged_so_far. repeat split_and.
  - done.
  - by rewrite Hits, length_fmap, length_map.
  - unfold mergeInit. destruct (pushHeads _ 0 []) as [heap1 its'] eqn:E. simpl.
    eapply pushHeads_NoDup; [exact E|constructor|].
    intros i Hi. by apply elem_of_nil in Hi.
  - intros e He. by apply elem_of_nil in He.
  - intros i ds Hi.
    assert (map (λ ds, OrderedMap.values (getStrokeMap ds)) states !! i
            = Some (OrderedMap.values (getStrokeMap ds))) as Hv.
    { by rewrite list_lookup_fmap, Hi. }
    exists (tail (OrderedMap.values (getStrokeMap ds))). split.
    { by rewrite Hits, list_lookup_fmap, Hv. }
    destruct (OrderedMap.values (getStrokeMap ds)) as [|h it] eqn:Ev.
    + right. split; [|done].
      intros ([y i'] & -> & Hy)%list_elem_of_fmap. simpl in *.
      apply Hin in Hy as [l Hl]. rewrite Hv in Hl. done.
    + left. exists h. split; [|done]. apply Hin. by exists it.
Qed.

Lemma merged_so_far_step states popped st st' :
  merged_so_far states popped st → mergeBody st = inl st' →
  ∃ x i heap1, Heap.pop cmp (heap st) = (Some (x, i), heap1)
               ∧ merged_so_far states (popped ++ [(x, i)]) st'.
Proof.
  intros (Hm & Hlen & Hnd & Hidx & Hsplit) Hbody.
  destruct (mergeBody_inl st st' Hbody)
    as (x & i & rest & heap1 & iterator & Eh & Epop & Hperm & Hit & ->).
  exists x, i, heap1. split; [done|].
  rewrite Eh, fmap_cons in Hnd. apply NoDup_cons in Hnd as [Hi Hnd]. simpl in Hi.
  assert (heap (mergeNext st x i heap1 iterator)
          ≡ₚ match iterator with v :: _ => (v, i) :: rest | [] => rest end)
    as Hheap'.
  { unfold mergeNext. simpl. destruct iterator; [done|].
    by rewrite (push_Permutation cmp), Hperm. }
  unfold merged_so_far. repeat split_and.
  - simpl. rewrite fmap_app, foldl_app. simpl. by rewrite Hm.
  - simpl. by rewrite length_insert.
  - rewrite Hheap'. destruct iterator; [done|].
    rewrite fmap_cons. by apply NoDup_cons.
  - intros e [He| ->%list_elem_of_singleton]%elem_of_app; [by apply Hidx|].
    simpl. rewrite <- Hlen. by eapply lookup_lt_Some.
  - intros j ds Hj. destruct (Hsplit j ds Hj) as (it & Hitj & Hcase).
    rewrite itemsOf_snoc.
    destruct (decide (i = j)) as [<-|Hne].
    + rewrite Hit in Hitj. injection Hitj as <-.
      exists (tail iterator). split.
      { simpl. apply list_lookup_insert_eq. by eapply lookup_lt_Some. }
      destruct Hcase as [(h & Hh & Hv)|(Hnot & _)].
      2: { exfalso. apply Hnot. rewrite Eh. simpl. by left. }
      assert (h = x) as ->.
      { rewrite Eh in Hh. apply elem_of_cons in Hh as [[= ->]|Hh]; [done|].
        exfalso. apply Hi. apply list_elem_of_fmap. by exists (h, i). }
      destruct iterator as [|v tl].
      * right. split; [|split; [done|]].
        -- by rewrite Hheap'.
        -- by rewrite Hv.
      * left. exists v. split.
        -- rewrite Hheap'. by left.
        -- by rewrite Hv, <- app_assoc.
    + exists it. split.
      { simpl. by rewrite list_lookup_insert_ne. }
      rewrite app_nil_r.
      destruct Hcase as [(h & Hh & Hv)|(Hnot & -> & Hv)].
      * left. exists h. split; [|done]. rewrite Hheap'. rewrite Eh in Hh.
        apply elem_of_cons in Hh as [[= _ ?]|Hh]; [done|].
        destruct iterator; [done | by right].
      * right. split; [|done]. rewrite Hheap'. intros Hin. apply Hnot.
        rewrite Eh, fmap_cons. destruct iterator; [by right|].
        rewrite fmap_cons in Hin.
        apply elem_of_cons in Hin as [?|?]; [done | by right].
Qed.

Lemma popped_in_order_step popped st st' x i heap1 :
  heads_ok st → popped_in_order popped st →
  mergeBody st = inl st' →
  Heap.pop cmp (heap st) = (Some (x, i), heap1) →
  popped_in_order (popped ++ [(x, i)]) st'.
Proof.
  intros Hheads (Hasc & Hord & Hle) Hbody Hpop.
  destruct (pending_step st st' x i heap1 Hbody Hpop) as (Hx & Hsub & _).
  pose proof (popped_least st x i heap1 Hheads Hasc Hpop) as Hleast.
  split; [by eapply cursors_ascending_step|]. rewrite fmap_app. simpl. split.
  - intros a b xa xb Ha Hb Hab.
    assert (b < length (popped.*1 ++ [x])) as Hb' by (by eapply lookup_lt_Some).
    rewrite length_app in Hb'. simpl in Hb'.
    rewrite lookup_app_l in Ha by lia.
    destruct (decide (b < length popped.*1)) as [Hlt|Hge].
    + rewrite lookup_app_l in Hb by done. by eapply Hord.
    + rewrite lookup_app_r in Hb by lia.
      apply list_lookup_singleton_Some in Hb as [_ <-].
      apply Hle; [|done]. by eapply list_elem_of_lookup_2.
  - intros d y [Hd| ->%list_elem_of_singleton]%elem_of_app Hy.
    + apply Hle; [done|]. by apply Hsub.
    + apply Hleast. by apply Hsub.
Qed.

(** X15. The merge applies an interleaving of the snapshots. For any
    snapshots, [mergeStates] returns the fold of the three resolution
    rules over a sequence that holds every item of every snapshot exactly
    once, each snapshot's items in the order the snapshot stores them.
    When every snapshot stores its items in non-decreasing timestamp
    order, that sequence is in non-decreasing timestamp order as well. *)
Theorem mergeStates_interleaves (states : list DrawState) :
  ∃ tagged : list HeapEntry,
    interleaving states tagged
    ∧ mergeStates states = Some (foldl mergeItem [] tagged.*1)
    ∧ (all_ascending states → in_timestamp_order tagged.*1).
Proof.
  destruct (mergeStates_returns states) as [m Hm].
  destruct (mergeLoop_invariant
    (λ st, heads_ok st
           ∧ ∃ popped, merged_so_far states popped st
                       ∧ (all_ascending states → popped_in_order popped st)))
    with (fuel := mergeFuel states) (st := mergeInit states) (result := m)
    as (st & (Hheads & popped & Hsofar & Hord) & Hend).
  - intros st st' (Hheads & popped & Hsofar & Hord) Hbody.
    split; [by eapply heads_ok_step|].
    destruct (merged_so_far_step states popped st st' Hsofar Hbody)
      as (x & i & heap1 & Hpop & Hsofar').
    exists (popped ++ [(x, i)]). split; [done|].
    intros Hasc. by eapply popped_in_order_step; [| apply Hord | |].
  - split; [apply mergeInit_spec|]. exists []. split; [apply merged_so_far_init|].
    intros Hasc. split; [by apply cursors_ascending_init|]. split.
    + intros a b xa xb Ha. done.
    + intros d y Hd. by apply elem_of_nil in Hd.
  - exact Hm.
  - destruct (mergeBody_inr st m Hheads Hend) as (Hnil & -> & _).
    destruct Hsofar as (Hmerged & Hlen & _ & Hidx & Hsplit).
    exists popped. split; [split; [done|]|split].
    + intros i ds Hi. destruct (Hsplit i ds Hi) as (it & _ & [(h & Hh & _)|(_ & _ & Hv)]).
      * rewrite Hnil in Hh. by apply elem_of_nil in Hh.
      * done.
    + by rewrite Hm, Hmerged.
    + intros Hasc. by apply Hord.
Qed.
End MergeInterleaving.

(* ------------------------------------------------------------------ *)
(** ** The merge after an edit, and with a later peer *)

Section MergeAfterEdit.

Lemma mergeStates_one (ds : DrawState) :
  mergeStates [ds]
  = Some (foldl mergeItem [] (OrderedMap.values (getStrokeMap ds))).
Proof.
  unfold mergeStates, mergeFuel, mergeInit. cbn [map sum_list foldr pushHeads].
  unfold OrderedMap.values. rewrite <- (length_fmap snd).
  destruct ((getStrokeMap ds).*2) as [|x items]; [done|].
  cbn [next]. rewrite push_nil.
  apply single_loop; [done|simpl; lia].
Qed.

Lemma mergeByTimestamp_separated la : ∀ lb,
  (∀ a b, a ∈ la → b ∈ lb → (sd_timestamp a < sd_timestamp b)%Z) →
  mergeByTimestamp la lb = la ++ lb.
Proof.
  induction la as [|a la IH]; intros lb Hsep.
  - by rewrite mergeByTimestamp_nil_l.
  - destruct lb as [|b lb].
    + by rewrite mergeByTimestamp_nil_r, app_nil_r.
    + rewrite mergeByTimestamp_cons.
      destruct (decide (sd_timestamp a < sd_timestamp b)%Z) as [_|Hn].
      * simpl. f_equal. apply IH. intros a' b' Ha' Hb'. apply Hsep; [by right|done].
      * exfalso. apply Hn, Hsep; by left.
Qed.

(** X16. Merging with a snapshot that is later as a whole. When every
    item of [A] has a smaller timestamp than every item of [B], the merge
    of the two, in either order, is what the items of [B], in the order [B]
    stores them, make of the merge of [A] alone. In particular, merging
    with a snapshot that holds no item gives the merge of [A] alone. *)
Theorem mergeStates_later_peer (A B : DrawState) :
  earlier_than A B →
  ∃ mA, mergeStates [A] = Some mA
        ∧ mergeStates [A; B]
          = Some (foldl mergeItem mA (OrderedMap.values (getStrokeMap B)))
        ∧ mergeStates [B; A]
          = Some (foldl mergeItem mA (OrderedMap.values (getStrokeMap B))).
Proof.
  intros Hsep.
  assert (no_cross_ties (OrderedMap.values (getStrokeMap A))
                        (OrderedMap.values (getStrokeMap B))) as Hties.
  { apply Forall_forall. intros a Ha. apply Forall_forall. intros b Hb.
    specialize (Hsep a b Ha Hb). lia. }
  exists (foldl mergeItem [] (OrderedMap.values (getStrokeMap A))).
  split; [apply mergeStates_one|].
  rewrite (mergeStates_two A B Hties).
  rewrite (mergeStates_two B A (no_cross_ties_sym _ _ Hties)).
  rewrite <- (mergeByTimestamp_comm _ _ Hties).
  rewrite mergeByTimestamp_separated by done.
  by rewrite foldl_app.
Qed.

(** X17. The merged view after drawing. When a stroke is pushed under a
    UID that is not a key of the item map, the merge of the snapshot alone
    is the merge before the push with the stroke set under its UID: put
    last when no merged stroke has that UID, put in place of the one that
    has it otherwise. *)
Theorem mergeStates_after_pushStroke (ds : DrawState) (stroke : Stroke) :
  uid stroke ∉ OrderedMap.keys (getStrokeMap ds) →
  ∃ m, mergeStates [ds] = Some m
       ∧ mergeStates [pushStroke ds stroke]
         = Some (OrderedMap.set (uid stroke) stroke m).
Proof.
  intros Hu. exists (foldl mergeItem [] (OrderedMap.values (getStrokeMap ds))).
  split; [apply mergeStates_one|]. rewrite mergeStates_one.
  unfold pushStroke, getStrokeMap at 1. simpl. rewrite set_fresh by done.
  unfold OrderedMap.values. by rewrite fmap_app, foldl_app.
Qed.

Lemma supersedes_fold ts (mutations : list Mutation) : ∀ w merged,
  foldl mergeItem merged (OrderedMap.values (supersedes w ts mutations))
  = foldl applyMutation merged mutations.
Proof.
  induction mutations as [|[u p] rest IH]; intros w merged; [done|].
  rewrite supersedes_cons. unfold OrderedMap.values in *.
  rewrite fmap_cons. cbn [foldl]. by rewrite IH.
Qed.

(** X18. The merged view after a first mutation. When [mutateStrokes]
    is given a non-empty list of mutations with distinct origins, none of
    which has a supersede record yet, the UUIDs handed out are fresh and
    nothing sits under the empty-string key, the merge of the new snapshot
    alone is the merge before with, for every mutation in turn, the
    payload of the merged stroke of that origin replaced: its place, UID
    and timestamp stay, and a mutation of an origin that is not in the
    merged view changes nothing. *)
Theorem mergeStates_after_first_mutation (ds : DrawState)
    (mutations : list Mutation) (timestamp : option Z) (w : World) :
  mutations ≠ [] →
  NoDup mutations.*1 →
  fresh_for_mutate ds w (length mutations) →
  (∀ u, u ∈ mutations.*1 → getMutationPairs ds !! u = None) →
  "" ∉ OrderedMap.keys (getStrokeMap ds) →
  ∃ m, mergeStates [ds] = Some m
       ∧ mergeStates [(mutateStrokes ds mutations timestamp w).1]
         = Some (foldl applyMutation m mutations).
Proof.
  intros Hne Hno [[Hnd Hkeys] Hfresh] Hfirst Hempty.
  exists (foldl mergeItem [] (OrderedMap.values (getStrokeMap ds))).
  split; [apply mergeStates_one|]. rewrite mergeStates_one.
  destruct (mutateStrokes_unfold ds mutations timestamp w Hne)
    as (ts & w0 & s' & p' & w' & Et & Eloop & ->).
  assert (uuids w0 = uuids w ∧ uuid_calls w0 = uuid_calls w) as [Hw Hc].
  { destruct timestamp; unfold ret, Date_now in Et; by injection Et as <- <-. }
  assert (v4_results w0 (length mutations) = v4_results w (length mutations)) as Ev.
  { unfold v4_results. by rewrite Hw, Hc. }
  rewrite mutate_loop_shape in Eloop; [| done | by rewrite Ev |].
  2: { intros k Hk. rewrite Ev in Hk. destruct (Hfresh k Hk) as [Hke Hkm].
       split; [done|]. split; [|done]. by apply Hkeys. }
  injection Eloop as <- <- <-. unfold getStrokeMap at 1. simpl.
  rewrite filter_all.
  - unfold OrderedMap.values. rewrite fmap_app, foldl_app.
    apply (f_equal Some), supersedes_fold.
  - intros [k v] Hin Hrep. simpl in Hrep. unfold replaced in Hrep.
    apply list_elem_of_fmap in Hrep as (mu & Hk & Hmu).
    rewrite Hfirst in Hk.
    + simpl in Hk. subst k. apply Hempty. by eapply elem_of_keys.
    + apply list_elem_of_fmap. by exists mu.
Qed.
End MergeAfterEdit.

(* ------------------------------------------------------------------ *)
(** ** Erasing a stroke of a peer *)

Section EraseThenMerge.

Lemma ascending_snoc l x :
  ascending l = true →
  (∀ y, y ∈ l → (sd_timestamp y ≤ sd_timestamp x)%Z) →
  ascending (l ++ [x]) = true.
Proof.
  induction l as [|a l IH]; intros Hasc Hle; [done|].
  cbn [ascending app] in *. apply andb_true_iff in Hasc as [Ha Hl].
  apply andb_true_iff. split.
  - rewrite forallb_app, Ha. simpl. rewrite andb_true_r.
    apply bool_decide_eq_true. apply Hle. by left.
  - apply IH; [done|]. intros y Hy. apply Hle. by right.
Qed.

(** X19. Erasing a stroke of a peer hides it from the merged view. Let
    the snapshot and its peers store their items in non-decreasing
    timestamp order, let [u] be a UID that is not on the own page, and let
    the clock reading of the erase be later than every stroke of UID [u]
    and not earlier than any own item. Then the merge of the snapshot
    returned by [eraseStrokes] with the peers has no stroke under [u]. *)
Theorem erase_hides_peer_stroke (ds : DrawState) (peers : list DrawState)
    (u : string) (w : World) :
  all_ascending (ds :: peers) →
  u ∉ OrderedMap.keys (getStrokeMap ds) →
  fresh_uids ds w 1 →
  (∀ y, y ∈ OrderedMap.values (getStrokeMap ds) →
        (sd_timestamp y ≤ clock w (clock_calls w))%Z) →
  (∀ s, inputItem (ds :: peers) (STROKE s) → uid s = u →
        (timestamp s < clock w (clock_calls w))%Z) →
  ∃ m, mergeStates ((eraseStrokes ds [u] w).1 :: peers) = Some m
       ∧ OrderedMap.get u m = None.
Proof.
  intros Hasc Hu [Hnd Hfresh] Hown Hlater.
  destruct (eraseStrokes_unfold ds [u] w) as (s' & w' & Eloop & E); [done|].
  assert (hiddenOf ds [u] = [u]) as Eh.
  { unfold hiddenOf. rewrite filter_cons_True; [done|].
    intros Hhas. apply Is_true_true, has_true in Hhas as [v Hv].
    apply Hu. eapply elem_of_keys. by apply get_Some_elem_of. }
  rewrite Eh in Eloop. unfold OrderedMap.deleteAll in Eloop. cbn [foldl] in Eloop.
  rewrite remove_absent in Eloop by done.
  rewrite hide_loop_shape in Eloop; [| done | done].
  injection Eloop as <- <-.
  set (k := uuids w (uuid_calls w)).
  set (td := clock w (clock_calls w)) in *.
  assert (tombstones w [u] = [(k, HIDE k u td)]) as Et.
  { unfold tombstones, k, td. simpl. by rewrite !Nat.add_0_r. }
  rewrite Et in E.
  assert (OrderedMap.values (getStrokeMap (eraseStrokes ds [u] w).1)
          = OrderedMap.values (getStrokeMap ds) ++ [HIDE k u td]) as Ev.
  { rewrite E. unfold getStrokeMap at 1. simpl. unfold OrderedMap.values.
    by rewrite fmap_app. }
  apply (tombstone_last _ u k td).
  - intros ds0 [->|Hin]%elem_of_cons.
    + rewrite Ev. apply ascending_snoc; [|done]. apply Hasc. by left.
    + apply Hasc. by right.
  - exists (eraseStrokes ds [u] w).1. split; [by left|].
    rewrite Ev. apply elem_of_app. right. by left.
  - intros s (ds0 & [->|Hin]%elem_of_cons & Hs) Hus.
    + rewrite Ev in Hs. apply elem_of_app in Hs as [Hs|Hs].
      * apply Hlater; [|done]. exists ds. split; [by left|done].
      * by apply list_elem_of_singleton in Hs.
    + apply Hlater; [|done]. exists ds0. split; [by right|done].
Qed.
End EraseThenMerge.

(* ------------------------------------------------------------------ *)
(** ** Concrete runs of the further properties *)

(** X1, on a page with one stroke. *)
Lemma undo_reverts_edit_witness :
  undo_gives_back sample_page (pushStroke sample_page (mkStroke "b" "p2" 2))
  ∧ undo_gives_back sample_page (eraseStrokes sample_page ["a"] sample_world).1
  ∧ undo_gives_back sample_page
      (mutateStrokes sample_page [("a", "q")] None sample_world).1
  ∧ undo_gives_back sample_page
      (splitStrokes sample_v5 sample_validate sample_page [("a", ["x"; "y"])]).
Proof.
  apply (undo_reverts_edit sample_v5 sample_validate sample_page
           (mkStroke "b" "p2" 2) ["a"] [("a", "q")] None [("a", ["x"; "y"])]
           sample_world); discriminate.
Defined.

(** X2, after an undo: the split is dropped by the redo. *)
Lemma redo_after_edit_witness :
  head (getUndoStack sample_undone) = Some (getImmutable sample_two)
  ∧ redo (pushStroke sample_undone (mkStroke "c" "p3" 3))
    = pushStroke sample_undone (mkStroke "c" "p3" 3)
  ∧ getStrokeMap
      (redo (splitStrokes sample_v5 sample_validate sample_undone [("a", ["x"; "y"])]))
    = getStrokeMap sample_two.
Proof.
  split; [reflexivity|].
  destruct (redo_after_edit sample_v5 sample_validate sample_undone
              (mkStroke "c" "p3" 3) ["a"] [("a", "q")] None [("a", ["x"; "y"])]
              sample_world (getImmutable sample_two))
    as (H1 & _ & _ & H2 & _); [discriminate..|reflexivity|].
  split; [exact H1|]. unfold getStrokeMap. by rewrite H2.
Defined.

(** X3, after an undo. *)
Lemma lastOp_replays_witness :
  replays sample_v5 sample_validate sample_undone sample_world
    (mutateStrokes sample_undone [("a", "q")] None sample_world)
  ∧ replays sample_v5 sample_validate sample_undone sample_world
      (eraseStrokes sample_undone ["z"] sample_world)
  ∧ replays sample_v5 sample_validate sample_undone sample_world
      (undo sample_undone, sample_world).
Proof.
  destruct (lastOp_replays sample_v5 sample_validate sample_undone
              (mkStroke "c" "p3" 3) [] ["z"] [("a", "q")] None
              [("a", ["x"; "y"])] sample_world)
    as (_ & _ & H1 & H2 & _ & H3 & _); [discriminate..|].
  split; [exact H2|]. split; [exact H1|exact H3].
Defined.

Lemma sample_two_reachable : reachable sample_v5 sample_validate sample_two.
Proof. apply reach_pushStroke, reach_pushStroke, reach_createEmpty. Defined.

(** X4: two undos on a page with two strokes give the empty page. *)
Lemma undo_walks_back_witness :
  getStrokeMap (Nat.iter 2 undo sample_two) = []
  ∧ getHistoryStack (Nat.iter 2 undo sample_two) = []
  ∧ length (getUndoStack (Nat.iter 2 undo sample_two)) = 2.
Proof.
  destruct (undo_walks_back sample_v5 sample_validate sample_two 2 defaultRecord
              sample_two_reachable)
    as (H1 & _ & H2 & H3); [simpl; lia|simpl; lia|reflexivity|].
  split; [exact H1|]. split; [exact H2|exact H3].
Defined.

(** X5: two undos and two redos on a page with two strokes. *)
Lemma undo_redo_n_roundtrip_witness :
  getImmutable (Nat.iter 2 redo (Nat.iter 2 undo sample_two))
  = getImmutable sample_two.
Proof.
  apply (undo_redo_n_roundtrip sample_v5 sample_validate sample_two 2
           sample_two_reachable).
  simpl. lia.
Defined.

(** X6, on a page with one stroke. *)
Lemma addStroke_appends_witness :
  getStrokeMap (addStroke sample_page "p2" sample_world).1
  = [("a", STROKE (mkStroke "a" "p1" 1));
     ("uuid-0", STROKE (mkStroke "uuid-0" "p2" 0))]
  ∧ getLastStroke (addStroke sample_page "p2" sample_world).1
    = Some (STROKE (mkStroke "uuid-0" "p2" 0))
  ∧ hasStroke (addStroke sample_page "p2" sample_world).1 "uuid-0" = true
  ∧ isEmpty (addStroke sample_page "p2" sample_world).1 = false.
Proof.
  destruct (addStroke_appends sample_page "p2" sample_world)
    as (H1 & H2 & H3 & H4 & _).
  { apply (bool_decide_unpack _). vm_compute. exact I. }
  split; [exact H1|]. split; [exact H2|]. split; [exact H3|exact H4].
Defined.

Lemma sample_page_fresh n :
  n ≤ 2 → fresh_uids sample_page sample_world n.
Proof.
  intros Hn. split.
  - destruct n as [|[|[|n]]]; [..|lia];
      apply (bool_decide_unpack _); vm_compute; exact I.
  - apply Forall_forall.
    destruct n as [|[|[|n]]]; [..|lia];
      apply (bool_decide_unpack _); vm_compute; exact I.
Defined.

(** X7, on a page with one stroke. *)
Lemma addStrokeList_appends_witness :
  getStrokeMap (addStrokeList sample_page ["p2"; "p3"] sample_world).1
  = [("a", STROKE (mkStroke "a" "p1" 1));
     ("uuid-0", STROKE (mkStroke "uuid-0" "p2" 0));
     ("uuid-1", STROKE (mkStroke "uuid-1" "p3" 0))]
  ∧ getHistoryStack (addStrokeList sample_page ["p2"; "p3"] sample_world).1
    = getHistoryStack sample_page
  ∧ (addStrokeList sample_page ["p2"; "p3"] sample_world).2
    = advance sample_world 2 1.
Proof.
  destruct (addStrokeList_appends sample_page ["p2"; "p3"] sample_world)
    as (H1 & _ & _ & _ & H2 & _ & H3).
  { apply (bool_decide_unpack _). vm_compute. exact I. }
  { apply sample_page_fresh. simpl. lia. }
  split; [exact H1|]. split; [exact H2|exact H3].
Defined.

Lemma sample_two_fresh : fresh_uids sample_two sample_world 1.
Proof.
  split.
  - apply (bool_decide_unpack _). vm_compute. exact I.
  - apply Forall_forall. apply (bool_decide_unpack _). vm_compute. exact I.
Defined.

(** X8: erasing a stroke that is on the page and one that is not. *)
Lemma eraseStrokes_shape_witness :
  getStrokeMap (eraseStrokes sample_two ["a"; "z"] sample_world).1
  = [("b", STROKE (mkStroke "b" "p2" 2)); ("uuid-0", HIDE "uuid-0" "z" 0)]
  ∧ (eraseStrokes sample_two ["a"; "z"] sample_world).2 = advance sample_world 1 1.
Proof.
  apply (eraseStrokes_shape sample_two ["a"; "z"] sample_world);
    [discriminate | exact sample_two_fresh].
Defined.

(** X9, on a page with one stroke. *)
Lemma erase_after_add_witness :
  getStrokeMap (eraseStrokes (pushStroke sample_page (mkStroke "b" "p2" 2)) ["b"]
                  sample_world).1
  = getStrokeMap sample_page
  ∧ (eraseStrokes (pushStroke sample_page (mkStroke "b" "p2" 2)) ["b"]
       sample_world).2 = sample_world.
Proof.
  destruct (erase_after_add sample_page (mkStroke "b" "p2" 2) sample_world)
    as (H1 & _ & H2 & _).
  { apply (bool_decide_unpack _). vm_compute. exact I. }
  split; [exact H1|exact H2].
Defined.

Lemma sample_two_fresh_for_mutate : fresh_for_mutate sample_two sample_world 1.
Proof.
  split; [exact sample_two_fresh|].
  intros k Hk. vm_compute in Hk. apply list_elem_of_singleton in Hk as ->.
  split; [discriminate|]. intros o. discriminate.
Defined.

(** X10: a first mutation of the stroke ["a"]. *)
Lemma mutateStrokes_shape_witness :
  getStrokeMap (mutateStrokes sample_two [("a", "q")] None sample_world).1
  = [("a", STROKE (mkStroke "a" "p1" 1)); ("b", STROKE (mkStroke "b" "p2" 2));
     ("uuid-0", MUTATE "uuid-0" "a" "q" 0)]
  ∧ getMutationPairs (mutateStrokes sample_two [("a", "q")] None sample_world).1
      !! "a" = Some "uuid-0".
Proof.
  destruct (mutateStrokes_shape sample_two [("a", "q")] None sample_world)
    as (H1 & H2 & _).
  { discriminate. }
  { apply (bool_decide_unpack _). vm_compute. exact I. }
  { exact sample_two_fresh_for_mutate. }
  split; [exact H1|]. rewrite H2. reflexivity.
Defined.

(** X11: the two pieces of an origin with a legacy UID. *)
Lemma splitEntries_namespace_witness :
  splitEntries sample_v5 legacy_validate (STROKE (mkStroke "legacy" "p" 7))
    "legacy" 0 ["x"; "y"]
  = pieces sample_v5 (STROKE (mkStroke "legacy" "p" 7))
      (sample_v5 "legacy" NIL) 0 ["x"; "y"].
Proof.
  apply (splitEntries_namespace sample_v5 legacy_validate
           (STROKE (mkStroke "legacy" "p" 7)) "legacy" 0 ["x"; "y"]).
  reflexivity.
Defined.

(** X12: splitting the first of two strokes in two. *)
Lemma splitStrokes_shape_witness :
  getStrokeMap (splitStrokes sample_v5 sample_validate sample_two [("a", ["x"; "y"])])
  = [("a/0", STROKE (mkStroke "a/0" "x" 1)); ("a/1", STROKE (mkStroke "a/1" "y" 1));
     ("b", STROKE (mkStroke "b" "p2" 2))].
Proof.
  destruct (splitStrokes_shape sample_v5 sample_validate sample_two
              [("a", ["x"; "y"])]) as (H1 & _).
  { discriminate. }
  { apply (bool_decide_unpack _). vm_compute. exact I. }
  exact H1.
Defined.



Lemma sample_earlier : earlier_than sample_stroke sample_hide_between.
Proof.
  intros a b Ha Hb. vm_compute in Ha, Hb.
  apply list_elem_of_singleton in Ha as ->.
  apply list_elem_of_singleton in Hb as ->. reflexivity.
Defined.

(** X16: a stroke and a peer holding a later tombstone for it. *)
Lemma mergeStates_later_peer_witness :
  mergeStates [sample_stroke; sample_hide_between] = Some []
  ∧ mergeStates [sample_hide_between; sample_stroke] = Some [].
Proof.
  destruct (mergeStates_later_peer sample_stroke sample_hide_between sample_earlier)
    as (mA & HA & H1 & H2).
  injection HA as <-. split; [exact H1|exact H2].
Defined.

(** X17, on a page with one stroke. *)
Lemma mergeStates_after_pushStroke_witness :
  mergeStates [pushStroke sample_page (mkStroke "b" "p2" 2)]
  = Some [("a", mkStroke "a" "p1" 1); ("b", mkStroke "b" "p2" 2)].
Proof.
  destruct (mergeStates_after_pushStroke sample_page (mkStroke "b" "p2" 2))
    as (m & Hm & H1).
  { apply (bool_decide_unpack _). vm_compute. exact I. }
  injection Hm as <-. exact H1.
Defined.

(** X18: a first mutation of the stroke ["a"]. *)
Lemma mergeStates_after_first_mutation_witness :
  mergeStates [(mutateStrokes sample_two [("a", "q")] None sample_world).1]
  = Some [("a", mkStroke "a" "q" 1); ("b", mkStroke "b" "p2" 2)].
Proof.
  destruct (mergeStates_after_first_mutation sample_two [("a", "q")] None
              sample_world) as (m & Hm & H1).
  { discriminate. }
  { apply (bool_decide_unpack _). vm_compute. exact I. }
  { exact sample_two_fresh_for_mutate. }
  { intros u Hu. reflexivity. }
  { apply (bool_decide_unpack _). vm_compute. exact I. }
  injection Hm as <-. exact H1.
Defined.

Lemma sample_peer_ascending : all_ascending [createEmpty 1 1; sample_stroke].
Proof.
  intros ds Hds.
  repeat (apply elem_of_cons in Hds as [->|Hds]; [reflexivity|]).
  by apply elem_of_nil in Hds.
Defined.

Lemma sample_empty_fresh : fresh_uids (createEmpty 1 1) sample_world_late 1.
Proof.
  split.
  - apply (bool_decide_unpack _). vm_compute. exact I.
  - apply Forall_forall. apply (bool_decide_unpack _). vm_compute. exact I.
Defined.

Lemma sample_peer_strokes_before :
  ∀ s, inputItem [createEmpty 1 1; sample_stroke] (STROKE s) → uid s = "u" →
       (timestamp s < clock sample_world_late (clock_calls sample_world_late))%Z.
Proof.
  intros s (ds & Hds & Hs) Hu.
  repeat (apply elem_of_cons in Hds as [->|Hds];
          [vm_compute in Hs;
           repeat (apply elem_of_cons in Hs as [Hs|Hs]; [by simplify_eq/=|]);
           by apply elem_of_nil in Hs|]).
  by apply elem_of_nil in Hds.
Defined.

(** X19: erasing, on an empty page, the stroke a peer has drawn. *)
Lemma erase_hides_peer_stroke_witness :
  ∃ m, mergeStates
         [(eraseStrokes (createEmpty 1 1) ["u"] sample_world_late).1; sample_stroke]
       = Some m
       ∧ OrderedMap.get "u" m = None.
Proof.
  apply (erase_hides_peer_stroke (createEmpty 1 1) [sample_stroke] "u"
           sample_world_late sample_peer_ascending).
  - apply not_elem_of_nil.
  - exact sample_empty_fresh.
  - intros y Hy. by apply elem_of_nil in Hy.
  - exact sample_peer_strokes_before.
Defined.
